(** * hivex, lib/node.c: the key-tree traversal engine

    A shallow embedding of [lib/node.c]: the key ("nk") record accessors, the
    walker over the subkey indirection blocks ("lf"/"lh" leaves, "ri" indexes)
    and the case-insensitive child lookup, with the properties the
    specification states about them.

    Conventions.
    - [size_t] and [hive_node_h] are 64-bit unsigned: a [Z] reduced by
      [to_size_t] wherever the C code does arithmetic on them.
    - The hive image [h->addr] is a list of bytes; a byte outside the image
      reads as 0 (the C read there is undefined).
    - A function that reports failure through a sentinel and [SET_ERRNO]
      returns a [result]: [Err e m] carries the errno value and the message
      of the [SET_ERRNO] that was executed.  The sentinel the C caller sees
      is recovered by [c_size_t], [c_int64] and [c_pointer].
    - The allocator is an oracle [malloc_ok]: whether a request for a
      number of bytes is granted.  It is consulted where node.c calls
      [malloc] and where the offset list reserves storage. *)

From Stdlib Require Import ZArith List Lia Bool String Ascii.
Import ListNotations.
Local Open Scope Z_scope.

(** ** <errno.h> and the diagnostics of SET_ERRNO *)

Inductive errno : Set :=
| EINVAL | EFAULT | ENOTSUP | ERANGE | ENOMEM | HIVEX_NO_KEY.

(** One constructor for each format string given to [SET_ERRNO] in node.c
    (and the one of the offset list), with the arguments it prints;
    [allocation_failed] stands for the errno an allocator leaves. *)
Inductive message : Set :=
| no_root_key
| not_an_nk_block
| node_name_too_long (name_len seg_len : Z)
| negative_time (node timestamp : Z)
| nr_subkeys_over_max (nr_subkeys_in_nk : Z)
| subkey_lf_not_valid (subkey_lf : Z)
| nr_subkeys_mismatch (nr_subkeys_in_nk nr_children : Z)
| too_many_subkeys (nr_subkeys_in_lf len : Z)
| too_many_offsets (nr_offsets len : Z)
| ri_offset_not_valid (offset : Z)
| not_lf_lh_ri (blkoff id0 id1 : Z)
| subkey_not_valid (child : Z)
| subkey_not_nk (child id0 id1 : Z)
| parent_not_valid (parent : Z)
| offset_list_over_limit (limit : Z)
| allocation_failed.

Inductive result (A : Type) : Type :=
| Ok (a : A)
| Err (e : errno) (m : message).
Arguments Ok {A} a.
Arguments Err {A} e m.

(** The error kinds of the specification are the errno values a caller can
    observe.  InvalidTimestamp has no errno of its own: it is [EINVAL] with
    the [negative_time] diagnostic. *)
Definition InvalidArgument : errno := EINVAL.
Definition InvalidTimestamp : errno := EINVAL.
Definition StructuralFault : errno := EFAULT.
Definition UnsupportedStructure : errno := ENOTSUP.
Definition ResourceLimitExceeded : errno := ERANGE.
Definition NoRootKey : errno := HIVEX_NO_KEY.

Definition errno_of {A} (r : result A) : option errno :=
  match r with Ok _ => None | Err e _ => Some e end.

(** What the C caller receives: 0 for a failed [size_t], -1 for a failed
    [int64_t], NULL (here [None]) for a failed pointer. *)
Definition c_size_t (r : result Z) : Z :=
  match r with Ok v => v | Err _ _ => 0 end.
Definition c_int64 (r : result Z) : Z :=
  match r with Ok v => v | Err _ _ => -1 end.
Definition c_pointer {A} (r : result A) : option A :=
  match r with Ok v => Some v | Err _ _ => None end.

(** ** Machine integers *)

Definition to_size_t (z : Z) : Z := z mod 2 ^ 64.
Definition to_int32 (u : Z) : Z := if u <? 2 ^ 31 then u else u - 2 ^ 32.
Definition to_int64 (u : Z) : Z := if u <? 2 ^ 63 then u else u - 2 ^ 64.

(** ** hivex-internal.h *)

(** Modelled from the spec: hivex-internal.h is not among the sources.  The
    two constants node.c takes from it, and the size of the packed
    [struct ntreg_nk_record] and the offsets of the fields node.c reads
    through it (spec section 6: timestamp, parent offset, subkey-list
    offset, subkey count, name length, name bytes), are parameters: every
    property below holds for any value of them, under the assumptions it
    states.  HIVEX_MAX_SUBKEYS is meant non-negative, as a ceiling is. *)
Record hivex_internal : Set := {
  HIVEX_MAX_SUBKEYS : Z;
  GET_CHILDREN_NO_CHECK_NK : Z;
  sizeof_nk_record : Z;          (* sizeof (struct ntreg_nk_record) *)
  nk_timestamp : Z;              (* offsetof (..., timestamp) *)
  nk_parent : Z;
  nk_nr_subkeys : Z;
  nk_subkey_lf : Z;
  nk_name_len : Z;
  nk_name : Z
}.

(** The instance used in the examples: the offsets of the key record of the
    registry format, after the 4-byte segment length of its block. *)
Definition ntreg : hivex_internal := {|
  HIVEX_MAX_SUBKEYS := 70000;
  GET_CHILDREN_NO_CHECK_NK := 1;
  sizeof_nk_record := 81;
  nk_timestamp := 8;
  nk_parent := 20;
  nk_nr_subkeys := 24;
  nk_subkey_lf := 32;
  nk_name_len := 76;
  nk_name := 80
|}.

(** Modelled from the spec: [struct hive_h] of hivex-internal.h, with the
    fields node.c uses: the mapped buffer and its size, the root offset and
    the last-modified stamp "owned by the store", and the store's record of
    the offsets that begin a block header ([bitmap]). *)
Record hive_h : Set := {
  size : Z;
  addr : list Z;
  bitmap : list Z;
  rootoffs : Z;
  last_modified : Z
}.

Definition byte_at (h : hive_h) (off : Z) : Z :=
  if off <? 0 then 0 else nth (Z.to_nat off) (addr h) 0 mod 256.

(** Modelled from the spec: byte_conversions.h is not among the sources;
    "little-endian 16/32/64-bit integers" read from the image. *)
Definition le16toh (h : hive_h) (off : Z) : Z :=
  byte_at h off + 2 ^ 8 * byte_at h (off + 1).
Definition le32toh (h : hive_h) (off : Z) : Z :=
  le16toh h off + 2 ^ 16 * le16toh h (off + 2).
Definition le64toh (h : hive_h) (off : Z) : Z :=
  le32toh h off + 2 ^ 32 * le32toh h (off + 4).

(** Modelled from the spec: the macro IS_VALID_BLOCK of hivex-internal.h,
    "true iff offset lies within the mapped buffer and begins a recognized
    block header". *)
Definition IS_VALID_BLOCK (h : hive_h) (off : Z) : bool :=
  (0 <=? off) && (off <? size h) && existsb (Z.eqb off) (bitmap h).

(** Modelled from the spec: [block->id[0]] and [block->id[1]] of
    [struct ntreg_hbin_block], the 2-byte tag that follows the 4-byte
    segment length of a block. *)
Definition block_id0 (h : hive_h) (off : Z) : Z := byte_at h (off + 4).
Definition block_id1 (h : hive_h) (off : Z) : Z := byte_at h (off + 5).

(** Modelled from the spec: the macro BLOCK_ID_EQ of hivex-internal.h,
    "compares the 2-byte type tag at offset". *)
Definition BLOCK_ID_EQ (h : hive_h) (off : Z) (c0 c1 : ascii) : bool :=
  (block_id0 h off =? Z.of_nat (nat_of_ascii c0))
  && (block_id1 h off =? Z.of_nat (nat_of_ascii c1)).

(** Modelled from the spec: the inline function block_len of
    hivex-internal.h, "the block's declared usable length" and its used
    flag: the magnitude of the signed 32-bit [seg_len], negative when the
    block is in use. *)
Definition block_len (h : hive_h) (blkoff : Z) : Z * bool :=
  let len := to_int32 (le32toh h blkoff) in
  (Z.abs len, len <? 0).

(** The test every accessor starts with, negated: a valid block tagged
    "nk". *)
Definition is_nk (h : hive_h) (node : Z) : bool :=
  IS_VALID_BLOCK h node && BLOCK_ID_EQ h node "n" "k".

(** Modelled from the spec: the case folding behind STRCASEEQ, on ASCII
    (key names are "treated as ASCII"). *)
Definition c_tolower (c : Z) : Z :=
  if (65 <=? c) && (c <=? 90) then c + 32 else c.

(** Modelled from the spec: the macro STRCASEEQ of hivex-internal.h, the
    "case-insensitive" comparison of two nul-terminated strings.  The end of
    a buffer reads as the terminator. *)

Fixpoint STRCASEEQ (a b : list Z) : bool :=
  match a, b with
  | [], [] => true
  | [], y :: _ => c_tolower y =? 0
  | x :: _, [] => c_tolower x =? 0
  | x :: a', y :: b' =>
      if c_tolower x =? c_tolower y
      then (if x =? 0 then true else STRCASEEQ a' b')
      else false
  end.

(** The bytes of a string literal. *)
Definition c_string (s : string) : list Z :=
  map (fun c => Z.of_nat (nat_of_ascii c)) (list_ascii_of_string s).

(** ** Node accessors *)

Section Node.

Variable K : hivex_internal.
Variable malloc_ok : Z -> bool.

Definition hivex_root (h : hive_h) : result Z :=
  let ret := rootoffs h in
  if negb (IS_VALID_BLOCK h ret) then Err HIVEX_NO_KEY no_root_key
  else Ok ret.

Definition hivex_node_struct_length (h : hive_h) (node : Z) : result Z :=
  if negb (IS_VALID_BLOCK h node) || negb (BLOCK_ID_EQ h node "n" "k")
  then Err EINVAL not_an_nk_block
  else
    let name_len := le16toh h (node + nk_name_len K) in
    (* -1 to avoid double-counting the first name character *)
    let ret := to_size_t (name_len + sizeof_nk_record K - 1) in
    let seg_len := fst (block_len h node) in
    if ret >? seg_len then Err EFAULT (node_name_too_long name_len seg_len)
    else Ok ret.

(** [memcpy (ret, nk->name, len)] *)
Fixpoint memcpy (h : hive_h) (src : Z) (len : nat) : list Z :=
  match len with
  | O => []
  | S len' => byte_at h src :: memcpy h (src + 1) len'
  end.

(** The buffer returned holds the [len] name bytes and the terminator. *)
Definition hivex_node_name (h : hive_h) (node : Z) : result (list Z) :=
  if negb (IS_VALID_BLOCK h node) || negb (BLOCK_ID_EQ h node "n" "k")
  then Err EINVAL not_an_nk_block
  else
    let len := le16toh h (node + nk_name_len K) in
    let seg_len := fst (block_len h node) in
    if to_size_t (sizeof_nk_record K + len - 1) >? seg_len
    then Err EFAULT (node_name_too_long len seg_len)
    else if negb (malloc_ok (len + 1)) then Err ENOMEM allocation_failed
    else Ok (memcpy h (node + nk_name K) (Z.to_nat len) ++ [0]).

Definition timestamp_check (node : Z) (timestamp : Z) : result Z :=
  if timestamp <? 0 then Err EINVAL (negative_time node timestamp)
  else Ok timestamp.

Definition hivex_last_modified (h : hive_h) : result Z :=
  timestamp_check 0 (last_modified h).

Definition hivex_node_timestamp (h : hive_h) (node : Z) : result Z :=
  if negb (IS_VALID_BLOCK h node) || negb (BLOCK_ID_EQ h node "n" "k")
  then Err EINVAL not_an_nk_block
  else
    let ret := to_int64 (le64toh h (node + nk_timestamp K)) in
    timestamp_check node ret.

Definition hivex_node_parent (h : hive_h) (node : Z) : result Z :=
  if negb (IS_VALID_BLOCK h node) || negb (BLOCK_ID_EQ h node "n" "k")
  then Err EINVAL not_an_nk_block
  else
    let ret := to_size_t (le32toh h (node + nk_parent K) + 0x1000) in
    if negb (IS_VALID_BLOCK h ret) then Err EFAULT (parent_not_valid ret)
    else Ok ret.

End Node.

(** ** The offset list *)

(** Modelled from the spec: offset-list.c is not among the sources.  The
    "ordered sequence of offsets with an optional maximum-length ceiling"
    of section 3, and the storage reserved for it. *)
Record offset_list : Set := {
  offsets : list Z;
  alloc : Z;
  limit : option Z
}.

(** Modelled from the spec: "create(): empty, unlimited". *)
Definition _hivex_init_offset_list : offset_list :=
  {| offsets := []; alloc := 0; limit := None |}.

(** Modelled from the spec: "set_limit(n)": the ceiling of the list. *)
Definition _hivex_set_offset_list_limit (l : offset_list) (n : Z)
  : offset_list :=
  {| offsets := offsets l; alloc := alloc l; limit := Some n |}.

(** Modelled from the spec: "reserve(n): pre-allocates storage for at least
    n elements; failure is an allocation fault".  An offset is a [size_t],
    of 8 bytes. *)
Definition _hivex_grow_offset_list (malloc_ok : Z -> bool) (l : offset_list)
  (n : Z) : option offset_list :=
  if malloc_ok (8 * n)
  then Some {| offsets := offsets l; alloc := Z.max (alloc l) n;
               limit := limit l |}
  else None.

(** Modelled from the spec: "length() -> size". *)
Definition _hivex_get_offset_list_length (l : offset_list) : Z :=
  Z.of_nat (List.length (offsets l)).

(** Modelled from the spec: the ceiling, when the list has reached it. *)
Definition over_limit (l : offset_list) : option Z :=
  match limit l with
  | Some n => if n <=? _hivex_get_offset_list_length l then Some n else None
  | None => None
  end.

(** Modelled from the spec: "add(offset): appends; order of insertion is
    preserved"; "once set, add beyond n total elements fails with
    ResourceLimitExceeded". *)
Definition _hivex_add_to_offset_list (l : offset_list) (offset : Z)
  : result offset_list :=
  match over_limit l with
  | Some n => Err ERANGE (offset_list_over_limit n)
  | None =>
      Ok {| offsets := offsets l ++ [offset];
            alloc := Z.max (alloc l) (_hivex_get_offset_list_length l + 1);
            limit := limit l |}
  end.

(** Modelled from the spec: "into_owned_array(): finalizes into a
    caller-owned, explicitly-terminated sequence", with "a trailing zero
    sentinel": the terminator the loop of [hivex_node_get_child] stops at.
    The spec gives this operation no failure. *)
Definition _hivex_return_offset_list (l : offset_list) : option (list Z) :=
  Some (offsets l ++ [0]).

(** ** The walker *)

(** The two accumulators [_get_children] receives by pointer.  A failing call
    leaves in them whatever it had added. *)
Record lists : Set := {
  children : offset_list;
  blocks : offset_list
}.

(** Computations over the accumulators.  [None] is a recursion that did not
    finish within its budget of nested calls; an error stops the computation
    and keeps the accumulators as they are. *)
Definition walk (A : Type) : Type := lists -> option (result A * lists).

Definition ret {A} (a : A) : walk A := fun st => Some (Ok a, st).
Definition fail {A} (e : errno) (m : message) : walk A :=
  fun st => Some (Err e m, st).
Definition bind {A B} (c : walk A) (k : A -> walk B) : walk B :=
  fun st =>
    match c st with
    | None => None
    | Some (Ok a, st') => k a st'
    | Some (Err e m, st') => Some (Err e m, st')
    end.
Definition lift {A} (r : result A) : walk A :=
  fun st => Some (r, st).

Declare Scope walk_scope.
Delimit Scope walk_scope with walk.
Notation "c1 ;; c2" := (bind c1 (fun _ => c2))
  (at level 100, c2 at level 200, right associativity) : walk_scope.

Definition add_block (blkoff : Z) : walk unit :=
  fun st =>
    match _hivex_add_to_offset_list (blocks st) blkoff with
    | Ok b => Some (Ok tt, {| children := children st; blocks := b |})
    | Err e m => Some (Err e m, st)
    end.

Definition add_child (subkey : Z) : walk unit :=
  fun st =>
    match _hivex_add_to_offset_list (children st) subkey with
    | Ok c => Some (Ok tt, {| children := c; blocks := blocks st |})
    | Err e m => Some (Err e m, st)
    end.

Section Walker.

Variable K : hivex_internal.
Variable malloc_ok : Z -> bool.

Definition check_child_is_nk_block (h : hive_h) (child : Z) (flags : Z)
  : result unit :=
  (* Bypass the check if flag set. *)
  if negb (Z.land flags (GET_CHILDREN_NO_CHECK_NK K) =? 0) then Ok tt
  else if negb (IS_VALID_BLOCK h child)
  then Err EFAULT (subkey_not_valid child)
  else if negb (BLOCK_ID_EQ h child "n" "k")
  then Err EFAULT (subkey_not_nk child (block_id0 h child) (block_id1 h child))
  else Ok tt.

(** [lf->keys[i].offset], biased. *)
Definition lf_key (h : hive_h) (lf : Z) (i : Z) : Z :=
  to_size_t (le32toh h (lf + 8 + 8 * i) + 0x1000).

(** [ri->offset[i]], biased. *)
Definition ri_offset (h : hive_h) (ri : Z) (i : Z) : Z :=
  to_size_t (le32toh h (ri + 8 + 4 * i) + 0x1000).

(** [for (i = 0; i < nr_subkeys_in_lf; ++i)], with [n] iterations left. *)
Fixpoint lf_loop (h : hive_h) (flags : Z) (lf : Z) (n : nat) (i : Z)
  : walk unit :=
  match n with
  | O => ret tt
  | S n' =>
      let subkey := lf_key h lf i in
      (lift (check_child_is_nk_block h subkey flags) ;;
       add_child subkey ;;
       lf_loop h flags lf n' (i + 1))%walk
  end.

(** [for (i = 0; i < nr_offsets; ++i)], with [n] iterations left; [rec] is
    the recursive call of [_get_children]. *)
Fixpoint ri_loop (rec : Z -> walk unit) (h : hive_h) (ri : Z) (n : nat)
  (i : Z) : walk unit :=
  match n with
  | O => ret tt
  | S n' =>
      let offset := ri_offset h ri i in
      if negb (IS_VALID_BLOCK h offset)
      then fail EFAULT (ri_offset_not_valid offset)
      else (rec offset ;; ri_loop rec h ri n' (i + 1))%walk
  end.

Definition ascii_code (c : ascii) : Z := Z.of_nat (nat_of_ascii c).

(** [_get_children]: [fuel] bounds the depth of nested calls. *)
Fixpoint _get_children (fuel : nat) (h : hive_h) (blkoff : Z) (flags : Z)
  : walk unit :=
  match fuel with
  | O => fun _ => None
  | S fuel' =>
      (* Add this intermediate block. *)
      (add_block blkoff ;;
       let len := fst (block_len h blkoff) in
       let id0 := block_id0 h blkoff in
       let id1 := block_id1 h blkoff in
       if (id0 =? ascii_code "l")
          && ((id1 =? ascii_code "f") || (id1 =? ascii_code "h"))
       then
         let nr_subkeys_in_lf := le16toh h (blkoff + 6) in
         if to_size_t (8 + nr_subkeys_in_lf * 8) >? len
         then fail EFAULT (too_many_subkeys nr_subkeys_in_lf len)
         else lf_loop h flags blkoff (Z.to_nat nr_subkeys_in_lf) 0
       else if (id0 =? ascii_code "r") && (id1 =? ascii_code "i")
       then
         let nr_offsets := le16toh h (blkoff + 6) in
         if to_size_t (8 + nr_offsets * 4) >? len
         then fail EFAULT (too_many_offsets nr_offsets len)
         else ri_loop (fun offset => _get_children fuel' h offset flags)
                h blkoff (Z.to_nat nr_offsets) 0
       else fail ENOTSUP (not_lf_lh_ri blkoff id0 id1))%walk
  end.

(** What a call of [_hivex_get_children] leaves behind: the value returned,
    the error set, the arrays stored through [children_ret] and [blocks_ret]
    ([None] when the pointer was not written), and the accumulators given to
    [_hivex_free_offset_list]. *)
Record get_children_result : Set := {
  return_value : Z;
  error : option (errno * message);
  children_ret : option (list Z);
  blocks_ret : option (list Z);
  freed : option lists
}.

(** The label [error:]. *)
Definition goto_error (e : errno) (m : message) (st : lists)
  (children_ret blocks_ret : option (list Z)) : get_children_result :=
  {| return_value := -1; error := Some (e, m);
     children_ret := children_ret; blocks_ret := blocks_ret;
     freed := Some st |}.

(** The label [out:]. *)
Definition goto_out (st : lists) : get_children_result :=
  let children_ret := _hivex_return_offset_list (children st) in
  let blocks_ret := _hivex_return_offset_list (blocks st) in
  match children_ret, blocks_ret with
  | Some _, Some _ =>
      {| return_value := 0; error := None;
         children_ret := children_ret; blocks_ret := blocks_ret;
         freed := None |}
  | _, _ => goto_error ENOMEM allocation_failed st children_ret blocks_ret
  end.

(** [_hivex_get_children], with the budget [fuel] of nested calls it gives
    to [_get_children].  The first exit precedes the initialisation of the
    lists: nothing is released there. *)
Definition _hivex_get_children_fuel (fuel : nat) (h : hive_h) (node : Z)
  (flags : Z) : option get_children_result :=
  let st0 := {| children := _hivex_init_offset_list;
                blocks := _hivex_init_offset_list |} in
  if negb (IS_VALID_BLOCK h node) || negb (BLOCK_ID_EQ h node "n" "k")
  then Some {| return_value := -1; error := Some (EINVAL, not_an_nk_block);
               children_ret := None; blocks_ret := None; freed := None |}
  else
    let nr_subkeys_in_nk := le32toh h (node + nk_nr_subkeys K) in
    (* Deal with the common "no subkeys" case quickly. *)
    if nr_subkeys_in_nk =? 0 then Some (goto_out st0)
    (* Arbitrarily limit the number of subkeys we will ever deal with. *)
    else if nr_subkeys_in_nk >? HIVEX_MAX_SUBKEYS K
    then Some (goto_error ERANGE (nr_subkeys_over_max nr_subkeys_in_nk) st0
                 None None)
    else
      (* Don't read more child nodes than the declared number of subkeys. *)
      let st1 :=
        {| children :=
             _hivex_set_offset_list_limit (children st0) nr_subkeys_in_nk;
           blocks :=
             _hivex_set_offset_list_limit (blocks st0) (HIVEX_MAX_SUBKEYS K)
        |} in
      (* Preallocate space for the children. *)
      match _hivex_grow_offset_list malloc_ok (children st1)
              nr_subkeys_in_nk with
      | None => Some (goto_error ENOMEM allocation_failed st1 None None)
      | Some grown =>
          let st := {| children := grown; blocks := blocks st1 |} in
          let subkey_lf :=
            to_size_t (le32toh h (node + nk_subkey_lf K) + 0x1000) in
          if negb (IS_VALID_BLOCK h subkey_lf)
          then Some (goto_error EFAULT (subkey_lf_not_valid subkey_lf) st
                       None None)
          else
            match _get_children fuel h subkey_lf flags st with
            | None => None
            | Some (Err e m, st') => Some (goto_error e m st' None None)
            | Some (Ok _, st') =>
                (* Check the number of children we ended up reading matches
                   nr_subkeys_in_nk. *)
                let nr_children :=
                  _hivex_get_offset_list_length (children st') in
                if negb (nr_subkeys_in_nk =? nr_children)
                then Some (goto_error ENOTSUP
                             (nr_subkeys_mismatch nr_subkeys_in_nk
                                nr_children) st' None None)
                else Some (goto_out st')
            end
      end.

End Walker.

(** ** The public entry points built on the walker *)

Section Children.

Variable K : hivex_internal.
Variable malloc_ok : Z -> bool.

(** Every nested call of [_get_children] first records its block, and the
    list of blocks is limited to HIVEX_MAX_SUBKEYS entries: this many nested
    calls are never exhausted ([get_children_budget] below). *)
Definition walk_budget : nat := S (Z.to_nat (HIVEX_MAX_SUBKEYS K)).

(** [_hivex_get_children]: the walker runs within [walk_budget]. *)
Definition _hivex_get_children (h : hive_h) (node : Z) (flags : Z)
  : get_children_result :=
  match _hivex_get_children_fuel K malloc_ok walk_budget h node flags with
  | Some r => r
  | None =>
      (* not reached: get_children_budget *)
      goto_error ERANGE (offset_list_over_limit (HIVEX_MAX_SUBKEYS K))
        {| children := _hivex_init_offset_list;
           blocks := _hivex_init_offset_list |} None None
  end.

Definition hivex_node_children (h : hive_h) (node : Z) : option (list Z) :=
  let r := _hivex_get_children h node 0 in
  if return_value r =? -1 then None
  else (* free (blocks); *) children_ret r.

(** [for (i = 0; children[i] != 0; ++i)] over the returned array, which
    ends with a zero: the end of the list is not reached. *)
Fixpoint get_child_loop (h : hive_h) (children : list Z) (nname : list Z)
  : Z :=
  match children with
  | [] => 0
  | child :: rest =>
      if child =? 0 then 0
      else
        match hivex_node_name K malloc_ok h child with
        | Err _ _ => 0
        | Ok name =>
            if STRCASEEQ name nname then child
            else get_child_loop h rest nname
        end
  end.

(** [ret] is 0 unless the loop finds a match; both exits go through the
    label [error:], which only frees. *)
Definition hivex_node_get_child (h : hive_h) (node : Z) (nname : list Z)
  : Z :=
  match hivex_node_children h node with
  | None => 0
  | Some children => get_child_loop h children nname
  end.

End Children.

(** The entries a scan of a zero-terminated array visits. *)
Fixpoint until_zero (a : list Z) : list Z :=
  match a with
  | [] => []
  | x :: a' => if x =? 0 then [] else x :: until_zero a'
  end.

(** ** The walk as the specification describes it *)

(** The children of a leaf block, in the order of its entries. *)
Definition leaf_children (h : hive_h) (lf : Z) : list Z :=
  map (fun i => lf_key h lf (Z.of_nat i))
      (seq 0 (Z.to_nat (le16toh h (lf + 6)))).

(** The blocks an index block points to, in the order of its entries. *)
Definition index_blocks (h : hive_h) (ri : Z) : list Z :=
  map (fun i => ri_offset h ri (Z.of_nat i))
      (seq 0 (Z.to_nat (le16toh h (ri + 6)))).

(** A well-formed leaf: tagged "lf" or "lh", its entries within the block,
    each entry accepted by [check_child_is_nk_block]. *)
Definition leaf_ok (K : hivex_internal) (h : hive_h) (flags : Z) (lf : Z)
  : bool :=
  (block_id0 h lf =? ascii_code "l")
  && ((block_id1 h lf =? ascii_code "f") || (block_id1 h lf =? ascii_code "h"))
  && (to_size_t (8 + le16toh h (lf + 6) * 8) <=? fst (block_len h lf))
  && forallb
       (fun c =>
          match check_child_is_nk_block K h c flags with
          | Ok _ => true
          | Err _ _ => false
          end)
       (leaf_children h lf).

(** A well-formed two-level index: tagged "ri", its entries within the
    block, each entry a valid block that is a well-formed leaf. *)
Definition index_ok (K : hivex_internal) (h : hive_h) (flags : Z) (ri : Z)
  : bool :=
  (block_id0 h ri =? ascii_code "r")
  && (block_id1 h ri =? ascii_code "i")
  && (to_size_t (8 + le16toh h (ri + 6) * 4) <=? fst (block_len h ri))
  && forallb (fun b => IS_VALID_BLOCK h b && leaf_ok K h flags b)
       (index_blocks h ri).

(** ** Hives for the examples *)

Module Fixture.

Definition le16 (v : Z) : list Z := [v mod 256; (v / 256) mod 256].
Definition le32 (v : Z) : list Z := le16 (v mod 2 ^ 16) ++ le16 (v / 2 ^ 16).
Definition le64 (v : Z) : list Z := le32 (v mod 2 ^ 32) ++ le32 (v / 2 ^ 32).

(** Every block of the examples is a used block of 128 bytes. *)
Definition cell (l : list Z) : list Z :=
  le32 (2 ^ 32 - 128) ++ l ++ repeat 0 (128 - 4 - List.length l)%nat.

(** The stored (unbiased) offset of the [i]-th block and its handle. *)
Definition rel (i : Z) : Z := 128 * i.
Definition at_ (i : Z) : Z := 0x1000 + rel i.

Definition nk (timestamp parent nr_subkeys subkey_lf name_len : Z)
  (name : string) : list Z :=
  cell (c_string "nk" ++ le16 0x20 ++ le64 timestamp ++ le32 0
        ++ le32 parent ++ le32 nr_subkeys ++ le32 0 ++ le32 subkey_lf
        ++ repeat 0 40%nat ++ le16 name_len ++ le16 0 ++ c_string name).

Definition key (parent nr_subkeys subkey_lf : Z) (name : string) : list Z :=
  nk 0 parent nr_subkeys subkey_lf (Z.of_nat (String.length name)) name.

Definition lf (tag : string) (keys : list Z) : list Z :=
  cell (c_string tag ++ le16 (Z.of_nat (List.length keys))
        ++ flat_map (fun k => le32 k ++ le32 0) keys).

Definition ri (offs : list Z) : list Z :=
  cell (c_string "ri" ++ le16 (Z.of_nat (List.length offs))
        ++ flat_map le32 offs).

Definition image (cells : list (list Z)) (modified : Z) : hive_h :=
  {| size := at_ (Z.of_nat (List.length cells));
     addr := repeat 0 4096%nat ++ List.concat cells;
     bitmap := map (fun i => at_ (Z.of_nat i)) (seq 0 (List.length cells));
     rootoffs := at_ 0;
     last_modified := modified |}.

(** Block by block:
    - 0: the root, three subkeys behind the "ri" block 4;
    - 1, 2, 3: its subkeys, without subkeys and with a dangling subkey
      pointer;
    - 4, 5, 6: the "ri" block over the "lf" leaf 5 and the "lh" leaf 6;
    - 7, 8: a key listing the same three keys through the flat "lf" leaf 8;
    - 9: a key declaring four subkeys over that leaf of three;
    - 10, 11: an "ri" block pointing to itself, and a key over it;
    - 12: a key declaring one subkey over the leaf of three;
    - 13: a key whose name length goes beyond its block;
    - 14: a key with the sign bit of its timestamp set;
    - 15, 16: a key over a leaf listing block 1 and block 13;
    - 17, 18: a key over a block tagged "li". *)
Definition hive : hive_h :=
  image
    [ key (rel 0) 3 (rel 4) "ROOT";
      key (rel 0) 0 (2 ^ 32 - 1) "Software";
      key (rel 0) 0 (2 ^ 32 - 1) "System";
      key (rel 0) 0 (2 ^ 32 - 1) "Sam";
      ri [rel 5; rel 6];
      lf "lf" [rel 1; rel 2];
      lf "lh" [rel 3];
      key (rel 0) 3 (rel 8) "Flat";
      lf "lf" [rel 1; rel 2; rel 3];
      key (rel 0) 4 (rel 8) "Short";
      ri [rel 10];
      key (rel 0) 1 (rel 10) "Loop";
      key (rel 0) 1 (rel 8) "Over";
      nk 0 (rel 0) 0 (2 ^ 32 - 1) 100 "Long";
      nk (2 ^ 64 - 1) (rel 0) 0 0 3 "Old";
      key (rel 0) 2 (rel 16) "Mixed";
      lf "lf" [rel 1; rel 13];
      key (rel 0) 1 (rel 18) "Li";
      lf "li" [rel 1] ]
    0.

(** An allocator that grants every request. *)
Definition granted : Z -> bool := fun _ => true.

(** The same constants with a ceiling of two, to reach the ceiling on a
    small hive. *)
Definition ntreg2 : hivex_internal := {|
  HIVEX_MAX_SUBKEYS := 2;
  GET_CHILDREN_NO_CHECK_NK := 1;
  sizeof_nk_record := 81;
  nk_timestamp := 8;
  nk_parent := 20;
  nk_nr_subkeys := 24;
  nk_subkey_lf := 32;
  nk_name_len := 76;
  nk_name := 80
|}.

End Fixture.

(** A hive with an index of indexes.  Block by block:
    - 0: a key with three subkeys behind the "ri" block 1;
    - 1: an "ri" block over the "ri" block 2 and the leaf 5;
    - 2: an "ri" block over the leaves 3 and 4;
    - 3, 4, 5: an "lf", an "lh" and an "lf" leaf of one key each;
    - 6, 7, 8: the three keys, "Alpha", "beta" and "Gamma";
    - 9, 10: a key with two subkeys over a leaf that lists a key and then
      the leaf 3, which is not a key;
    - 11, 12: a key over a leaf whose count of 200 entries goes beyond its
      block;
    - 13, 14: a key over an "ri" block whose second entry points beyond
      the hive. *)
Module Nested.

Import Fixture.

Definition hive : hive_h :=
  image
    [ key (rel 0) 3 (rel 1) "Top";
      ri [rel 2; rel 5];
      ri [rel 3; rel 4];
      lf "lf" [rel 6];
      lf "lh" [rel 7];
      lf "lf" [rel 8];
      key (rel 0) 0 (2 ^ 32 - 1) "Alpha";
      key (rel 0) 0 (2 ^ 32 - 1) "beta";
      key (rel 0) 0 (2 ^ 32 - 1) "Gamma";
      key (rel 0) 2 (rel 10) "Bad";
      lf "lf" [rel 6; rel 3];
      key (rel 0) 200 (rel 12) "Big";
      cell (c_string "lf" ++ le16 200);
      key (rel 0) 2 (rel 14) "Dangling";
      ri [rel 3; rel 40] ]
    0.

End Nested.

(** ** Notions used by the statements *)

(** The accumulators [_hivex_get_children] hands to [_get_children] for a
    key that declares [nr] subkeys. *)
Definition walker_lists (K : hivex_internal) (nr : Z) : lists :=
  {| children := {| offsets := []; alloc := Z.max 0 nr; limit := Some nr |};
     blocks := {| offsets := []; alloc := 0;
                  limit := Some (HIVEX_MAX_SUBKEYS K) |} |}.

(** What the walker guarantees of an offset it adds to the children: it is
    biased, and an "nk" block unless the check is bypassed. *)
Definition child_inv (K : hivex_internal) (h : hive_h) (flags : Z) (c : Z)
  : Prop :=
  0x1000 <= c /\
  (Z.land flags (GET_CHILDREN_NO_CHECK_NK K) = 0 -> is_nk h c = true).

(** [grows P st st']: [st'] is [st] with offsets appended, the children
    among them satisfying [P]; limits are kept and stay respected. *)
Record grows (P : Z -> Prop) (st st' : lists) : Prop := {
  grows_children_limit : limit (children st') = limit (children st);
  grows_blocks_limit : limit (blocks st') = limit (blocks st);
  grows_children :
    exists cs, offsets (children st') = offsets (children st) ++ cs
               /\ Forall P cs;
  grows_blocks :
    exists bs, offsets (blocks st') = offsets (blocks st) ++ bs;
  grows_children_bound :
    forall n, limit (children st) = Some n ->
      _hivex_get_offset_list_length (children st) <= n ->
      _hivex_get_offset_list_length (children st') <= n;
  grows_blocks_bound :
    forall n, limit (blocks st) = Some n ->
      _hivex_get_offset_list_length (blocks st) <= n ->
      _hivex_get_offset_list_length (blocks st') <= n
}.

(** Every outcome of the computation [c] is related to its start by [R]. *)
Definition preserves (R : lists -> lists -> Prop) {A} (c : walk A) : Prop :=
  forall st r st', c st = Some (r, st') -> R st st'.

(** A child the scan of [hivex_node_get_child] passes over: its name decodes
    and differs from [nname]. *)
Definition passed_over (K : hivex_internal) (malloc_ok : Z -> bool)
  (h : hive_h) (nname : list Z) (c : Z) : Prop :=
  exists name, hivex_node_name K malloc_ok h c = Ok name
               /\ STRCASEEQ name nname = false.

(** The parent offset stored in a key record, biased. *)
Definition stored_parent (K : hivex_internal) (h : hive_h) (node : Z) : Z :=
  to_size_t (le32toh h (node + nk_parent K) + 0x1000).

(** The exits of [_hivex_get_children], one constructor for each path
    through the function. *)
Inductive get_children_exit (K : hivex_internal) (malloc_ok : Z -> bool)
  (h : hive_h) (node : Z) (flags : Z) : get_children_result -> Prop :=
| exit_not_nk :
    is_nk h node = false ->
    get_children_exit K malloc_ok h node flags
      {| return_value := -1; error := Some (EINVAL, not_an_nk_block);
         children_ret := None; blocks_ret := None; freed := None |}
| exit_no_subkeys :
    is_nk h node = true ->
    le32toh h (node + nk_nr_subkeys K) = 0 ->
    get_children_exit K malloc_ok h node flags
      {| return_value := 0; error := None;
         children_ret := Some [0]; blocks_ret := Some [0]; freed := None |}
| exit_over_max :
    is_nk h node = true ->
    le32toh h (node + nk_nr_subkeys K) <> 0 ->
    HIVEX_MAX_SUBKEYS K < le32toh h (node + nk_nr_subkeys K) ->
    get_children_exit K malloc_ok h node flags
      (goto_error ERANGE
         (nr_subkeys_over_max (le32toh h (node + nk_nr_subkeys K)))
         {| children := _hivex_init_offset_list;
            blocks := _hivex_init_offset_list |} None None)
| exit_no_memory :
    is_nk h node = true ->
    0 < le32toh h (node + nk_nr_subkeys K) <= HIVEX_MAX_SUBKEYS K ->
    malloc_ok (8 * le32toh h (node + nk_nr_subkeys K)) = false ->
    get_children_exit K malloc_ok h node flags
      (goto_error ENOMEM allocation_failed
         {| children :=
              {| offsets := []; alloc := 0;
                 limit := Some (le32toh h (node + nk_nr_subkeys K)) |};
            blocks :=
              {| offsets := []; alloc := 0;
                 limit := Some (HIVEX_MAX_SUBKEYS K) |} |}
         None None)
| exit_subkey_lf :
    is_nk h node = true ->
    0 < le32toh h (node + nk_nr_subkeys K) <= HIVEX_MAX_SUBKEYS K ->
    malloc_ok (8 * le32toh h (node + nk_nr_subkeys K)) = true ->
    IS_VALID_BLOCK h
      (to_size_t (le32toh h (node + nk_subkey_lf K) + 0x1000)) = false ->
    get_children_exit K malloc_ok h node flags
      (goto_error EFAULT
         (subkey_lf_not_valid
            (to_size_t (le32toh h (node + nk_subkey_lf K) + 0x1000)))
         (walker_lists K (le32toh h (node + nk_nr_subkeys K))) None None)
| exit_walk_failed e m st' :
    is_nk h node = true ->
    0 < le32toh h (node + nk_nr_subkeys K) <= HIVEX_MAX_SUBKEYS K ->
    malloc_ok (8 * le32toh h (node + nk_nr_subkeys K)) = true ->
    IS_VALID_BLOCK h
      (to_size_t (le32toh h (node + nk_subkey_lf K) + 0x1000)) = true ->
    _get_children K (walk_budget K) h
      (to_size_t (le32toh h (node + nk_subkey_lf K) + 0x1000)) flags
      (walker_lists K (le32toh h (node + nk_nr_subkeys K)))
    = Some (Err e m, st') ->
    get_children_exit K malloc_ok h node flags (goto_error e m st' None None)
| exit_mismatch st' :
    is_nk h node = true ->
    0 < le32toh h (node + nk_nr_subkeys K) <= HIVEX_MAX_SUBKEYS K ->
    malloc_ok (8 * le32toh h (node + nk_nr_subkeys K)) = true ->
    IS_VALID_BLOCK h
      (to_size_t (le32toh h (node + nk_subkey_lf K) + 0x1000)) = true ->
    _get_children K (walk_budget K) h
      (to_size_t (le32toh h (node + nk_subkey_lf K) + 0x1000)) flags
      (walker_lists K (le32toh h (node + nk_nr_subkeys K)))
    = Some (Ok tt, st') ->
    le32toh h (node + nk_nr_subkeys K)
    <> _hivex_get_offset_list_length (children st') ->
    get_children_exit K malloc_ok h node flags
      (goto_error ENOTSUP
         (nr_subkeys_mismatch (le32toh h (node + nk_nr_subkeys K))
            (_hivex_get_offset_list_length (children st')))
         st' None None)
| exit_children st' :
    is_nk h node = true ->
    0 < le32toh h (node + nk_nr_subkeys K) <= HIVEX_MAX_SUBKEYS K ->
    malloc_ok (8 * le32toh h (node + nk_nr_subkeys K)) = true ->
    IS_VALID_BLOCK h
      (to_size_t (le32toh h (node + nk_subkey_lf K) + 0x1000)) = true ->
    _get_children K (walk_budget K) h
      (to_size_t (le32toh h (node + nk_subkey_lf K) + 0x1000)) flags
      (walker_lists K (le32toh h (node + nk_nr_subkeys K)))
    = Some (Ok tt, st') ->
    le32toh h (node + nk_nr_subkeys K)
    = _hivex_get_offset_list_length (children st') ->
    get_children_exit K malloc_ok h node flags
      {| return_value := 0; error := None;
         children_ret := Some (offsets (children st') ++ [0]);
         blocks_ret := Some (offsets (blocks st') ++ [0]);
         freed := None |}.

(** ** Index trees of any depth *)

(** The tests of [_get_children] on the tag of a block. *)
Definition is_leaf_tag (h : hive_h) (b : Z) : bool :=
  (block_id0 h b =? ascii_code "l")
  && ((block_id1 h b =? ascii_code "f") || (block_id1 h b =? ascii_code "h")).

Definition is_index_tag (h : hive_h) (b : Z) : bool :=
  (block_id0 h b =? ascii_code "r") && (block_id1 h b =? ascii_code "i").

(** A valid block with one of the three tags the walker goes through. *)
Definition indirection_block (h : hive_h) (b : Z) : bool :=
  IS_VALID_BLOCK h b && (is_leaf_tag h b || is_index_tag h b).

(** A well-formed structure of nesting depth below [d]: a well-formed leaf,
    or an "ri" block whose entries fit the block and are valid blocks
    heading well-formed structures of depth below [d - 1]. *)
Fixpoint tree_ok (K : hivex_internal) (h : hive_h) (flags : Z) (d : nat)
  (blk : Z) : bool :=
  match d with
  | O => false
  | S d' =>
      if is_leaf_tag h blk then leaf_ok K h flags blk
      else
        is_index_tag h blk
        && (to_size_t (8 + le16toh h (blk + 6) * 4) <=? fst (block_len h blk))
        && forallb (fun b => IS_VALID_BLOCK h b && tree_ok K h flags d' b)
             (index_blocks h blk)
  end.

(** The keys under such a structure, leaf after leaf. *)
Fixpoint tree_children (h : hive_h) (d : nat) (blk : Z) : list Z :=
  match d with
  | O => []
  | S d' =>
      if is_leaf_tag h blk then leaf_children h blk
      else flat_map (tree_children h d') (index_blocks h blk)
  end.

(** Its blocks, each index before the blocks it points to. *)
Fixpoint tree_blocks (h : hive_h) (d : nat) (blk : Z) : list Z :=
  match d with
  | O => []
  | S d' =>
      blk :: (if is_leaf_tag h blk then []
              else flat_map (tree_blocks h d') (index_blocks h blk))
  end.

(** [reaches h b x]: the walker, visiting the block [b], gets to visit the
    block [x]: [x] is an entry of [b], which is not a leaf, or an entry of a
    block reached from [b]. *)
Inductive reaches (h : hive_h) : Z -> Z -> Prop :=
| reaches_entry b x :
    is_leaf_tag h b = false -> In x (index_blocks h b) -> reaches h b x
| reaches_further b y x :
    reaches h b y -> reaches h y x -> reaches h b x.

(** [n] more offsets fit the list. *)
Definition fits (l : offset_list) (n : nat) : Prop :=
  forall N, limit l = Some N ->
    _hivex_get_offset_list_length l + Z.of_nat n <= N.

(** [st'] is [st] with the children [cs] and the blocks [bs] appended. *)
Definition appended (st st' : lists) (cs bs : list Z) : Prop :=
  offsets (children st') = offsets (children st) ++ cs
  /\ offsets (blocks st') = offsets (blocks st) ++ bs
  /\ limit (children st') = limit (children st)
  /\ limit (blocks st') = limit (blocks st).

(** The entries of a leaf before the first one that
    [check_child_is_nk_block] refuses, and the refusal. *)
Fixpoint first_refused (K : hivex_internal) (h : hive_h) (flags : Z)
  (cs : list Z) : list Z * option (errno * message) :=
  match cs with
  | [] => ([], None)
  | c :: cs' =>
      match check_child_is_nk_block K h c flags with
      | Err e m => ([], Some (e, m))
      | Ok _ =>
          let (before, refusal) := first_refused K h flags cs' in
          (c :: before, refusal)
      end
  end.

(** * Properties *)

(** ** Bytes and integers *)

Lemma byte_at_range h off : 0 <= byte_at h off < 256.
Proof.
  unfold byte_at. destruct (off <? 0); [lia|].
  apply Z.mod_pos_bound. lia.
Qed.

Lemma le16toh_range h off : 0 <= le16toh h off < 2 ^ 16.
Proof.
  unfold le16toh.
  pose proof (byte_at_range h off). pose proof (byte_at_range h (off + 1)).
  lia.
Qed.

Lemma le32toh_range h off : 0 <= le32toh h off < 2 ^ 32.
Proof.
  unfold le32toh.
  pose proof (le16toh_range h off). pose proof (le16toh_range h (off + 2)).
  lia.
Qed.

Lemma to_size_t_small z : 0 <= z < 2 ^ 64 -> to_size_t z = z.
Proof. intros; unfold to_size_t; apply Z.mod_small; lia. Qed.

Lemma biased_offset h off :
  to_size_t (le32toh h off + 0x1000) = le32toh h off + 0x1000.
Proof.
  pose proof (le32toh_range h off). apply to_size_t_small. lia.
Qed.

Lemma lf_key_biased h lf i : 0x1000 <= lf_key h lf i.
Proof.
  unfold lf_key. rewrite biased_offset.
  pose proof (le32toh_range h (lf + 8 + 8 * i)). lia.
Qed.

Lemma is_nk_split h node :
  is_nk h node = true ->
  IS_VALID_BLOCK h node = true /\ BLOCK_ID_EQ h node "n" "k" = true.
Proof. unfold is_nk; intros H; apply andb_true_iff in H; exact H. Qed.

Lemma is_nk_guard h node :
  is_nk h node = true ->
  negb (IS_VALID_BLOCK h node) || negb (BLOCK_ID_EQ h node "n" "k") = false.
Proof. intros H; apply is_nk_split in H as [-> ->]; reflexivity. Qed.

Lemma not_nk_guard h node :
  is_nk h node = false ->
  negb (IS_VALID_BLOCK h node) || negb (BLOCK_ID_EQ h node "n" "k") = true.
Proof.
  unfold is_nk; intros H.
  destruct (IS_VALID_BLOCK h node), (BLOCK_ID_EQ h node "n" "k");
    simpl in *; congruence.
Qed.

(** ** The offset list *)

Lemma add_ok l x l' :
  _hivex_add_to_offset_list l x = Ok l' ->
  offsets l' = offsets l ++ [x] /\ limit l' = limit l /\
  (forall n, limit l = Some n -> _hivex_get_offset_list_length l < n).
Proof.
  unfold _hivex_add_to_offset_list, over_limit.
  destruct (limit l) as [n|] eqn:E.
  - destruct (n <=? _hivex_get_offset_list_length l) eqn:L; [discriminate|].
    intros [= <-]; simpl. repeat split; auto.
    intros ? [= <-]. lia.
  - intros [= <-]; simpl. repeat split; auto. discriminate.
Qed.

Lemma add_err l x e m :
  _hivex_add_to_offset_list l x = Err e m ->
  exists n, limit l = Some n /\ n <= _hivex_get_offset_list_length l
            /\ e = ERANGE /\ m = offset_list_over_limit n.
Proof.
  unfold _hivex_add_to_offset_list, over_limit.
  destruct (limit l) as [n|] eqn:E; [|discriminate].
  destruct (n <=? _hivex_get_offset_list_length l) eqn:L; [|discriminate].
  intros [= <- <-]. exists n. repeat split; auto. lia.
Qed.

Lemma add_full l x n :
  limit l = Some n -> n <= _hivex_get_offset_list_length l ->
  _hivex_add_to_offset_list l x = Err ERANGE (offset_list_over_limit n).
Proof.
  intros E L. unfold _hivex_add_to_offset_list, over_limit. rewrite E.
  destruct (n <=? _hivex_get_offset_list_length l) eqn:T; [reflexivity|lia].
Qed.

Lemma add_room l x n :
  limit l = Some n -> _hivex_get_offset_list_length l < n ->
  exists l', _hivex_add_to_offset_list l x = Ok l'
             /\ offsets l' = offsets l ++ [x] /\ limit l' = limit l.
Proof.
  intros E L. unfold _hivex_add_to_offset_list, over_limit. rewrite E.
  destruct (n <=? _hivex_get_offset_list_length l) eqn:T; [lia|].
  eexists; split; [reflexivity|]. simpl; auto.
Qed.

Lemma length_app_one l (x : Z) :
  Z.of_nat (List.length (l ++ [x])) = Z.of_nat (List.length l) + 1.
Proof. rewrite length_app; simpl; lia. Qed.

(** ** The walker keeps its accumulators growing within their limits *)

Section Grows.

Variable P : Z -> Prop.

Lemma grows_refl st : grows P st st.
Proof.
  constructor; auto.
  - exists []; rewrite app_nil_r; auto.
  - exists []; rewrite app_nil_r; auto.
Qed.

Lemma grows_trans st1 st2 st3 :
  grows P st1 st2 -> grows P st2 st3 -> grows P st1 st3.
Proof.
  intros [A1 B1 [cs1 [C1 F1]] [bs1 D1] E1 G1] [A2 B2 [cs2 [C2 F2]] [bs2 D2] E2
      G2].
  constructor.
  - congruence.
  - congruence.
  - exists (cs1 ++ cs2). rewrite C2, C1, app_assoc. split; auto.
    apply Forall_app; auto.
  - exists (bs1 ++ bs2). rewrite D2, D1, app_assoc. reflexivity.
  - intros n L Hn. apply E2; [congruence|]. apply E1; auto.
  - intros n L Hn. apply G2; [congruence|]. apply G1; auto.
Qed.

Lemma preserves_ret {A} (a : A) : preserves (grows P) (ret a).
Proof. intros st r st' [= <- <-]. apply grows_refl. Qed.

Lemma preserves_fail {A} e m : preserves (grows P) (@fail A e m).
Proof. intros st r st' [= <- <-]. apply grows_refl. Qed.

Lemma preserves_lift {A} (x : result A) : preserves (grows P) (lift x).
Proof. intros st r st' [= <- <-]. apply grows_refl. Qed.

Lemma preserves_bind {A B} (c : walk A) (k : A -> walk B) :
  preserves (grows P) c -> (forall a, preserves (grows P) (k a)) ->
  preserves (grows P) (bind c k).
Proof.
  intros Hc Hk st r st'. unfold bind.
  destruct (c st) as [[[a|e m] st1]|] eqn:E; [| |discriminate].
  - intros H. eapply grows_trans; [eapply Hc; eauto|eapply Hk; eauto].
  - intros [= <- <-]. eapply Hc; eauto.
Qed.

Lemma preserves_add_block blkoff : preserves (grows P) (add_block blkoff).
Proof.
  intros st r st'. unfold add_block.
  destruct (_hivex_add_to_offset_list (blocks st) blkoff) as [b|e m] eqn:E.
  - intros [= <- <-]. apply add_ok in E as (O & L & R).
    constructor; simpl; auto.
    + exists []; rewrite app_nil_r; auto.
    + exists [blkoff]; auto.
    + intros n Hn _. unfold _hivex_get_offset_list_length. rewrite O.
      rewrite length_app_one. specialize (R n Hn).
      unfold _hivex_get_offset_list_length in R. lia.
  - intros [= <- <-]. apply grows_refl.
Qed.

Lemma preserves_add_child subkey :
  P subkey -> preserves (grows P) (add_child subkey).
Proof.
  intros HP st r st'. unfold add_child.
  destruct (_hivex_add_to_offset_list (children st) subkey) as [c|e m] eqn:E.
  - intros [= <- <-]. apply add_ok in E as (O & L & R).
    constructor; simpl; auto.
    + exists [subkey]; auto.
    + exists []; rewrite app_nil_r; auto.
    + intros n Hn _. unfold _hivex_get_offset_list_length. rewrite O.
      rewrite length_app_one. specialize (R n Hn).
      unfold _hivex_get_offset_list_length in R. lia.
  - intros [= <- <-]. apply grows_refl.
Qed.

End Grows.

(** ** The walker: invariants, termination *)

Section WalkerFacts.

Variable K : hivex_internal.
Variable h : hive_h.
Variable flags : Z.

Lemma bind_lift_ok {A B} (a : A) (k : A -> walk B) st :
  bind (lift (Ok a)) k st = k a st.
Proof. reflexivity. Qed.

Lemma bind_lift_err {A B} e m (k : A -> walk B) st :
  bind (lift (Err e m)) k st = Some (Err e m, st).
Proof. reflexivity. Qed.

Lemma check_child_inv c u :
  check_child_is_nk_block K h c flags = Ok u ->
  Z.land flags (GET_CHILDREN_NO_CHECK_NK K) = 0 -> is_nk h c = true.
Proof.
  unfold check_child_is_nk_block, is_nk. intros H Z0.
  rewrite Z0 in H; simpl in H.
  destruct (IS_VALID_BLOCK h c); simpl in *; [|discriminate].
  destruct (BLOCK_ID_EQ h c "n" "k"); simpl in *; [reflexivity|discriminate].
Qed.

Lemma preserves_lf_loop lf n : forall i,
  preserves (grows (child_inv K h flags)) (lf_loop K h flags lf n i).
Proof.
  induction n as [|n IH]; intros i; simpl.
  - apply preserves_ret.
  - intros st r st'.
    destruct (check_child_is_nk_block K h (lf_key h lf i) flags) as [u|e m]
      eqn:E.
    + rewrite bind_lift_ok.
      apply (preserves_bind (child_inv K h flags)
               (add_child (lf_key h lf i))
               (fun _ => lf_loop K h flags lf n (i + 1))).
      * apply preserves_add_child. split.
        -- apply lf_key_biased.
        -- eapply check_child_inv; eauto.
      * intros _. apply IH.
    + rewrite bind_lift_err. intros [= <- <-]. apply grows_refl.
Qed.

Lemma preserves_ri_loop P (rec : Z -> walk unit) ri :
  (forall off, preserves (grows P) (rec off)) ->
  forall n i, preserves (grows P) (ri_loop rec h ri n i).
Proof.
  intros Hrec. induction n as [|n IH]; intros i; simpl.
  - apply preserves_ret.
  - destruct (negb (IS_VALID_BLOCK h (ri_offset h ri i))).
    + apply preserves_fail.
    + apply preserves_bind; auto.
Qed.

Lemma get_children_step fuel blkoff :
  _get_children K (S fuel) h blkoff flags
  = (add_block blkoff ;;
     if (block_id0 h blkoff =? ascii_code "l")
        && ((block_id1 h blkoff =? ascii_code "f")
            || (block_id1 h blkoff =? ascii_code "h"))
     then
       if to_size_t (8 + le16toh h (blkoff + 6) * 8)
          >? fst (block_len h blkoff)
       then fail EFAULT
              (too_many_subkeys (le16toh h (blkoff + 6))
                 (fst (block_len h blkoff)))
       else lf_loop K h flags blkoff (Z.to_nat (le16toh h (blkoff + 6))) 0
     else if (block_id0 h blkoff =? ascii_code "r")
             && (block_id1 h blkoff =? ascii_code "i")
     then
       if to_size_t (8 + le16toh h (blkoff + 6) * 4)
          >? fst (block_len h blkoff)
       then fail EFAULT
              (too_many_offsets (le16toh h (blkoff + 6))
                 (fst (block_len h blkoff)))
       else ri_loop (fun offset => _get_children K fuel h offset flags)
              h blkoff (Z.to_nat (le16toh h (blkoff + 6))) 0
     else fail ENOTSUP
            (not_lf_lh_ri blkoff (block_id0 h blkoff)
               (block_id1 h blkoff)))%walk.
Proof. reflexivity. Qed.

Lemma preserves_get_children fuel : forall blkoff,
  preserves (grows (child_inv K h flags))
    (_get_children K fuel h blkoff flags).
Proof.
  induction fuel as [|fuel IH]; intros blkoff.
  - intros st r st'; discriminate.
  - rewrite get_children_step.
    apply preserves_bind; [apply preserves_add_block|]. intros _.
    destruct ((block_id0 h blkoff =? ascii_code "l")
              && ((block_id1 h blkoff =? ascii_code "f")
                  || (block_id1 h blkoff =? ascii_code "h"))).
    + destruct (to_size_t (8 + le16toh h (blkoff + 6) * 8)
                >? fst (block_len h blkoff)).
      * apply preserves_fail.
      * apply preserves_lf_loop.
    + destruct ((block_id0 h blkoff =? ascii_code "r")
                && (block_id1 h blkoff =? ascii_code "i")).
      * destruct (to_size_t (8 + le16toh h (blkoff + 6) * 4)
                  >? fst (block_len h blkoff)).
        -- apply preserves_fail.
        -- apply preserves_ri_loop. intros off. apply IH.
      * apply preserves_fail.
Qed.

(** The loop over a leaf always finishes. *)
Lemma lf_loop_finishes lf n : forall i st,
  lf_loop K h flags lf n i st <> None.
Proof.
  induction n as [|n IH]; intros i st; simpl; [discriminate|].
  destruct (check_child_is_nk_block K h (lf_key h lf i) flags) as [u|e m].
  - rewrite bind_lift_ok. unfold bind at 1, add_child.
    destruct (_hivex_add_to_offset_list (children st) (lf_key h lf i));
      [apply IH|discriminate].
  - rewrite bind_lift_err. discriminate.
Qed.

(** The loop over an index finishes when the nested calls do, on the states
    [Q] that the nested calls keep. *)
Lemma ri_loop_finishes (Q : lists -> Prop) (rec : Z -> walk unit) ri :
  (forall off st, Q st -> rec off st <> None) ->
  (forall off st r st', Q st -> rec off st = Some (r, st') -> Q st') ->
  forall n i st, Q st -> ri_loop rec h ri n i st <> None.
Proof.
  intros Hfin Hkeep. induction n as [|n IH]; intros i st HQ; simpl.
  - discriminate.
  - destruct (negb (IS_VALID_BLOCK h (ri_offset h ri i))); [discriminate|].
    unfold bind.
    destruct (rec (ri_offset h ri i) st) as [[[u|e m] st1]|] eqn:E.
    + apply IH. eapply Hkeep; eauto.
    + discriminate.
    + exfalso. eapply Hfin; eauto.
Qed.

(** A call of [_get_children] finishes within the room left in the list of
    blocks, plus one. *)
Lemma get_children_finishes fuel : forall blkoff st N,
  limit (blocks st) = Some N ->
  Z.max 0 (N - _hivex_get_offset_list_length (blocks st)) < Z.of_nat fuel ->
  _get_children K fuel h blkoff flags st <> None.
Proof.
  induction fuel as [|fuel IH]; intros blkoff st N HN Hfuel; [lia|].
  rewrite get_children_step. unfold bind at 1.
  destruct (add_block blkoff st) as [[[u|e m] st1]|] eqn:E;
    [| discriminate |].
  2:{ unfold add_block in E.
      destruct (_hivex_add_to_offset_list (blocks st) blkoff); discriminate. }
  assert (G : limit (blocks st1) = Some N
              /\ _hivex_get_offset_list_length (blocks st1)
                 = _hivex_get_offset_list_length (blocks st) + 1
              /\ _hivex_get_offset_list_length (blocks st) < N).
  { unfold add_block in E.
    destruct (_hivex_add_to_offset_list (blocks st) blkoff) as [b|] eqn:A;
      [|discriminate].
    injection E as _ <-. apply add_ok in A as (O & L & R). simpl.
    repeat split.
    - congruence.
    - unfold _hivex_get_offset_list_length. rewrite O, length_app_one.
      reflexivity.
    - auto. }
  destruct G as (L1 & Len1 & Room).
  destruct ((block_id0 h blkoff =? ascii_code "l")
            && ((block_id1 h blkoff =? ascii_code "f")
                || (block_id1 h blkoff =? ascii_code "h"))).
  - destruct (to_size_t (8 + le16toh h (blkoff + 6) * 8)
              >? fst (block_len h blkoff)); [discriminate|].
    apply lf_loop_finishes.
  - destruct ((block_id0 h blkoff =? ascii_code "r")
              && (block_id1 h blkoff =? ascii_code "i")); [|discriminate].
    destruct (to_size_t (8 + le16toh h (blkoff + 6) * 4)
              >? fst (block_len h blkoff)); [discriminate|].
    apply (ri_loop_finishes
             (fun s => limit (blocks s) = Some N
                       /\ _hivex_get_offset_list_length (blocks st1)
                          <= _hivex_get_offset_list_length (blocks s))).
    + intros off s [Ls Lens]. apply (IH off s N Ls). lia.
    + intros off s r s' [Ls Lens] Hs.
      apply preserves_get_children in Hs.
      destruct Hs as [_ BL _ [bs B] _ _]. split; [congruence|].
      unfold _hivex_get_offset_list_length in *. rewrite B, length_app. lia.
    + split; [assumption|lia].
Qed.

Lemma ri_loop_mono (rec rec' : Z -> walk unit) ri :
  (forall off st o, rec off st = Some o -> rec' off st = Some o) ->
  forall n i st o,
    ri_loop rec h ri n i st = Some o -> ri_loop rec' h ri n i st = Some o.
Proof.
  intros Hrec. induction n as [|n IH]; intros i st o; simpl; auto.
  destruct (negb (IS_VALID_BLOCK h (ri_offset h ri i))); auto.
  unfold bind.
  destruct (rec (ri_offset h ri i) st) as [[[u|e m] st1]|] eqn:E;
    [| |discriminate].
  - rewrite (Hrec _ _ _ E). apply IH.
  - rewrite (Hrec _ _ _ E). auto.
Qed.

(** More fuel does not change a finished walk. *)
Lemma get_children_mono fuel : forall fuel' blkoff st o,
  (fuel <= fuel')%nat ->
  _get_children K fuel h blkoff flags st = Some o ->
  _get_children K fuel' h blkoff flags st = Some o.
Proof.
  induction fuel as [|fuel IH]; intros fuel' blkoff st o Hle; [discriminate|].
  destruct fuel' as [|fuel']; [lia|]. rewrite !get_children_step.
  unfold bind at 1 2.
  destruct (add_block blkoff st) as [[[u|e m] st1]|]; auto.
  destruct ((block_id0 h blkoff =? ascii_code "l")
            && ((block_id1 h blkoff =? ascii_code "f")
                || (block_id1 h blkoff =? ascii_code "h"))); auto.
  destruct ((block_id0 h blkoff =? ascii_code "r")
            && (block_id1 h blkoff =? ascii_code "i")); auto.
  destruct (to_size_t (8 + le16toh h (blkoff + 6) * 4)
            >? fst (block_len h blkoff)); auto.
  apply ri_loop_mono. intros off s o'. apply IH. lia.
Qed.

End WalkerFacts.

(** ** [_hivex_get_children]: its exits, and its budget suffices *)

Section TopLevel.

Variable K : hivex_internal.
Variable malloc_ok : Z -> bool.
Variable h : hive_h.
Variable node : Z.
Variable flags : Z.

Local Abbreviation nr := (le32toh h (node + nk_nr_subkeys K)).
Local Abbreviation subkey_lf :=
  (to_size_t (le32toh h (node + nk_subkey_lf K) + 0x1000)).

Lemma get_children_fuel_not_nk fuel :
  is_nk h node = false ->
  _hivex_get_children_fuel K malloc_ok fuel h node flags
  = Some {| return_value := -1; error := Some (EINVAL, not_an_nk_block);
            children_ret := None; blocks_ret := None; freed := None |}.
Proof.
  intros NK. unfold _hivex_get_children_fuel.
  rewrite (not_nk_guard _ _ NK). reflexivity.
Qed.

Lemma get_children_fuel_no_subkeys fuel :
  is_nk h node = true -> nr = 0 ->
  _hivex_get_children_fuel K malloc_ok fuel h node flags
  = Some {| return_value := 0; error := None;
            children_ret := Some [0]; blocks_ret := Some [0];
            freed := None |}.
Proof.
  intros NK Z0. unfold _hivex_get_children_fuel.
  rewrite (is_nk_guard _ _ NK). rewrite Z0. reflexivity.
Qed.

Lemma get_children_fuel_over_max fuel :
  is_nk h node = true -> nr <> 0 -> HIVEX_MAX_SUBKEYS K < nr ->
  _hivex_get_children_fuel K malloc_ok fuel h node flags
  = Some (goto_error ERANGE (nr_subkeys_over_max nr)
            {| children := _hivex_init_offset_list;
               blocks := _hivex_init_offset_list |} None None).
Proof.
  intros NK N0 G. unfold _hivex_get_children_fuel.
  rewrite (is_nk_guard _ _ NK).
  destruct (nr =? 0) eqn:Z0; [lia|].
  destruct (nr >? HIVEX_MAX_SUBKEYS K) eqn:T; [reflexivity|lia].
Qed.

Lemma get_children_fuel_no_memory fuel :
  is_nk h node = true -> 0 < nr <= HIVEX_MAX_SUBKEYS K ->
  malloc_ok (8 * nr) = false ->
  _hivex_get_children_fuel K malloc_ok fuel h node flags
  = Some (goto_error ENOMEM allocation_failed
            {| children := {| offsets := []; alloc := 0; limit := Some nr |};
               blocks := {| offsets := []; alloc := 0;
                            limit := Some (HIVEX_MAX_SUBKEYS K) |} |}
            None None).
Proof.
  intros NK R A. unfold _hivex_get_children_fuel.
  rewrite (is_nk_guard _ _ NK).
  destruct (nr =? 0) eqn:Z0; [lia|].
  destruct (nr >? HIVEX_MAX_SUBKEYS K) eqn:G; [lia|].
  unfold _hivex_grow_offset_list.
  cbn [_hivex_set_offset_list_limit children blocks offsets alloc limit
       _hivex_init_offset_list].
  rewrite A. reflexivity.
Qed.

Lemma get_children_fuel_walk fuel :
  is_nk h node = true -> 0 < nr <= HIVEX_MAX_SUBKEYS K ->
  malloc_ok (8 * nr) = true ->
  _hivex_get_children_fuel K malloc_ok fuel h node flags
  = if negb (IS_VALID_BLOCK h subkey_lf)
    then Some (goto_error EFAULT (subkey_lf_not_valid subkey_lf)
                 (walker_lists K nr) None None)
    else
      match _get_children K fuel h subkey_lf flags (walker_lists K nr) with
      | None => None
      | Some (Err e m, st') => Some (goto_error e m st' None None)
      | Some (Ok _, st') =>
          if negb (nr =? _hivex_get_offset_list_length (children st'))
          then Some (goto_error ENOTSUP
                       (nr_subkeys_mismatch nr
                          (_hivex_get_offset_list_length (children st')))
                       st' None None)
          else Some (goto_out st')
      end.
Proof.
  intros NK R A. unfold _hivex_get_children_fuel.
  rewrite (is_nk_guard _ _ NK).
  destruct (nr =? 0) eqn:Z0; [lia|].
  destruct (nr >? HIVEX_MAX_SUBKEYS K) eqn:G; [lia|].
  unfold _hivex_grow_offset_list.
  cbn [_hivex_set_offset_list_limit children blocks offsets alloc limit
       _hivex_init_offset_list].
  rewrite A. reflexivity.
Qed.

Lemma walker_lists_finishes blkoff n :
  _get_children K (walk_budget K) h blkoff flags (walker_lists K n) <> None.
Proof.
  apply get_children_finishes with (N := HIVEX_MAX_SUBKEYS K).
  - reflexivity.
  - unfold walk_budget, walker_lists, _hivex_get_offset_list_length; simpl.
    lia.
Qed.

(** The budget of [_hivex_get_children] is never exhausted, and a larger one
    changes nothing. *)
Lemma get_children_budget fuel :
  (walk_budget K <= fuel)%nat ->
  _hivex_get_children_fuel K malloc_ok fuel h node flags
  = Some (_hivex_get_children K malloc_ok h node flags).
Proof.
  intros Hfuel.
  assert (E : _hivex_get_children_fuel K malloc_ok fuel h node flags
              = _hivex_get_children_fuel K malloc_ok (walk_budget K) h node
                  flags
              /\ _hivex_get_children_fuel K malloc_ok (walk_budget K) h node
                  flags
                 <> None).
  { destruct (is_nk h node) eqn:NK.
    2:{ rewrite !get_children_fuel_not_nk by assumption.
        split; [reflexivity|discriminate]. }
    destruct (Z.eq_dec nr 0) as [Z0|N0].
    { rewrite !get_children_fuel_no_subkeys by assumption.
      split; [reflexivity|discriminate]. }
    destruct (Z_lt_dec (HIVEX_MAX_SUBKEYS K) nr) as [G|G].
    { rewrite !get_children_fuel_over_max by assumption.
      split; [reflexivity|discriminate]. }
    assert (R : 0 < nr <= HIVEX_MAX_SUBKEYS K).
    { pose proof (le32toh_range h (node + nk_nr_subkeys K)) as H. lia. }
    destruct (malloc_ok (8 * nr)) eqn:A.
    2:{ rewrite !get_children_fuel_no_memory by assumption.
        split; [reflexivity|discriminate]. }
    destruct (_get_children K (walk_budget K) h subkey_lf flags
                (walker_lists K nr)) as [o|] eqn:W.
    2:{ exfalso. eapply walker_lists_finishes; eauto. }
    pose proof (get_children_mono K h flags _ _ _ _ _ Hfuel W) as W'.
    rewrite !get_children_fuel_walk by assumption.
    rewrite W, W'. split; [reflexivity|].
    destruct (negb (IS_VALID_BLOCK h subkey_lf)); [discriminate|].
    destruct o as [[u|e m] st']; [|discriminate].
    destruct (negb (nr =? _hivex_get_offset_list_length (children st')));
      discriminate. }
  destruct E as [E F]. rewrite E. unfold _hivex_get_children.
  destruct (_hivex_get_children_fuel K malloc_ok (walk_budget K) h node flags);
    [reflexivity|contradiction].
Qed.

Lemma get_children_exits :
  get_children_exit K malloc_ok h node flags (_hivex_get_children K malloc_ok h
      node flags).
Proof.
  pose proof (get_children_budget (walk_budget K) (Nat.le_refl _)) as B.
  destruct (is_nk h node) eqn:NK.
  2:{ rewrite get_children_fuel_not_nk in B by assumption.
      injection B as <-. apply exit_not_nk; auto. }
  destruct (Z.eq_dec nr 0) as [Z0|N0].
  { rewrite get_children_fuel_no_subkeys in B by assumption.
    injection B as <-. apply exit_no_subkeys; auto. }
  destruct (Z_lt_dec (HIVEX_MAX_SUBKEYS K) nr) as [G|G].
  { rewrite get_children_fuel_over_max in B by assumption.
    injection B as <-. apply exit_over_max; auto. }
  assert (R : 0 < nr <= HIVEX_MAX_SUBKEYS K).
  { pose proof (le32toh_range h (node + nk_nr_subkeys K)) as H. lia. }
  destruct (malloc_ok (8 * nr)) eqn:A.
  2:{ rewrite get_children_fuel_no_memory in B by assumption.
      injection B as <-. apply exit_no_memory; auto. }
  rewrite get_children_fuel_walk in B by assumption.
  destruct (IS_VALID_BLOCK h subkey_lf) eqn:V; cbn [negb] in B.
  2:{ injection B as <-. apply exit_subkey_lf; auto. }
  destruct (_get_children K (walk_budget K) h subkey_lf flags
              (walker_lists K nr)) as [[[[]|e m] st']|] eqn:W;
    [| |discriminate].
  - destruct (nr =? _hivex_get_offset_list_length (children st')) eqn:L;
      cbn [negb] in B; injection B as <-.
    + apply exit_children; auto. lia.
    + apply exit_mismatch; auto. lia.
  - injection B as <-. apply exit_walk_failed; auto.
Qed.

End TopLevel.

(** ** Names and timestamps *)

(** C4. For a key record whose name length, added to the size of the record
    header minus the one overlapping byte, exceeds the declared length of
    its block, [hivex_node_name] and [hivex_node_struct_length] both fail
    with StructuralFault (EFAULT) and return their sentinels, NULL and 0. *)
Theorem C4_name_beyond_block (K : hivex_internal) (malloc_ok : Z -> bool)
  (h : hive_h) (node : Z) :
  is_nk h node = true ->
  0 < sizeof_nk_record K < 2 ^ 32 ->
  fst (block_len h node)
  < sizeof_nk_record K + le16toh h (node + nk_name_len K) - 1 ->
  hivex_node_name K malloc_ok h node
  = Err StructuralFault
      (node_name_too_long (le16toh h (node + nk_name_len K))
         (fst (block_len h node)))
  /\ c_pointer (hivex_node_name K malloc_ok h node) = None
  /\ hivex_node_struct_length K h node
     = Err StructuralFault
         (node_name_too_long (le16toh h (node + nk_name_len K))
            (fst (block_len h node)))
  /\ c_size_t (hivex_node_struct_length K h node) = 0.
Proof.
  intros NK S L.
  pose proof (le16toh_range h (node + nk_name_len K)) as R.
  assert (N : hivex_node_name K malloc_ok h node
              = Err EFAULT
                  (node_name_too_long (le16toh h (node + nk_name_len K))
                     (fst (block_len h node)))).
  { unfold hivex_node_name. rewrite (is_nk_guard _ _ NK).
    rewrite to_size_t_small by lia.
    destruct (sizeof_nk_record K + le16toh h (node + nk_name_len K) - 1
              >? fst (block_len h node)) eqn:T; [reflexivity|lia]. }
  assert (T : hivex_node_struct_length K h node
              = Err EFAULT
                  (node_name_too_long (le16toh h (node + nk_name_len K))
                     (fst (block_len h node)))).
  { unfold hivex_node_struct_length. rewrite (is_nk_guard _ _ NK).
    rewrite to_size_t_small by lia.
    destruct (le16toh h (node + nk_name_len K) + sizeof_nk_record K - 1
              >? fst (block_len h node)) eqn:T; [reflexivity|lia]. }
  unfold StructuralFault. rewrite N, T. repeat split.
Qed.

Lemma C4_name_beyond_block_witness :
  is_nk Fixture.hive (Fixture.at_ 13) = true
  /\ c_pointer
       (hivex_node_name ntreg Fixture.granted Fixture.hive (Fixture.at_ 13))
     = None
  /\ c_size_t (hivex_node_struct_length ntreg Fixture.hive (Fixture.at_ 13))
     = 0.
Proof.
  split; [vm_compute; reflexivity|].
  assert (NK : is_nk Fixture.hive (Fixture.at_ 13) = true)
    by (vm_compute; reflexivity).
  assert (S : 0 < sizeof_nk_record ntreg < 2 ^ 32) by (simpl; lia).
  assert (L : fst (block_len Fixture.hive (Fixture.at_ 13))
              < sizeof_nk_record ntreg
                + le16toh Fixture.hive (Fixture.at_ 13 + nk_name_len ntreg)
                - 1)
    by (vm_compute; reflexivity).
  destruct (C4_name_beyond_block ntreg Fixture.granted Fixture.hive
              (Fixture.at_ 13) NK S L)
    as (_ & P & _ & Q).
  split; assumption.
Defined.

Lemma timestamp_check_spec node ts :
  (ts < 0 -> timestamp_check node ts = Err EINVAL (negative_time node ts))
  /\ (0 <= ts -> timestamp_check node ts = Ok ts).
Proof.
  unfold timestamp_check.
  destruct (ts <? 0) eqn:T; split; intros; try reflexivity; lia.
Qed.

(** C5. [hivex_node_timestamp] on a key record, and [hivex_last_modified],
    fail with InvalidTimestamp (EINVAL, "negative time reported") exactly
    when the signed 64-bit value is negative and return the value
    otherwise: 0 is returned as 0, and a returned value is never
    negative. *)
Theorem C5_timestamp_sign (K : hivex_internal) (h : hive_h) (node : Z) :
  is_nk h node = true ->
  let ts := to_int64 (le64toh h (node + nk_timestamp K)) in
  (hivex_node_timestamp K h node = Err InvalidTimestamp (negative_time node ts)
   <-> ts < 0)
  /\ (hivex_node_timestamp K h node = Ok ts <-> 0 <= ts)
  /\ (ts = 0 -> hivex_node_timestamp K h node = Ok 0)
  /\ (forall v, hivex_node_timestamp K h node = Ok v -> 0 <= v)
  /\ (hivex_last_modified h
      = Err InvalidTimestamp (negative_time 0 (last_modified h))
      <-> last_modified h < 0)
  /\ (hivex_last_modified h = Ok (last_modified h) <-> 0 <= last_modified h)
  /\ (last_modified h = 0 -> hivex_last_modified h = Ok 0)
  /\ (forall v, hivex_last_modified h = Ok v -> 0 <= v).
Proof.
  intros NK ts.
  assert (E : hivex_node_timestamp K h node = timestamp_check node ts).
  { unfold hivex_node_timestamp. rewrite (is_nk_guard _ _ NK). reflexivity. }
  rewrite E. unfold hivex_last_modified, InvalidTimestamp.
  assert (G : forall n t,
             (timestamp_check n t = Err EINVAL (negative_time n t) <-> t < 0)
             /\ (timestamp_check n t = Ok t <-> 0 <= t)
             /\ (t = 0 -> timestamp_check n t = Ok 0)
             /\ (forall v, timestamp_check n t = Ok v -> 0 <= v)).
  { intros n t. destruct (timestamp_check_spec n t) as [Neg Pos].
    unfold timestamp_check in *. destruct (t <? 0) eqn:T.
    - repeat split; intros; try discriminate; try lia.
    - repeat split; intros; try discriminate; try lia.
      + subst; reflexivity.
      + injection H as <-. lia. }
  destruct (G node ts) as (A & B & C & D).
  destruct (G 0 (last_modified h)) as (A' & B' & C' & D').
  repeat split; try apply A; try apply B; try apply A'; try apply B'; auto.
Qed.

Lemma C5_timestamp_sign_witness :
  hivex_node_timestamp ntreg Fixture.hive (Fixture.at_ 1) = Ok 0
  /\ (forall v, hivex_node_timestamp ntreg Fixture.hive (Fixture.at_ 14)
                = Ok v -> 0 <= v).
Proof.
  split.
  - apply (C5_timestamp_sign ntreg Fixture.hive (Fixture.at_ 1));
      vm_compute; reflexivity.
  - apply (C5_timestamp_sign ntreg Fixture.hive (Fixture.at_ 14)).
    vm_compute; reflexivity.
Defined.

Lemma until_zero_sentinel l :
  Forall (fun c => c <> 0) l -> until_zero (l ++ [0]) = l.
Proof.
  induction 1 as [|x l Hx Hl IH]; simpl; [reflexivity|].
  destruct (x =? 0) eqn:E; [lia|]. rewrite IH. reflexivity.
Qed.

Lemma until_zero_length (l : list Z) :
  (List.length (until_zero (l ++ [0%Z])) <= List.length l)%nat.
Proof.
  induction l as [|x l IH]; simpl; [lia|].
  destruct (x =? 0); simpl; lia.
Qed.

(** ** The walker's limits and exits *)

(** C7. For a key record that declares no subkeys, [_hivex_get_children]
    succeeds at once with two empty lists, each finalised to its zero
    sentinel alone: whatever the budget of the walker, which is not
    entered, and whatever the subkey pointer of the record holds. *)
Theorem C7_no_subkeys (K : hivex_internal) (malloc_ok : Z -> bool)
  (h : hive_h) (node : Z) (flags : Z) :
  is_nk h node = true ->
  le32toh h (node + nk_nr_subkeys K) = 0 ->
  let r := _hivex_get_children K malloc_ok h node flags in
  (forall fuel, _hivex_get_children_fuel K malloc_ok fuel h node flags = Some r)
  /\ return_value r = 0
  /\ children_ret r = Some [0]
  /\ blocks_ret r = Some [0]
  /\ freed r = None
  /\ hivex_node_children K malloc_ok h node = Some [0]
  /\ until_zero [0] = [].
Proof.
  intros NK Z0 r.
  assert (E : forall f, _hivex_get_children K malloc_ok h node f
                        = {| return_value := 0; error := None;
                             children_ret := Some [0];
                             blocks_ret := Some [0]; freed := None |}).
  { intros f.
    pose proof (get_children_budget K malloc_ok h node f _ (Nat.le_refl _)) as
        B.
    rewrite get_children_fuel_no_subkeys in B by assumption.
    injection B as <-. reflexivity. }
  split.
  - intros fuel. unfold r. rewrite E.
    apply get_children_fuel_no_subkeys; assumption.
  - unfold r, hivex_node_children. rewrite !E. simpl. repeat split.
Qed.

Lemma C7_no_subkeys_witness :
  IS_VALID_BLOCK Fixture.hive
    (to_size_t (le32toh Fixture.hive (Fixture.at_ 1 + nk_subkey_lf ntreg)
                + 0x1000)) = false
  /\ _hivex_get_children_fuel ntreg Fixture.granted 0 Fixture.hive (Fixture.at_
      1) 0
     = Some (_hivex_get_children ntreg Fixture.granted Fixture.hive
         (Fixture.at_ 1) 0)
  /\ hivex_node_children ntreg Fixture.granted Fixture.hive (Fixture.at_ 1) =
      Some [0].
Proof.
  split; [vm_compute; reflexivity|].
  assert (NK : is_nk Fixture.hive (Fixture.at_ 1) = true)
    by (vm_compute; reflexivity).
  assert (Z0 : le32toh Fixture.hive (Fixture.at_ 1 + nk_nr_subkeys ntreg) = 0)
    by (vm_compute; reflexivity).
  destruct (C7_no_subkeys ntreg Fixture.granted Fixture.hive (Fixture.at_ 1) 0
      NK Z0)
    as (F & _ & _ & _ & _ & C & _).
  split; [apply F|apply C].
Defined.

(** C2. A key record that declares more than HIVEX_MAX_SUBKEYS subkeys
    makes [_hivex_get_children] fail with ResourceLimitExceeded (ERANGE)
    before the walker is entered: the result is the same for every budget
    of the walker, zero included, and the lists released are empty.  In a
    walk, the list of blocks visited never grows beyond HIVEX_MAX_SUBKEYS:
    a visit attempted when the list is full fails with the same kind of
    fault, every walk from a list within its limit finishes, and the
    array of blocks returned holds at most that many blocks. *)
Theorem C2_ceiling (K : hivex_internal) (malloc_ok : Z -> bool) (h : hive_h)
  (node : Z) (flags : Z) :
  0 <= HIVEX_MAX_SUBKEYS K ->
  is_nk h node = true ->
  let nr := le32toh h (node + nk_nr_subkeys K) in
  let r := _hivex_get_children K malloc_ok h node flags in
  (HIVEX_MAX_SUBKEYS K < nr ->
   r = goto_error ResourceLimitExceeded (nr_subkeys_over_max nr)
         {| children := _hivex_init_offset_list;
            blocks := _hivex_init_offset_list |} None None
   /\ forall fuel, _hivex_get_children_fuel K malloc_ok fuel h node flags =
       Some r)
  /\ (forall blkoff st,
        limit (blocks st) = Some (HIVEX_MAX_SUBKEYS K) ->
        _hivex_get_offset_list_length (blocks st) <= HIVEX_MAX_SUBKEYS K ->
        exists o st',
          _get_children K (walk_budget K) h blkoff flags st = Some (o, st')
          /\ _hivex_get_offset_list_length (blocks st')
             <= HIVEX_MAX_SUBKEYS K
          /\ (_hivex_get_offset_list_length (blocks st) = HIVEX_MAX_SUBKEYS K
              -> o = Err ResourceLimitExceeded
                       (offset_list_over_limit (HIVEX_MAX_SUBKEYS K))
                 /\ st' = st))
  /\ (forall a, blocks_ret r = Some a ->
                Z.of_nat (List.length (until_zero a)) <= HIVEX_MAX_SUBKEYS K).
Proof.
  intros M NK nr r. split; [|split].
  - intros G.
    assert (N0 : nr <> 0) by lia.
    assert (E : r = goto_error ERANGE (nr_subkeys_over_max nr)
                      {| children := _hivex_init_offset_list;
                         blocks := _hivex_init_offset_list |} None None).
    { pose proof (get_children_budget K malloc_ok h node flags _ (Nat.le_refl
        _)) as B.
      rewrite get_children_fuel_over_max in B by assumption.
      injection B as B. symmetry. exact B. }
    split; [exact E|].
    intros fuel. rewrite E. apply get_children_fuel_over_max; assumption.
  - intros blkoff st L Len.
    destruct (_get_children K (walk_budget K) h blkoff flags st)
      as [[o st']|] eqn:W.
    2:{ exfalso. revert W.
        apply get_children_finishes with (N := HIVEX_MAX_SUBKEYS K); auto.
        unfold walk_budget, _hivex_get_offset_list_length in *. lia. }
    exists o, st'. split; [reflexivity|]. split.
    + pose proof (preserves_get_children K h flags _ _ _ _ _ W) as G.
      apply (grows_blocks_bound _ _ _ G); assumption.
    + intros Full. unfold walk_budget in W.
      rewrite get_children_step in W. unfold bind, add_block in W.
      rewrite (add_full _ _ _ L) in W by lia.
      injection W as <- <-. split; reflexivity.
  - intros a Ha.
    pose proof (get_children_exits K malloc_ok h node flags) as X. fold r in X.
    inversion X as [? E|? ? E|? ? ? E|? ? ? E|? ? ? ? E
                    |e m st' ? ? ? ? W E|st' ? ? ? ? W ? E
                    |st' ? ? ? ? W ? E];
      rewrite <- E in Ha; simpl in Ha; try discriminate.
    + injection Ha as <-. simpl. assumption.
    + injection Ha as <-.
      pose proof (preserves_get_children K h flags _ _ _ _ _ W) as G.
      pose proof (grows_blocks_bound _ _ _ G (HIVEX_MAX_SUBKEYS K) eq_refl)
        as Bd.
      clear G. simpl in Bd. specialize (Bd M).
      pose proof (until_zero_length (offsets (blocks st'))) as U.
      unfold _hivex_get_offset_list_length in Bd. lia.
Qed.

Lemma C2_ceiling_witness :
  _hivex_get_children_fuel Fixture.ntreg2 Fixture.granted 0 Fixture.hive
      (Fixture.at_ 0) 0
  = Some (_hivex_get_children Fixture.ntreg2 Fixture.granted Fixture.hive
      (Fixture.at_ 0) 0)
  /\ error (_hivex_get_children Fixture.ntreg2 Fixture.granted Fixture.hive
      (Fixture.at_ 0) 0)
     = Some (ResourceLimitExceeded, nr_subkeys_over_max 3).
Proof.
  assert (M : 0 <= HIVEX_MAX_SUBKEYS Fixture.ntreg2) by (simpl; lia).
  assert (NK : is_nk Fixture.hive (Fixture.at_ 0) = true)
    by (vm_compute; reflexivity).
  destruct (C2_ceiling Fixture.ntreg2 Fixture.granted Fixture.hive (Fixture.at_
      0) 0 M NK)
    as (A & _ & _).
  assert (G : HIVEX_MAX_SUBKEYS Fixture.ntreg2
              < le32toh Fixture.hive
                  (Fixture.at_ 0 + nk_nr_subkeys Fixture.ntreg2))
    by (vm_compute; reflexivity).
  destruct (A G) as [E F].
  split; [apply F|]. rewrite E. vm_compute. reflexivity.
Defined.

(** A key whose index block points to itself: the third visit finds the list
    of blocks full and the walk stops with ERANGE. *)
Example ceiling_reached :
  error (_hivex_get_children Fixture.ntreg2 Fixture.granted Fixture.hive
      (Fixture.at_ 11) 0)
  = Some (ERANGE, offset_list_over_limit 2).
Proof. vm_compute. reflexivity. Qed.

(** C1 (amended). When the walk of a key record completes with a number of
    children different from the declared [nr_subkeys],
    [_hivex_get_children] fails with ENOTSUP, the errno of
    UnsupportedStructure, and stores no list; the lists it had built are
    released.  The number found is then smaller than the declared one: the
    list of children is limited to the declared count, so a walk meeting
    more children does not complete.  (The walk starts once the storage for
    the declared count has been reserved.) *)
Theorem C1_count_mismatch (K : hivex_internal) (malloc_ok : Z -> bool)
  (h : hive_h) (node : Z) (flags : Z) (st' : lists) :
  is_nk h node = true ->
  let nr := le32toh h (node + nk_nr_subkeys K) in
  let subkey_lf := to_size_t (le32toh h (node + nk_subkey_lf K) + 0x1000) in
  0 < nr <= HIVEX_MAX_SUBKEYS K ->
  malloc_ok (8 * nr) = true ->
  IS_VALID_BLOCK h subkey_lf = true ->
  _get_children K (walk_budget K) h subkey_lf flags (walker_lists K nr)
  = Some (Ok tt, st') ->
  let found := _hivex_get_offset_list_length (children st') in
  let r := _hivex_get_children K malloc_ok h node flags in
  found <= nr
  /\ (found <> nr ->
      return_value r = -1
      /\ error r = Some (UnsupportedStructure, nr_subkeys_mismatch nr found)
      /\ children_ret r = None
      /\ blocks_ret r = None
      /\ freed r = Some st').
Proof.
  intros NK nr subkey_lf R A V W found r. split.
  - pose proof (preserves_get_children K h flags _ _ _ _ _ W) as G.
    apply (grows_children_bound _ _ _ G nr); [reflexivity|].
    unfold _hivex_get_offset_list_length; simpl. lia.
  - intros D.
    pose proof (get_children_budget K malloc_ok h node flags _ (Nat.le_refl _))
        as B.
    rewrite get_children_fuel_walk in B by assumption.
    fold nr subkey_lf in B. rewrite V in B. cbn [negb] in B.
    rewrite W in B. fold found in B.
    destruct (nr =? found) eqn:T; [lia|]. cbn [negb] in B.
    injection B as B. unfold r. rewrite <- B. simpl. repeat split.
Qed.

Lemma C1_count_mismatch_witness :
  error (_hivex_get_children ntreg Fixture.granted Fixture.hive (Fixture.at_ 9)
      0)
  = Some (ENOTSUP, nr_subkeys_mismatch 4 3)
  /\ children_ret (_hivex_get_children ntreg Fixture.granted Fixture.hive
      (Fixture.at_ 9) 0)
     = None.
Proof.
  pose (st' := {| children := {| offsets := [4224; 4352; 4480]; alloc := 4;
                                 limit := Some 4 |};
                  blocks := {| offsets := [5120]; alloc := 1;
                               limit := Some 70000 |} |}).
  assert (NK : is_nk Fixture.hive (Fixture.at_ 9) = true)
    by (vm_compute; reflexivity).
  destruct (C1_count_mismatch ntreg Fixture.granted Fixture.hive (Fixture.at_
      9) 0 st' NK)
    as (_ & A).
  - vm_compute. split; [reflexivity|discriminate].
  - reflexivity.
  - vm_compute. reflexivity.
  - vm_compute. reflexivity.
  - destruct A as (_ & E & C & _).
    + vm_compute. discriminate.
    + split; [exact E|exact C].
Defined.

(** The claim with StructuralFault (EFAULT) fails on a key that declares
    four subkeys over a leaf of three: the walk completes, the counts
    differ, and the errno set is ENOTSUP. *)
Lemma C1_counterexample :
  let r := _hivex_get_children ntreg Fixture.granted Fixture.hive (Fixture.at_
      9) 0 in
  is_nk Fixture.hive (Fixture.at_ 9) = true
  /\ _get_children ntreg (walk_budget ntreg) Fixture.hive (Fixture.at_ 8) 0
       (walker_lists ntreg 4)
     = Some (Ok tt,
             {| children := {| offsets := [4224; 4352; 4480]; alloc := 4;
                               limit := Some 4 |};
                blocks := {| offsets := [5120]; alloc := 1;
                             limit := Some 70000 |} |})
  /\ le32toh Fixture.hive (Fixture.at_ 9 + nk_nr_subkeys ntreg) = 4
  /\ return_value r = -1
  /\ error r = Some (UnsupportedStructure, nr_subkeys_mismatch 4 3)
  /\ ~ (exists m, error r = Some (StructuralFault, m)).
Proof.
  repeat split; try (vm_compute; reflexivity).
  intros [m E]. vm_compute in E. discriminate.
Qed.

(** A failing nested call makes the loop of the enclosing call fail with
    the same error, on the lists as the nested call left them. *)
Lemma ri_loop_propagates (rec : Z -> walk unit) h ri n i st e m st' :
  IS_VALID_BLOCK h (ri_offset h ri i) = true ->
  rec (ri_offset h ri i) st = Some (Err e m, st') ->
  ri_loop rec h ri (S n) i st = Some (Err e m, st').
Proof.
  intros V E. simpl. rewrite V. cbn [negb]. unfold bind. rewrite E.
  reflexivity.
Qed.

(** C3. A call of [_hivex_get_children] returns 0 or -1.  When it returns
    -1, nothing was stored through [children_ret] and [blocks_ret] and
    [hivex_node_children] returns NULL; the accumulators, if they were
    set up, went to [_hivex_free_offset_list].  This holds for every exit
    (a handle that is not a key, a count over the ceiling, a refused
    reservation, a dangling subkey pointer, a failed walk, a count
    mismatch), whatever the walker had added before it failed and however
    deep the failing call: the result carries the walker's error and none
    of its lists.  When it returns 0 both arrays were stored and nothing
    was released. *)
Theorem C3_all_or_nothing (K : hivex_internal) (malloc_ok : Z -> bool)
  (h : hive_h) (node : Z) (flags : Z) :
  let r := _hivex_get_children K malloc_ok h node flags in
  (return_value r = 0 \/ return_value r = -1)
  /\ (return_value r = -1 ->
      children_ret r = None /\ blocks_ret r = None /\ error r <> None
      /\ (is_nk h node = true -> freed r <> None))
  /\ (return_value r = 0 ->
      error r = None /\ freed r = None
      /\ exists cs bs, children_ret r = Some (cs ++ [0])
                       /\ blocks_ret r = Some (bs ++ [0]))
  /\ (return_value (_hivex_get_children K malloc_ok h node 0) = -1 ->
      hivex_node_children K malloc_ok h node = None)
  /\ (forall e m st',
        is_nk h node = true ->
        0 < le32toh h (node + nk_nr_subkeys K) <= HIVEX_MAX_SUBKEYS K ->
        malloc_ok (8 * le32toh h (node + nk_nr_subkeys K)) = true ->
        IS_VALID_BLOCK h
          (to_size_t (le32toh h (node + nk_subkey_lf K) + 0x1000)) = true ->
        _get_children K (walk_budget K) h
          (to_size_t (le32toh h (node + nk_subkey_lf K) + 0x1000)) flags
          (walker_lists K (le32toh h (node + nk_nr_subkeys K)))
        = Some (Err e m, st') ->
        r = goto_error e m st' None None).
Proof.
  intros r.
  assert (Deep : forall e m st',
             is_nk h node = true ->
             0 < le32toh h (node + nk_nr_subkeys K) <= HIVEX_MAX_SUBKEYS K ->
             malloc_ok (8 * le32toh h (node + nk_nr_subkeys K)) = true ->
             IS_VALID_BLOCK h
               (to_size_t (le32toh h (node + nk_subkey_lf K) + 0x1000))
             = true ->
             _get_children K (walk_budget K) h
               (to_size_t (le32toh h (node + nk_subkey_lf K) + 0x1000)) flags
               (walker_lists K (le32toh h (node + nk_nr_subkeys K)))
             = Some (Err e m, st') ->
             r = goto_error e m st' None None).
  { intros e m st' NK R A V W.
    pose proof (get_children_budget K malloc_ok h node flags _
                  (Nat.le_refl _)) as B.
    rewrite get_children_fuel_walk in B by assumption.
    rewrite V in B. cbn [negb] in B. rewrite W in B.
    injection B as B. symmetry. exact B. }
  assert (Null : return_value (_hivex_get_children K malloc_ok h node 0) = -1 ->
                 hivex_node_children K malloc_ok h node = None).
  { unfold hivex_node_children. intros ->. reflexivity. }
  pose proof (get_children_exits K malloc_ok h node flags) as X. fold r in X.
  assert (Main :
    (return_value r = 0 \/ return_value r = -1)
    /\ (return_value r = -1 ->
        children_ret r = None /\ blocks_ret r = None /\ error r <> None
        /\ (is_nk h node = true -> freed r <> None))
    /\ (return_value r = 0 ->
        error r = None /\ freed r = None
        /\ exists cs bs, children_ret r = Some (cs ++ [0])
                         /\ blocks_ret r = Some (bs ++ [0]))).
  { inversion X as [NK E|NK Z0 E|NK N0 G E|NK R A E|NK R A V E
                    |e m st' NK R A V W E|st' NK R A V W D E
                    |st' NK R A V W D E];
      clear X; simpl.
    - split; [right; reflexivity|]. split; [|discriminate].
      intros _. repeat split; congruence.
    - split; [left; reflexivity|]. split; [discriminate|].
      intros _. repeat split. exists [], []. split; reflexivity.
    - split; [right; reflexivity|]. split; [|discriminate].
      intros _. repeat split; congruence.
    - split; [right; reflexivity|]. split; [|discriminate].
      intros _. repeat split; congruence.
    - split; [right; reflexivity|]. split; [|discriminate].
      intros _. repeat split; congruence.
    - split; [right; reflexivity|]. split; [|discriminate].
      intros _. repeat split; congruence.
    - split; [right; reflexivity|]. split; [|discriminate].
      intros _. repeat split; congruence.
    - split; [left; reflexivity|]. split; [discriminate|].
      intros _. repeat split.
      exists (offsets (children st')), (offsets (blocks st')).
      split; reflexivity. }
  destruct Main as (A & B & C).
  split; [exact A|]. split; [exact B|]. split; [exact C|].
  split; [exact Null|exact Deep].
Qed.

Lemma C3_all_or_nothing_witness :
  children_ret (_hivex_get_children ntreg Fixture.granted Fixture.hive
      (Fixture.at_ 12) 0)
  = None
  /\ blocks_ret (_hivex_get_children ntreg Fixture.granted Fixture.hive
      (Fixture.at_ 12) 0)
     = None.
Proof.
  destruct (C3_all_or_nothing ntreg Fixture.granted Fixture.hive (Fixture.at_
      12) 0)
    as (_ & F & _).
  destruct F as (C & B & _); [vm_compute; reflexivity|].
  split; [exact C|exact B].
Defined.

(** A walk that fails after it has added a child: the key declares one
    subkey over a leaf of three, and the second [add] exceeds the limit.
    The list holding the first child is released, not returned. *)
Example partial_list_released :
  let r := _hivex_get_children ntreg Fixture.granted Fixture.hive (Fixture.at_
      12) 0 in
  return_value r = -1
  /\ error r = Some (ERANGE, offset_list_over_limit 1)
  /\ children_ret r = None
  /\ option_map (fun st => offsets (children st)) (freed r) = Some [4224]
  /\ hivex_node_children ntreg Fixture.granted Fixture.hive (Fixture.at_ 12) =
      None.
Proof. vm_compute. repeat split. Qed.

(** ** The children returned *)

(** What [hivex_node_children] returns when it does not return NULL: the
    offsets gathered by the walker, each an "nk" block, as many as the key
    declares, and the zero sentinel. *)
Lemma node_children_success (K : hivex_internal) (malloc_ok : Z -> bool)
  (h : hive_h) (node : Z)
  (arr : list Z) :
  hivex_node_children K malloc_ok h node = Some arr ->
  is_nk h node = true
  /\ exists cs, arr = cs ++ [0]
       /\ Forall (fun c => is_nk h c = true /\ c <> 0) cs
       /\ Z.of_nat (List.length cs) = le32toh h (node + nk_nr_subkeys K).
Proof.
  unfold hivex_node_children.
  pose proof (get_children_exits K malloc_ok h node 0) as X.
  inversion X as [NK E|NK Z0 E|NK N0 G E|NK R A E|NK R A V E
                  |e m st' NK R A V W E|st' NK R A V W D E
                  |st' NK R A V W D E];
    simpl; try discriminate.
  - intros [= <-]. split; [assumption|]. exists []. repeat split; auto.
  - intros [= <-]. split; [assumption|].
    pose proof (preserves_get_children K h 0 _ _ _ _ _ W) as G.
    destruct G as [_ _ [cs [C F]] _ _ _]. simpl in C.
    exists (offsets (children st')). split; [reflexivity|]. split.
    + rewrite C. eapply Forall_impl; [|exact F].
      intros c [B N]. split; [apply N; reflexivity|lia].
    + unfold _hivex_get_offset_list_length in D. lia.
Qed.

(** C10. Every handle in the array that a successful [hivex_node_children]
    returns, before its zero sentinel, is a valid block tagged "nk" and is
    not zero; the array is those handles, as many as the key declares,
    followed by the sentinel, so a scan that stops at the first zero visits
    exactly them. *)
Theorem C10_children_are_nk (K : hivex_internal) (malloc_ok : Z -> bool)
  (h : hive_h) (node : Z) (arr : list Z) :
  hivex_node_children K malloc_ok h node = Some arr ->
  arr = until_zero arr ++ [0]
  /\ Forall (fun c => IS_VALID_BLOCK h c = true
                      /\ BLOCK_ID_EQ h c "n" "k" = true /\ c <> 0)
       (until_zero arr)
  /\ Z.of_nat (List.length (until_zero arr))
     = le32toh h (node + nk_nr_subkeys K)
  /\ children_ret (_hivex_get_children K malloc_ok h node 0) = Some arr.
Proof.
  intros H.
  destruct (node_children_success K malloc_ok h node arr H)
    as (_ & cs & -> & F & L).
  assert (U : until_zero (cs ++ [0]) = cs).
  { apply until_zero_sentinel. eapply Forall_impl; [|exact F].
    intros c [_ N]; exact N. }
  rewrite U. repeat split; auto.
  - eapply Forall_impl; [|exact F].
    intros c [NK N]. apply is_nk_split in NK as [V B]. auto.
  - unfold hivex_node_children in H.
    destruct (return_value (_hivex_get_children K malloc_ok h node 0) =? -1);
      [discriminate|assumption].
Qed.

Lemma C10_children_are_nk_witness :
  Forall (fun c => IS_VALID_BLOCK Fixture.hive c = true
                   /\ BLOCK_ID_EQ Fixture.hive c "n" "k" = true /\ c <> 0)
    [4224; 4352; 4480].
Proof.
  assert (H : hivex_node_children ntreg Fixture.granted Fixture.hive
      (Fixture.at_ 0)
              = Some [4224; 4352; 4480; 0]) by (vm_compute; reflexivity).
  destruct (C10_children_are_nk ntreg Fixture.granted Fixture.hive (Fixture.at_
      0) _ H)
    as (_ & F & _).
  exact F.
Defined.

Lemma node_parent_unfold (K : hivex_internal) (h : hive_h) (c : Z) :
  is_nk h c = true ->
  hivex_node_parent K h c
  = if IS_VALID_BLOCK h (stored_parent K h c)
    then Ok (stored_parent K h c)
    else Err EFAULT (parent_not_valid (stored_parent K h c)).
Proof.
  intros NK. unfold hivex_node_parent. rewrite (is_nk_guard _ _ NK).
  fold (stored_parent K h c).
  destruct (IS_VALID_BLOCK h (stored_parent K h c)); reflexivity.
Qed.

(** C9 (amended). For a child [c] in the array that a successful
    [hivex_node_children] returns for the key [n], [hivex_node_parent]
    returns the parent offset stored in the record of [c], biased by 0x1000,
    when that is a valid block, and fails with StructuralFault otherwise:
    it returns [n] exactly when the stored parent of [c] is [n]. *)
Theorem C9_parent_of_child (K : hivex_internal) (malloc_ok : Z -> bool)
  (h : hive_h) (n : Z) (arr : list Z) (c : Z) :
  hivex_node_children K malloc_ok h n = Some arr ->
  In c (until_zero arr) ->
  hivex_node_parent K h c
  = (if IS_VALID_BLOCK h (stored_parent K h c)
     then Ok (stored_parent K h c)
     else Err StructuralFault (parent_not_valid (stored_parent K h c)))
  /\ (hivex_node_parent K h c = Ok n <-> stored_parent K h c = n).
Proof.
  intros H I.
  destruct (node_children_success K malloc_ok h n arr H) as (NKn & cs & -> & F
      & _).
  assert (U : until_zero (cs ++ [0]) = cs).
  { apply until_zero_sentinel. eapply Forall_impl; [|exact F].
    intros x [_ N]; exact N. }
  rewrite U in I.
  rewrite Forall_forall in F. destruct (F c I) as [NKc _].
  rewrite (node_parent_unfold K h c NKc). split; [reflexivity|].
  apply is_nk_split in NKn as [Vn _].
  destruct (IS_VALID_BLOCK h (stored_parent K h c)) eqn:V.
  - split; [intros [= E]; exact E|intros E; rewrite E; reflexivity].
  - split; [discriminate|]. intros E. rewrite E in V. congruence.
Qed.

Lemma C9_parent_of_child_witness :
  hivex_node_parent ntreg Fixture.hive 4224 = Ok (Fixture.at_ 0).
Proof.
  assert (H : hivex_node_children ntreg Fixture.granted Fixture.hive
      (Fixture.at_ 0)
              = Some [4224; 4352; 4480; 0]) by (vm_compute; reflexivity).
  assert (I : In 4224 (until_zero [4224; 4352; 4480; 0]))
    by (simpl; left; reflexivity).
  destruct (C9_parent_of_child ntreg Fixture.granted Fixture.hive (Fixture.at_
      0) _ 4224 H I)
    as (_ & P).
  apply P. vm_compute. reflexivity.
Defined.

(** The key "Flat" lists, through its own leaf, the three keys whose records
    name the root as their parent: [hivex_node_parent] of its first child
    is the root, not "Flat". *)
Lemma C9_counterexample :
  hivex_node_children ntreg Fixture.granted Fixture.hive (Fixture.at_ 7)
  = Some [4224; 4352; 4480; 0]
  /\ In 4224 (until_zero [4224; 4352; 4480; 0])
  /\ hivex_node_parent ntreg Fixture.hive 4224 = Ok (Fixture.at_ 0)
  /\ hivex_node_parent ntreg Fixture.hive 4224 <> Ok (Fixture.at_ 7).
Proof.
  repeat split; try (vm_compute; reflexivity).
  - simpl; left; reflexivity.
  - vm_compute. discriminate.
Qed.

(** ** Child lookup *)

Lemma STRCASEEQ_tolower a : forall b b',
  map c_tolower b = map c_tolower b' -> STRCASEEQ a b = STRCASEEQ a b'.
Proof.
  induction a as [|x a IH]; intros [|y b] [|y' b'] E; simpl in E;
    try discriminate; try reflexivity; injection E as Ey Eb; simpl.
  - rewrite Ey. reflexivity.
  - rewrite Ey. destruct (c_tolower x =? c_tolower y'); [|reflexivity].
    destruct (x =? 0); [reflexivity|]. apply IH; assumption.
Qed.

Lemma get_child_loop_tolower K malloc_ok h nname nname' :
  map c_tolower nname' = map c_tolower nname ->
  forall cs, get_child_loop K malloc_ok h cs nname' = get_child_loop K
      malloc_ok h cs nname.
Proof.
  intros E cs. induction cs as [|c rest IH]; simpl; [reflexivity|].
  destruct (c =? 0); [reflexivity|].
  destruct (hivex_node_name K malloc_ok h c) as [name|]; [|reflexivity].
  rewrite (STRCASEEQ_tolower name nname' nname E), IH. reflexivity.
Qed.

Section Scan.

Variable K : hivex_internal.
Variable malloc_ok : Z -> bool.
Variable h : hive_h.
Variable nname : list Z.

Lemma scan_passes pre : forall rest,
  Forall (fun c => c <> 0) pre ->
  Forall (passed_over K malloc_ok h nname) pre ->
  get_child_loop K malloc_ok h (pre ++ rest) nname = get_child_loop K malloc_ok
      h rest nname.
Proof.
  induction pre as [|c pre IH]; intros rest NZ PO; simpl; [reflexivity|].
  inversion NZ as [|? ? Hc NZ']; subst.
  inversion PO as [|? ? Hp PO']; subst. destruct Hp as [name [N S]].
  destruct (c =? 0) eqn:Z0; [lia|].
  rewrite N, S. apply IH; assumption.
Qed.

Lemma scan_match c name rest :
  c <> 0 -> hivex_node_name K malloc_ok h c = Ok name ->
  STRCASEEQ name nname = true ->
  get_child_loop K malloc_ok h (c :: rest) nname = c.
Proof.
  intros NZ N S. simpl. destruct (c =? 0) eqn:Z0; [lia|].
  rewrite N, S. reflexivity.
Qed.

Lemma scan_undecoded c rest :
  c_pointer (hivex_node_name K malloc_ok h c) = None ->
  get_child_loop K malloc_ok h (c :: rest) nname = 0.
Proof.
  intros N. simpl. destruct (c =? 0); [reflexivity|].
  destruct (hivex_node_name K malloc_ok h c); [discriminate|reflexivity].
Qed.

End Scan.

(** C6. [hivex_node_get_child] takes the children from
    [hivex_node_children] and returns 0 when that fails.  Otherwise it
    scans them in order, comparing each decoded name with [nname] without
    regard to case: it returns the first child whose name matches, and 0
    when the scan reaches a child whose name does not decode or passes over
    every child.  The result depends on [nname] up to case only, so
    "Software" and "SOFTWARE" give the same handle. *)
Theorem C6_get_child (K : hivex_internal) (malloc_ok : Z -> bool) (h : hive_h)
  (node : Z) (nname : list Z) :
  match hivex_node_children K malloc_ok h node with
  | None => hivex_node_get_child K malloc_ok h node nname = 0
  | Some arr =>
      arr = until_zero arr ++ [0]
      /\ (forall pre c post name,
            until_zero arr = pre ++ c :: post ->
            Forall (passed_over K malloc_ok h nname) pre ->
            hivex_node_name K malloc_ok h c = Ok name ->
            STRCASEEQ name nname = true ->
            hivex_node_get_child K malloc_ok h node nname = c)
      /\ (forall pre c post,
            until_zero arr = pre ++ c :: post ->
            Forall (passed_over K malloc_ok h nname) pre ->
            c_pointer (hivex_node_name K malloc_ok h c) = None ->
            hivex_node_get_child K malloc_ok h node nname = 0)
      /\ (Forall (passed_over K malloc_ok h nname) (until_zero arr) ->
          hivex_node_get_child K malloc_ok h node nname = 0)
  end
  /\ (forall nname',
        map c_tolower nname' = map c_tolower nname ->
        hivex_node_get_child K malloc_ok h node nname'
        = hivex_node_get_child K malloc_ok h node nname)
  /\ hivex_node_get_child K malloc_ok h node (c_string "Software")
     = hivex_node_get_child K malloc_ok h node (c_string "SOFTWARE").
Proof.
  assert (T : forall a b, map c_tolower a = map c_tolower b ->
                hivex_node_get_child K malloc_ok h node a
                = hivex_node_get_child K malloc_ok h node b).
  { intros a b E. unfold hivex_node_get_child.
    destruct (hivex_node_children K malloc_ok h node); [|reflexivity].
    apply get_child_loop_tolower; assumption. }
  split; [|split; [intros; apply T; assumption|apply T; reflexivity]].
  unfold hivex_node_get_child.
  destruct (hivex_node_children K malloc_ok h node) as [arr|] eqn:H;
      [|reflexivity].
  destruct (node_children_success K malloc_ok h node arr H) as (_ & cs & -> & F
      & _).
  assert (NZ : Forall (fun c => c <> 0) cs).
  { eapply Forall_impl; [|exact F]. intros c [_ N]; exact N. }
  rewrite (until_zero_sentinel cs NZ).
  split; [reflexivity|]. split; [|split].
  - intros pre c post name E PO N S. subst cs.
    apply Forall_app in NZ as [NZpre NZc].
    inversion NZc as [|? ? Hc _]; subst.
    rewrite <- app_assoc. rewrite scan_passes by assumption.
    eapply scan_match; eauto.
  - intros pre c post E PO N. subst cs.
    apply Forall_app in NZ as [NZpre NZc].
    rewrite <- app_assoc. rewrite scan_passes by assumption.
    apply scan_undecoded; assumption.
  - intros PO. rewrite scan_passes by assumption. reflexivity.
Qed.

Lemma C6_get_child_witness :
  hivex_node_get_child ntreg Fixture.granted Fixture.hive (Fixture.at_ 0)
    (c_string "SOFTWARE") = 4224.
Proof.
  assert (E : hivex_node_children ntreg Fixture.granted Fixture.hive
      (Fixture.at_ 0)
              = Some [4224; 4352; 4480; 0]) by (vm_compute; reflexivity).
  destruct (C6_get_child ntreg Fixture.granted Fixture.hive (Fixture.at_ 0)
              (c_string "SOFTWARE")) as (M & _).
  rewrite E in M. destruct M as (_ & First & _).
  apply (First [] 4224 [4352; 4480]
           (c_string "Software" ++ [0])).
  - reflexivity.
  - constructor.
  - vm_compute. reflexivity.
  - vm_compute. reflexivity.
Defined.

(** In the fixture: "SOFTWARE" finds the key named "Software"; under the
    key "Mixed", whose second child has a name that does not decode,
    "software" is found at the first child and "long" is not found. *)
Example get_child_fixture :
  hivex_node_get_child ntreg Fixture.granted Fixture.hive (Fixture.at_ 0)
    (c_string "SOFTWARE") = Fixture.at_ 1
  /\ hivex_node_get_child ntreg Fixture.granted Fixture.hive (Fixture.at_ 0)
       (c_string "sam") = Fixture.at_ 3
  /\ hivex_node_get_child ntreg Fixture.granted Fixture.hive (Fixture.at_ 0)
       (c_string "Security") = 0
  /\ hivex_node_get_child ntreg Fixture.granted Fixture.hive (Fixture.at_ 15)
       (c_string "software") = Fixture.at_ 1
  /\ hivex_node_get_child ntreg Fixture.granted Fixture.hive (Fixture.at_ 15)
       (c_string "long") = 0
  /\ hivex_node_get_child ntreg Fixture.granted Fixture.hive (Fixture.at_ 9)
       (c_string "Software") = 0.
Proof. vm_compute. repeat split. Qed.

(** ** A two-level index against a flat leaf *)

Section Fanout.

Variable K : hivex_internal.
Variable h : hive_h.
Variable flags : Z.

Lemma leaf_children_length lf :
  List.length (leaf_children h lf) = Z.to_nat (le16toh h (lf + 6)).
Proof. unfold leaf_children. rewrite length_map, length_seq. reflexivity. Qed.

Lemma leaf_ok_inv lf :
  leaf_ok K h flags lf = true ->
  (block_id0 h lf =? ascii_code "l")
  && ((block_id1 h lf =? ascii_code "f") || (block_id1 h lf =? ascii_code "h"))
  = true
  /\ (to_size_t (8 + le16toh h (lf + 6) * 8) >? fst (block_len h lf)) = false
  /\ Forall (fun c => check_child_is_nk_block K h c flags = Ok tt)
       (leaf_children h lf).
Proof.
  unfold leaf_ok. intros H.
  apply andb_true_iff in H as [H C]. apply andb_true_iff in H as [H S].
  apply andb_true_iff in H as [I0 I1].
  split; [rewrite I0, I1; reflexivity|]. split; [lia|].
  rewrite forallb_forall in C. apply Forall_forall. intros c I.
  specialize (C c I).
  destruct (check_child_is_nk_block K h c flags) as [[]|];
    [reflexivity|discriminate].
Qed.

Lemma index_ok_inv ri :
  index_ok K h flags ri = true ->
  (block_id0 h ri =? ascii_code "l")
  && ((block_id1 h ri =? ascii_code "f") || (block_id1 h ri =? ascii_code "h"))
  = false
  /\ (block_id0 h ri =? ascii_code "r") && (block_id1 h ri =? ascii_code "i")
     = true
  /\ (to_size_t (8 + le16toh h (ri + 6) * 4) >? fst (block_len h ri)) = false
  /\ Forall (fun b => IS_VALID_BLOCK h b = true
                      /\ leaf_ok K h flags b = true)
       (index_blocks h ri).
Proof.
  unfold index_ok. intros H.
  apply andb_true_iff in H as [H C]. apply andb_true_iff in H as [H S].
  apply andb_true_iff in H as [I0 I1].
  split.
  { apply Z.eqb_eq in I0. rewrite I0. reflexivity. }
  split; [rewrite I0, I1; reflexivity|]. split; [lia|].
  rewrite forallb_forall in C. apply Forall_forall. intros b I.
  specialize (C b I). apply andb_true_iff in C. exact C.
Qed.

(** The loop over a well-formed leaf, with room for its entries, appends
    them in order and leaves the blocks alone. *)
Lemma lf_loop_run lf NC n : forall i0 st,
  limit (children st) = Some NC ->
  _hivex_get_offset_list_length (children st) + Z.of_nat n <= NC ->
  Forall (fun c => check_child_is_nk_block K h c flags = Ok tt)
    (map (fun j => lf_key h lf (Z.of_nat j)) (seq i0 n)) ->
  exists st',
    lf_loop K h flags lf n (Z.of_nat i0) st = Some (Ok tt, st')
    /\ offsets (children st')
       = offsets (children st)
         ++ map (fun j => lf_key h lf (Z.of_nat j)) (seq i0 n)
    /\ limit (children st') = Some NC
    /\ blocks st' = blocks st.
Proof.
  induction n as [|n IH]; intros i0 st L R F.
  - exists st. simpl. rewrite app_nil_r. auto.
  - cbn [lf_loop seq map] in *.
    inversion F as [|? ? C F']; subst. rewrite C, bind_lift_ok.
    destruct (add_room (children st) (lf_key h lf (Z.of_nat i0)) NC L)
      as (l' & A & O & L'); [lia|].
    unfold bind at 1, add_child. rewrite A.
    replace (Z.of_nat i0 + 1) with (Z.of_nat (S i0)) by lia.
    destruct (IH (S i0) {| children := l'; blocks := blocks st |})
      as (st' & E & O' & L'' & B); simpl.
    + congruence.
    + unfold _hivex_get_offset_list_length in *.
      rewrite O, length_app_one. lia.
    + assumption.
    + exists st'. split; [exact E|]. simpl in O', B.
      rewrite O', O, <- app_assoc. auto.
Qed.

(** A visit of a well-formed leaf. *)
Lemma leaf_visit lf NB NC fuel st :
  leaf_ok K h flags lf = true ->
  limit (blocks st) = Some NB ->
  _hivex_get_offset_list_length (blocks st) < NB ->
  limit (children st) = Some NC ->
  _hivex_get_offset_list_length (children st)
  + Z.of_nat (List.length (leaf_children h lf)) <= NC ->
  exists st',
    _get_children K (S fuel) h lf flags st = Some (Ok tt, st')
    /\ offsets (children st') = offsets (children st) ++ leaf_children h lf
    /\ offsets (blocks st') = offsets (blocks st) ++ [lf]
    /\ limit (children st') = Some NC
    /\ limit (blocks st') = Some NB.
Proof.
  intros OK LB RB LC RC.
  apply leaf_ok_inv in OK as (T & S & F).
  rewrite get_children_step. unfold bind at 1, add_block.
  destruct (add_room (blocks st) lf NB LB RB) as (b & A & O & L').
  rewrite A, T, S.
  rewrite leaf_children_length in RC.
  destruct (lf_loop_run lf NC (Z.to_nat (le16toh h (lf + 6))) 0%nat
              {| children := children st; blocks := b |})
    as (st' & E & O' & L'' & B); simpl; auto.
  exists st'. change (Z.of_nat 0) with 0 in E. split; [exact E|].
  simpl in O', B. rewrite B. unfold leaf_children.
  repeat split; auto. congruence.
Qed.

(** The loop over an index whose entries are well-formed leaves, with room
    for the leaves and for their entries. *)
Lemma ri_loop_run ri NB NC fuel n : forall i0 st,
  limit (blocks st) = Some NB ->
  _hivex_get_offset_list_length (blocks st) + Z.of_nat n <= NB ->
  limit (children st) = Some NC ->
  _hivex_get_offset_list_length (children st)
  + Z.of_nat (List.length
                (flat_map (leaf_children h)
                   (map (fun j => ri_offset h ri (Z.of_nat j)) (seq i0 n))))
  <= NC ->
  Forall (fun b => IS_VALID_BLOCK h b = true /\ leaf_ok K h flags b = true)
    (map (fun j => ri_offset h ri (Z.of_nat j)) (seq i0 n)) ->
  exists st',
    ri_loop (fun off => _get_children K (S fuel) h off flags) h ri n
      (Z.of_nat i0) st = Some (Ok tt, st')
    /\ offsets (children st')
       = offsets (children st)
         ++ flat_map (leaf_children h)
              (map (fun j => ri_offset h ri (Z.of_nat j)) (seq i0 n))
    /\ offsets (blocks st')
       = offsets (blocks st)
         ++ map (fun j => ri_offset h ri (Z.of_nat j)) (seq i0 n)
    /\ limit (children st') = Some NC
    /\ limit (blocks st') = Some NB.
Proof.
  induction n as [|n IH]; intros i0 st LB RB LC RC F.
  - exists st. simpl. rewrite !app_nil_r. auto.
  - cbn [ri_loop seq map flat_map] in *.
    inversion F as [|? ? [V OK] F']; subst. rewrite V. cbn [negb].
    rewrite length_app in RC.
    destruct (leaf_visit (ri_offset h ri (Z.of_nat i0)) NB NC fuel st)
      as (st1 & E1 & C1 & B1 & LC1 & LB1); auto; try lia.
    unfold bind at 1. rewrite E1.
    replace (Z.of_nat i0 + 1) with (Z.of_nat (S i0)) by lia.
    destruct (IH (S i0) st1) as (st' & E & C & B & LC' & LB'); auto.
    + unfold _hivex_get_offset_list_length in *.
      rewrite B1, length_app_one. lia.
    + unfold _hivex_get_offset_list_length in *.
      rewrite C1, length_app. lia.
    + exists st'. split; [exact E|].
      rewrite C, C1, B, B1, <- !app_assoc. auto.
Qed.

(** A visit of a well-formed two-level index. *)
Lemma index_visit ri NB NC fuel st :
  index_ok K h flags ri = true ->
  limit (blocks st) = Some NB ->
  _hivex_get_offset_list_length (blocks st)
  + Z.of_nat (List.length (index_blocks h ri)) < NB ->
  limit (children st) = Some NC ->
  _hivex_get_offset_list_length (children st)
  + Z.of_nat (List.length (flat_map (leaf_children h) (index_blocks h ri)))
  <= NC ->
  exists st',
    _get_children K (S (S fuel)) h ri flags st = Some (Ok tt, st')
    /\ offsets (children st')
       = offsets (children st)
         ++ flat_map (leaf_children h) (index_blocks h ri)
    /\ offsets (blocks st')
       = offsets (blocks st) ++ ri :: index_blocks h ri.
Proof.
  intros OK LB RB LC RC.
  apply index_ok_inv in OK as (T0 & T & S & F).
  rewrite get_children_step. unfold bind at 1, add_block.
  destruct (add_room (blocks st) ri NB LB) as (b & A & O & L'); [lia|].
  rewrite A, T0, T, S.
  assert (Len : List.length (index_blocks h ri)
                = Z.to_nat (le16toh h (ri + 6))).
  { unfold index_blocks. rewrite length_map, length_seq. reflexivity. }
  assert (H1 : limit b = Some NB) by congruence.
  assert (H2 : _hivex_get_offset_list_length b
               + Z.of_nat (Z.to_nat (le16toh h (ri + 6))) <= NB).
  { rewrite <- Len. unfold _hivex_get_offset_list_length in *.
    rewrite O, length_app_one. lia. }
  destruct (ri_loop_run ri NB NC fuel (Z.to_nat (le16toh h (ri + 6))) 0%nat
              {| children := children st; blocks := b |} H1 H2 LC RC F)
    as (st' & E & C & B & _ & _).
  exists st'. change (Z.of_nat 0) with 0 in E. split; [exact E|].
  simpl in C, B. fold (index_blocks h ri) in C, B.
  rewrite C, B, O, <- app_assoc. auto.
Qed.

End Fanout.

Lemma leaf_children_nonzero h lf :
  Forall (fun c => c <> 0) (leaf_children h lf).
Proof.
  unfold leaf_children. apply Forall_forall. intros c I.
  apply in_map_iff in I as (j & <- & _).
  pose proof (lf_key_biased h lf (Z.of_nat j)). lia.
Qed.

Lemma node_children_no_subkeys K malloc_ok h node :
  is_nk h node = true ->
  le32toh h (node + nk_nr_subkeys K) = 0 ->
  hivex_node_children K malloc_ok h node = Some [0].
Proof.
  intros NK Z0. unfold hivex_node_children.
  pose proof (get_children_budget K malloc_ok h node 0 _ (Nat.le_refl _)) as B.
  rewrite get_children_fuel_no_subkeys in B by assumption.
  injection B as <-. reflexivity.
Qed.

(** A completed walk that found as many children as the key declares is
    what [hivex_node_children] returns, with the sentinel. *)
Lemma node_children_of_walk K malloc_ok h node fuel st' :
  is_nk h node = true ->
  0 < le32toh h (node + nk_nr_subkeys K) <= HIVEX_MAX_SUBKEYS K ->
  malloc_ok (8 * le32toh h (node + nk_nr_subkeys K)) = true ->
  IS_VALID_BLOCK h (to_size_t (le32toh h (node + nk_subkey_lf K) + 0x1000))
  = true ->
  (fuel <= walk_budget K)%nat ->
  _get_children K fuel h
    (to_size_t (le32toh h (node + nk_subkey_lf K) + 0x1000)) 0
    (walker_lists K (le32toh h (node + nk_nr_subkeys K)))
  = Some (Ok tt, st') ->
  Z.of_nat (List.length (offsets (children st')))
  = le32toh h (node + nk_nr_subkeys K) ->
  hivex_node_children K malloc_ok h node = Some (offsets (children st') ++ [0]).
Proof.
  intros NK R A V Hfuel W L.
  apply (get_children_mono K h 0 _ _ _ _ _ Hfuel) in W.
  pose proof (get_children_budget K malloc_ok h node 0 _ (Nat.le_refl _)) as B.
  rewrite get_children_fuel_walk in B by assumption.
  rewrite V in B. cbn [negb] in B. rewrite W in B.
  unfold _hivex_get_offset_list_length in B. rewrite L, Z.eqb_refl in B.
  cbn [negb] in B. injection B as B.
  unfold hivex_node_children. rewrite <- B. reflexivity.
Qed.

(** C8. A key whose subkey block is an "ri" index over well-formed
    "lf"/"lh" leaves, and that declares the total number N of their
    entries, enumerates exactly those N children, leaf after leaf and entry
    after entry; a key over one flat leaf holding the same N entries in the
    same order enumerates the same array.  Both keys are within the
    ceiling, N and the number of visited blocks not exceeding
    HIVEX_MAX_SUBKEYS, and the storage for N offsets is granted. *)
Theorem C8_two_level_as_flat (K : hivex_internal) (malloc_ok : Z -> bool)
  (h1 : hive_h) (n1 : Z) (h2 : hive_h) (n2 : Z) :
  is_nk h1 n1 = true ->
  is_nk h2 n2 = true ->
  let ri := to_size_t (le32toh h1 (n1 + nk_subkey_lf K) + 0x1000) in
  let lf := to_size_t (le32toh h2 (n2 + nk_subkey_lf K) + 0x1000) in
  let leaves := flat_map (leaf_children h1) (index_blocks h1 ri) in
  IS_VALID_BLOCK h1 ri = true ->
  index_ok K h1 0 ri = true ->
  IS_VALID_BLOCK h2 lf = true ->
  leaf_ok K h2 0 lf = true ->
  leaf_children h2 lf = leaves ->
  le32toh h1 (n1 + nk_nr_subkeys K) = Z.of_nat (List.length leaves) ->
  le32toh h2 (n2 + nk_nr_subkeys K) = Z.of_nat (List.length leaves) ->
  Z.of_nat (List.length leaves) <= HIVEX_MAX_SUBKEYS K ->
  Z.of_nat (List.length (index_blocks h1 ri)) < HIVEX_MAX_SUBKEYS K ->
  malloc_ok (8 * Z.of_nat (List.length leaves)) = true ->
  hivex_node_children K malloc_ok h1 n1 = Some (leaves ++ [0])
  /\ hivex_node_children K malloc_ok h2 n2 = Some (leaves ++ [0])
  /\ until_zero (leaves ++ [0]) = leaves
  /\ Z.of_nat (List.length (until_zero (leaves ++ [0])))
     = le32toh h1 (n1 + nk_nr_subkeys K).
Proof.
  intros NK1 NK2 ri lf leaves V1 OK1 V2 OK2 Same N1 N2 Max Blocks Mem.
  assert (U : until_zero (leaves ++ [0]) = leaves).
  { apply until_zero_sentinel. rewrite <- Same. apply leaf_children_nonzero. }
  assert (B : (2 <= walk_budget K)%nat) by (unfold walk_budget; lia).
  rewrite U.
  destruct (Z.eq_dec (Z.of_nat (List.length leaves)) 0) as [Z0|N0].
  { assert (E : leaves = [])
      by (destruct leaves; [reflexivity|simpl in Z0; lia]).
    rewrite E in *. simpl.
    rewrite !node_children_no_subkeys by assumption. auto. }
  assert (R1 : 0 < le32toh h1 (n1 + nk_nr_subkeys K) <= HIVEX_MAX_SUBKEYS K)
    by lia.
  assert (R2 : 0 < le32toh h2 (n2 + nk_nr_subkeys K) <= HIVEX_MAX_SUBKEYS K)
    by lia.
  assert (M1 : malloc_ok (8 * le32toh h1 (n1 + nk_nr_subkeys K)) = true)
    by (rewrite N1; exact Mem).
  assert (M2 : malloc_ok (8 * le32toh h2 (n2 + nk_nr_subkeys K)) = true)
    by (rewrite N2; exact Mem).
  split; [|split; [|split; [reflexivity|symmetry; assumption]]].
  - assert (RB : _hivex_get_offset_list_length
                   (blocks (walker_lists K (le32toh h1 (n1 + nk_nr_subkeys K))))
                 + Z.of_nat (List.length (index_blocks h1 ri))
                 < HIVEX_MAX_SUBKEYS K)
      by (unfold _hivex_get_offset_list_length; simpl; lia).
    assert (RC : _hivex_get_offset_list_length
                   (children
                      (walker_lists K (le32toh h1 (n1 + nk_nr_subkeys K))))
                 + Z.of_nat (List.length leaves)
                 <= le32toh h1 (n1 + nk_nr_subkeys K))
      by (unfold _hivex_get_offset_list_length; simpl; lia).
    destruct (index_visit K h1 0 ri (HIVEX_MAX_SUBKEYS K)
                (le32toh h1 (n1 + nk_nr_subkeys K)) 0%nat
                (walker_lists K (le32toh h1 (n1 + nk_nr_subkeys K)))
                OK1 eq_refl RB eq_refl RC)
      as (st' & W & C & _).
    simpl in C. fold leaves in C. rewrite <- C.
    apply (node_children_of_walk K malloc_ok h1 n1 2%nat st');
      try assumption.
    rewrite C. symmetry. assumption.
  - assert (RB : _hivex_get_offset_list_length
                   (blocks (walker_lists K (le32toh h2 (n2 + nk_nr_subkeys K))))
                 < HIVEX_MAX_SUBKEYS K)
      by (unfold _hivex_get_offset_list_length; simpl; lia).
    assert (RC : _hivex_get_offset_list_length
                   (children
                      (walker_lists K (le32toh h2 (n2 + nk_nr_subkeys K))))
                 + Z.of_nat (List.length (leaf_children h2 lf))
                 <= le32toh h2 (n2 + nk_nr_subkeys K))
      by (unfold _hivex_get_offset_list_length; simpl; rewrite Same; lia).
    destruct (leaf_visit K h2 0 lf (HIVEX_MAX_SUBKEYS K)
                (le32toh h2 (n2 + nk_nr_subkeys K)) 0%nat
                (walker_lists K (le32toh h2 (n2 + nk_nr_subkeys K)))
                OK2 eq_refl RB eq_refl RC)
      as (st' & W & C & _).
    simpl in C. rewrite Same in C. rewrite <- C.
    apply (node_children_of_walk K malloc_ok h2 n2 1%nat st');
      try assumption.
    + lia.
    + rewrite C. symmetry. assumption.
Qed.

Lemma C8_two_level_as_flat_witness :
  hivex_node_children ntreg Fixture.granted Fixture.hive (Fixture.at_ 0)
  = Some ([4224; 4352; 4480] ++ [0])
  /\ hivex_node_children ntreg Fixture.granted Fixture.hive (Fixture.at_ 7)
     = Some ([4224; 4352; 4480] ++ [0]).
Proof.
  assert (NK1 : is_nk Fixture.hive (Fixture.at_ 0) = true)
    by (vm_compute; reflexivity).
  assert (NK2 : is_nk Fixture.hive (Fixture.at_ 7) = true)
    by (vm_compute; reflexivity).
  destruct (C8_two_level_as_flat ntreg Fixture.granted Fixture.hive
      (Fixture.at_ 0)
              Fixture.hive (Fixture.at_ 7) NK1 NK2)
    as (A & B & _); try (vm_compute; reflexivity).
  - vm_compute. discriminate.
  - split; [exact A|exact B].
Defined.

(** * Further properties of node.c *)

(** ** Handles that are not keys, and sentinels *)

Lemma le64toh_range h off : 0 <= le64toh h off < 2 ^ 64.
Proof.
  unfold le64toh.
  pose proof (le32toh_range h off). pose proof (le32toh_range h (off + 4)).
  lia.
Qed.

(** X1. Every entry point that takes a node handle refuses a handle that is
    not a valid block tagged "nk" with EINVAL, returning its sentinel: 0,
    NULL, -1, and for the child lookup the null handle. *)
Theorem X1_not_a_key (K : hivex_internal) (malloc_ok : Z -> bool)
  (h : hive_h) (node : Z) (flags : Z) (nname : list Z) :
  is_nk h node = false ->
  hivex_node_struct_length K h node = Err EINVAL not_an_nk_block
  /\ hivex_node_name K malloc_ok h node = Err EINVAL not_an_nk_block
  /\ hivex_node_timestamp K h node = Err EINVAL not_an_nk_block
  /\ hivex_node_parent K h node = Err EINVAL not_an_nk_block
  /\ return_value (_hivex_get_children K malloc_ok h node flags) = -1
  /\ error (_hivex_get_children K malloc_ok h node flags)
     = Some (EINVAL, not_an_nk_block)
  /\ hivex_node_children K malloc_ok h node = None
  /\ hivex_node_get_child K malloc_ok h node nname = 0.
Proof.
  intros NK. pose proof (not_nk_guard _ _ NK) as G.
  assert (E : forall f, _hivex_get_children K malloc_ok h node f
                = {| return_value := -1;
                     error := Some (EINVAL, not_an_nk_block);
                     children_ret := None; blocks_ret := None;
                     freed := None |}).
  { intros f.
    pose proof (get_children_budget K malloc_ok h node f _ (Nat.le_refl _))
      as B.
    rewrite get_children_fuel_not_nk in B by assumption.
    injection B as B. symmetry. exact B. }
  unfold hivex_node_struct_length, hivex_node_name, hivex_node_timestamp,
    hivex_node_parent, hivex_node_get_child, hivex_node_children.
  rewrite G, !E. simpl. repeat split.
Qed.

Lemma X1_not_a_key_witness :
  hivex_node_children ntreg Fixture.granted Fixture.hive (Fixture.at_ 5)
  = None
  /\ hivex_node_parent ntreg Fixture.hive (Fixture.at_ 5)
     = Err EINVAL not_an_nk_block.
Proof.
  assert (NK : is_nk Fixture.hive (Fixture.at_ 5) = false)
    by (vm_compute; reflexivity).
  destruct (X1_not_a_key ntreg Fixture.granted Fixture.hive (Fixture.at_ 5)
              0 [] NK) as (_ & _ & _ & P & _ & _ & C & _).
  split; [exact C|exact P].
Defined.

(** X2. The sentinels cannot be taken for results: provided the key record
    is larger than one byte, [hivex_node_struct_length] returns 0,
    [hivex_node_timestamp] returns -1 and [hivex_node_parent] returns 0
    only when they fail. *)
Theorem X2_sentinels (K : hivex_internal) (h : hive_h) (node : Z) :
  1 < sizeof_nk_record K < 2 ^ 32 ->
  (c_size_t (hivex_node_struct_length K h node) = 0
   <-> errno_of (hivex_node_struct_length K h node) <> None)
  /\ (c_int64 (hivex_node_timestamp K h node) = -1
      <-> errno_of (hivex_node_timestamp K h node) <> None)
  /\ (c_size_t (hivex_node_parent K h node) = 0
      <-> errno_of (hivex_node_parent K h node) <> None).
Proof.
  intros S. split; [|split].
  - unfold hivex_node_struct_length.
    destruct (negb (IS_VALID_BLOCK h node)
              || negb (BLOCK_ID_EQ h node "n" "k"));
      cbn [c_size_t c_int64 errno_of].
    { split; [intros _; discriminate|intros _; reflexivity]. }
    pose proof (le16toh_range h (node + nk_name_len K)) as R.
    rewrite to_size_t_small by lia.
    destruct (le16toh h (node + nk_name_len K) + sizeof_nk_record K - 1
              >? fst (block_len h node)); cbn [c_size_t c_int64 errno_of].
    + split; [intros _; discriminate|intros _; reflexivity].
    + split; [intros; lia|intros N; congruence].
  - unfold hivex_node_timestamp.
    destruct (negb (IS_VALID_BLOCK h node)
              || negb (BLOCK_ID_EQ h node "n" "k"));
      cbn [c_size_t c_int64 errno_of].
    { split; [intros _; discriminate|intros _; reflexivity]. }
    unfold timestamp_check.
    destruct (to_int64 (le64toh h (node + nk_timestamp K)) <? 0) eqn:T;
      cbn [c_size_t c_int64 errno_of].
    + split; [intros _; discriminate|intros _; reflexivity].
    + split; [intros; lia|intros N; congruence].
  - unfold hivex_node_parent.
    destruct (negb (IS_VALID_BLOCK h node)
              || negb (BLOCK_ID_EQ h node "n" "k"));
      cbn [c_size_t c_int64 errno_of].
    { split; [intros _; discriminate|intros _; reflexivity]. }
    rewrite biased_offset.
    pose proof (le32toh_range h (node + nk_parent K)) as R.
    destruct (negb (IS_VALID_BLOCK h (le32toh h (node + nk_parent K) + 4096)));
      cbn [c_size_t c_int64 errno_of].
    + split; [intros _; discriminate|intros _; reflexivity].
    + split; [intros; lia|intros N; congruence].
Qed.

Lemma X2_sentinels_witness :
  c_int64 (hivex_node_timestamp ntreg Fixture.hive (Fixture.at_ 14)) = -1.
Proof.
  assert (S : 1 < sizeof_nk_record ntreg < 2 ^ 32) by (simpl; lia).
  destruct (X2_sentinels ntreg Fixture.hive (Fixture.at_ 14) S)
    as (_ & T & _).
  apply T. vm_compute. discriminate.
Defined.

(** ** The name and the length of a key record *)

Lemma memcpy_length h n : forall src, List.length (memcpy h src n) = n.
Proof.
  induction n as [|n IH]; intros src; simpl; [reflexivity|].
  rewrite IH. reflexivity.
Qed.

Lemma memcpy_nth h n : forall src i d,
  (i < n)%nat -> nth i (memcpy h src n) d = byte_at h (src + Z.of_nat i).
Proof.
  induction n as [|n IH]; intros src i d Hi; [lia|].
  destruct i as [|i]; cbn [memcpy nth].
  - f_equal. simpl. lia.
  - rewrite IH by lia. f_equal. lia.
Qed.

Lemma node_name_success (K : hivex_internal) (malloc_ok : Z -> bool)
  (h : hive_h) (node : Z) (name : list Z) :
  hivex_node_name K malloc_ok h node = Ok name ->
  is_nk h node = true
  /\ to_size_t (sizeof_nk_record K + le16toh h (node + nk_name_len K) - 1)
     <= fst (block_len h node)
  /\ name = memcpy h (node + nk_name K)
              (Z.to_nat (le16toh h (node + nk_name_len K))) ++ [0].
Proof.
  unfold hivex_node_name. destruct (is_nk h node) eqn:NK.
  2:{ rewrite (not_nk_guard _ _ NK). discriminate. }
  rewrite (is_nk_guard _ _ NK).
  destruct (to_size_t
              (sizeof_nk_record K + le16toh h (node + nk_name_len K) - 1)
            >? fst (block_len h node)) eqn:T; [discriminate|].
  destruct (negb (malloc_ok (le16toh h (node + nk_name_len K) + 1)));
    [discriminate|].
  intros [= <-]. repeat split. lia.
Qed.

(** X3. The buffer [hivex_node_name] returns holds the [name_len] bytes
    that follow the record header in the image, then a nul; every byte it
    copied lies inside the declared length of the key's block ([name] being
    the last, one-byte field of the record). *)
Theorem X3_name_bytes (K : hivex_internal) (malloc_ok : Z -> bool)
  (h : hive_h) (node : Z) (name : list Z) :
  0 <= nk_name K ->
  nk_name K + 1 = sizeof_nk_record K ->
  sizeof_nk_record K < 2 ^ 32 ->
  hivex_node_name K malloc_ok h node = Ok name ->
  let len := Z.to_nat (le16toh h (node + nk_name_len K)) in
  List.length name = S len
  /\ nth len name 1 = 0
  /\ forall i, (i < len)%nat ->
       nth i name 0 = byte_at h (node + nk_name K + Z.of_nat i)
       /\ nk_name K + Z.of_nat i < fst (block_len h node).
Proof.
  intros N0 L S H len.
  destruct (node_name_success K malloc_ok h node name H) as (_ & B & ->).
  pose proof (le16toh_range h (node + nk_name_len K)) as R.
  rewrite to_size_t_small in B by lia.
  fold len. split; [|split].
  - rewrite length_app, memcpy_length. simpl. lia.
  - rewrite app_nth2 by (rewrite memcpy_length; lia).
    rewrite memcpy_length, Nat.sub_diag. reflexivity.
  - intros i Hi. split.
    + rewrite app_nth1 by (rewrite memcpy_length; exact Hi).
      apply memcpy_nth. exact Hi.
    + unfold len in Hi. lia.
Qed.

Lemma X3_name_bytes_witness :
  nth 0 (c_string "Software" ++ [0]) 0
  = byte_at Fixture.hive (Fixture.at_ 1 + nk_name ntreg + 0).
Proof.
  assert (H : hivex_node_name ntreg Fixture.granted Fixture.hive
                (Fixture.at_ 1) = Ok (c_string "Software" ++ [0]))
    by (vm_compute; reflexivity).
  assert (N0 : 0 <= nk_name ntreg) by (simpl; lia).
  assert (S : sizeof_nk_record ntreg < 2 ^ 32) by (simpl; lia).
  destruct (X3_name_bytes ntreg Fixture.granted Fixture.hive (Fixture.at_ 1)
              _ N0 eq_refl S H) as (_ & _ & B).
  apply (B 0%nat). vm_compute. lia.
Defined.

(** X4. [hivex_node_struct_length] and [hivex_node_name] agree: when the
    name is returned, the length is the header size plus the number of name
    bytes, minus the one byte they share; when the length is returned it
    does not exceed the block, and the name can only fail for want of
    memory. *)
Theorem X4_length_and_name (K : hivex_internal) (malloc_ok : Z -> bool)
  (h : hive_h) (node : Z) :
  0 < sizeof_nk_record K < 2 ^ 32 ->
  (forall name,
     hivex_node_name K malloc_ok h node = Ok name ->
     hivex_node_struct_length K h node
     = Ok (sizeof_nk_record K - 2 + Z.of_nat (List.length name)))
  /\ (forall v,
        hivex_node_struct_length K h node = Ok v ->
        sizeof_nk_record K - 1 <= v <= fst (block_len h node)
        /\ (hivex_node_name K malloc_ok h node
            = Err ENOMEM allocation_failed
            \/ exists name,
                 hivex_node_name K malloc_ok h node = Ok name
                 /\ v = sizeof_nk_record K - 2
                        + Z.of_nat (List.length name))).
Proof.
  intros S.
  pose proof (le16toh_range h (node + nk_name_len K)) as R.
  split.
  - intros name H.
    destruct (node_name_success K malloc_ok h node name H) as (NK & B & ->).
    rewrite to_size_t_small in B by lia.
    unfold hivex_node_struct_length. rewrite (is_nk_guard _ _ NK).
    rewrite to_size_t_small by lia.
    destruct (le16toh h (node + nk_name_len K) + sizeof_nk_record K - 1
              >? fst (block_len h node)) eqn:T; [lia|].
    f_equal. rewrite length_app, memcpy_length. simpl. lia.
  - intros v. unfold hivex_node_struct_length, hivex_node_name.
    destruct (negb (IS_VALID_BLOCK h node)
              || negb (BLOCK_ID_EQ h node "n" "k")); [discriminate|].
    rewrite !to_size_t_small by lia.
    destruct (le16toh h (node + nk_name_len K) + sizeof_nk_record K - 1
              >? fst (block_len h node)) eqn:T; [discriminate|].
    intros [= <-]. split; [lia|].
    destruct (sizeof_nk_record K + le16toh h (node + nk_name_len K) - 1
              >? fst (block_len h node)) eqn:T'; [lia|].
    destruct (negb (malloc_ok (le16toh h (node + nk_name_len K) + 1)));
      [left; reflexivity|right].
    eexists. split; [reflexivity|].
    rewrite length_app, memcpy_length. simpl. lia.
Qed.

Lemma X4_length_and_name_witness :
  hivex_node_struct_length ntreg Fixture.hive (Fixture.at_ 1) = Ok 88.
Proof.
  assert (S : 0 < sizeof_nk_record ntreg < 2 ^ 32) by (simpl; lia).
  destruct (X4_length_and_name ntreg Fixture.granted Fixture.hive
              (Fixture.at_ 1) S) as (A & _).
  apply (A (c_string "Software" ++ [0])). vm_compute. reflexivity.
Defined.

(** ** The walker on index trees of any depth *)

Lemma appended_refl st : appended st st [] [].
Proof. unfold appended. rewrite !app_nil_r. auto. Qed.

Lemma appended_trans st1 st2 st3 c1 b1 c2 b2 :
  appended st1 st2 c1 b1 -> appended st2 st3 c2 b2 ->
  appended st1 st3 (c1 ++ c2) (b1 ++ b2).
Proof.
  intros (C1 & B1 & LC1 & LB1) (C2 & B2 & LC2 & LB2). unfold appended.
  rewrite C2, C1, B2, B1, !app_assoc. repeat split; congruence.
Qed.

Lemma fits_add l x n :
  fits l (S n) ->
  exists l', _hivex_add_to_offset_list l x = Ok l'
             /\ offsets l' = offsets l ++ [x] /\ limit l' = limit l.
Proof.
  intros F. unfold _hivex_add_to_offset_list, over_limit.
  destruct (limit l) as [N|] eqn:E.
  - specialize (F N E).
    destruct (N <=? _hivex_get_offset_list_length l) eqn:T; [lia|].
    eexists. split; [reflexivity|]. simpl. auto.
  - eexists. split; [reflexivity|]. simpl. auto.
Qed.

(** Room for [xs] and [n] more is, once [xs] is there, room for [n]. *)
Lemma fits_after l l' xs n :
  offsets l' = offsets l ++ xs -> limit l' = limit l ->
  fits l (List.length xs + n) -> fits l' n.
Proof.
  intros O L F N E. rewrite L in E. specialize (F N E).
  unfold _hivex_get_offset_list_length in *. rewrite O, length_app. lia.
Qed.

Lemma fits_before l l' xs n :
  offsets l' = offsets l ++ xs -> limit l' = limit l ->
  fits l' n -> fits l (List.length xs + n).
Proof.
  intros O L F N E. rewrite <- L in E. specialize (F N E).
  unfold _hivex_get_offset_list_length in *.
  rewrite O, length_app in F. lia.
Qed.

Lemma fits_less l n m : (m <= n)%nat -> fits l n -> fits l m.
Proof. intros Le F N E. specialize (F N E). lia. Qed.

Lemma add_ok_fits l x l' :
  _hivex_add_to_offset_list l x = Ok l' -> fits l 1.
Proof.
  intros A N E. apply add_ok in A as (_ & _ & R). specialize (R N E). lia.
Qed.

Section Tree.

Variable K : hivex_internal.
Variable h : hive_h.
Variable flags : Z.

Local Abbreviation entries lf i0 n :=
  (map (fun j => lf_key h lf (Z.of_nat j)) (seq i0 n)).
Local Abbreviation targets ri i0 n :=
  (map (fun j => ri_offset h ri (Z.of_nat j)) (seq i0 n)).
Local Abbreviation accepted :=
  (fun c => check_child_is_nk_block K h c flags = Ok tt).

Lemma lf_loop_sound lf n : forall i0 st,
  fits (children st) n ->
  Forall accepted (entries lf i0 n) ->
  exists st',
    lf_loop K h flags lf n (Z.of_nat i0) st = Some (Ok tt, st')
    /\ appended st st' (entries lf i0 n) [].
Proof.
  induction n as [|n IH]; intros i0 st R F.
  - exists st. split; [reflexivity|apply appended_refl].
  - cbn [lf_loop seq map] in *.
    inversion F as [|? ? C F']; subst. rewrite C, bind_lift_ok.
    destruct (fits_add (children st) (lf_key h lf (Z.of_nat i0)) n R)
      as (l' & A & O & L).
    unfold bind at 1, add_child. rewrite A.
    replace (Z.of_nat i0 + 1) with (Z.of_nat (S i0)) by lia.
    destruct (IH (S i0) {| children := l'; blocks := blocks st |})
      as (st' & E & Ap); [|assumption|].
    + apply (fits_after (children st) l' [lf_key h lf (Z.of_nat i0)] n);
        assumption.
    + exists st'. split; [exact E|].
      apply (appended_trans st {| children := l'; blocks := blocks st |} st'
               [lf_key h lf (Z.of_nat i0)] [] _ []); [|exact Ap].
      unfold appended; simpl. rewrite app_nil_r. auto.
Qed.

Lemma lf_loop_complete lf n : forall i0 st st',
  lf_loop K h flags lf n (Z.of_nat i0) st = Some (Ok tt, st') ->
  Forall accepted (entries lf i0 n) /\ appended st st' (entries lf i0 n) [].
Proof.
  induction n as [|n IH]; intros i0 st st' H.
  - injection H as <-. split; [constructor|apply appended_refl].
  - cbn [lf_loop seq map] in *.
    destruct (check_child_is_nk_block K h (lf_key h lf (Z.of_nat i0)) flags)
      as [[]|e m] eqn:C.
    2:{ rewrite bind_lift_err in H. discriminate. }
    rewrite bind_lift_ok in H. unfold bind at 1, add_child in H.
    destruct (_hivex_add_to_offset_list (children st)
                (lf_key h lf (Z.of_nat i0))) as [l'|e m] eqn:A;
      [|discriminate].
    replace (Z.of_nat i0 + 1) with (Z.of_nat (S i0)) in H by lia.
    apply IH in H as (F & Ap). apply add_ok in A as (O & L & _).
    split; [constructor; assumption|].
    apply (appended_trans st {| children := l'; blocks := blocks st |} st'
             [lf_key h lf (Z.of_nat i0)] [] _ []); [|exact Ap].
    unfold appended; simpl. rewrite app_nil_r. auto.
Qed.

Lemma ri_loop_sound (rec : Z -> walk unit) (ok : Z -> bool)
  (C B : Z -> list Z) ri :
  (forall b st,
     ok b = true ->
     fits (blocks st) (List.length (B b)) ->
     fits (children st) (List.length (C b)) ->
     exists st', rec b st = Some (Ok tt, st') /\ appended st st' (C b) (B b)) ->
  forall n i0 st,
    Forall (fun b => IS_VALID_BLOCK h b = true /\ ok b = true)
      (targets ri i0 n) ->
    fits (blocks st) (List.length (flat_map B (targets ri i0 n))) ->
    fits (children st) (List.length (flat_map C (targets ri i0 n))) ->
    exists st',
      ri_loop rec h ri n (Z.of_nat i0) st = Some (Ok tt, st')
      /\ appended st st' (flat_map C (targets ri i0 n))
           (flat_map B (targets ri i0 n)).
Proof.
  intros Hrec. induction n as [|n IH]; intros i0 st F RB RC.
  - exists st. split; [reflexivity|apply appended_refl].
  - cbn [ri_loop seq map flat_map] in *.
    inversion F as [|? ? [V OK] F']; subst. rewrite V. cbn [negb].
    rewrite length_app in RB, RC.
    destruct (Hrec (ri_offset h ri (Z.of_nat i0)) st OK)
      as (st1 & E1 & Ap1).
    { eapply fits_less; [|exact RB]. lia. }
    { eapply fits_less; [|exact RC]. lia. }
    unfold bind at 1. rewrite E1.
    replace (Z.of_nat i0 + 1) with (Z.of_nat (S i0)) by lia.
    destruct Ap1 as (C1 & B1 & LC1 & LB1).
    destruct (IH (S i0) st1 F') as (st' & E & Ap).
    { eapply fits_after; eauto. }
    { eapply fits_after; eauto. }
    exists st'. split; [exact E|].
    eapply appended_trans; [|exact Ap]. unfold appended; auto.
Qed.

Lemma ri_loop_complete (rec : Z -> walk unit) (ok : Z -> bool)
  (C B : Z -> list Z) ri :
  (forall b st st',
     rec b st = Some (Ok tt, st') ->
     ok b = true /\ appended st st' (C b) (B b)) ->
  forall n i0 st st',
    ri_loop rec h ri n (Z.of_nat i0) st = Some (Ok tt, st') ->
    Forall (fun b => IS_VALID_BLOCK h b = true /\ ok b = true)
      (targets ri i0 n)
    /\ appended st st' (flat_map C (targets ri i0 n))
         (flat_map B (targets ri i0 n)).
Proof.
  intros Hrec. induction n as [|n IH]; intros i0 st st' H.
  - injection H as <-. split; [constructor|apply appended_refl].
  - cbn [ri_loop seq map flat_map] in *.
    destruct (IS_VALID_BLOCK h (ri_offset h ri (Z.of_nat i0))) eqn:V;
      cbn [negb] in H; [|discriminate].
    unfold bind at 1 in H.
    destruct (rec (ri_offset h ri (Z.of_nat i0)) st)
      as [[[[]|e m] st1]|] eqn:E1; [| discriminate | discriminate].
    replace (Z.of_nat i0 + 1) with (Z.of_nat (S i0)) in H by lia.
    apply Hrec in E1 as (OK & Ap1). apply IH in H as (F & Ap).
    split; [constructor; auto|]. eapply appended_trans; eauto.
Qed.

Lemma leaf_ok_tag lf : leaf_ok K h flags lf = true -> is_leaf_tag h lf = true.
Proof.
  intros H. apply leaf_ok_inv in H as (T & _). exact T.
Qed.

(** A well-formed tree with room for its blocks and keys is walked with
    success, appending its keys and its blocks. *)
Lemma walk_sound fuel : forall blk st,
  tree_ok K h flags fuel blk = true ->
  fits (blocks st) (List.length (tree_blocks h fuel blk)) ->
  fits (children st) (List.length (tree_children h fuel blk)) ->
  exists st',
    _get_children K fuel h blk flags st = Some (Ok tt, st')
    /\ appended st st' (tree_children h fuel blk) (tree_blocks h fuel blk).
Proof.
  induction fuel as [|fuel IH]; intros blk st OK RB RC; [discriminate|].
  cbn [tree_ok tree_blocks tree_children] in *.
  rewrite get_children_step. unfold bind at 1, add_block.
  cbn [List.length] in RB.
  destruct (fits_add (blocks st) blk _ RB) as (b & A & O & L).
  rewrite A. fold (is_leaf_tag h blk). fold (is_index_tag h blk).
  assert (Ap0 : appended st {| children := children st; blocks := b |}
                  [] [blk]).
  { unfold appended; simpl. rewrite app_nil_r. auto. }
  destruct (is_leaf_tag h blk) eqn:T.
  - apply leaf_ok_inv in OK as (_ & S & F). rewrite S.
    destruct (lf_loop_sound blk (Z.to_nat (le16toh h (blk + 6))) 0%nat
                {| children := children st; blocks := b |})
      as (st' & E & Ap).
    + cbn [children]. rewrite <- leaf_children_length. exact RC.
    + exact F.
    + exists st'. change (Z.of_nat 0) with 0 in E. split; [exact E|].
      apply (appended_trans _ _ _ [] [blk] _ [] Ap0 Ap).
  - apply andb_true_iff in OK as [OK F]. apply andb_true_iff in OK as [I S].
    rewrite I.
    destruct (to_size_t (8 + le16toh h (blk + 6) * 4)
              >? fst (block_len h blk)) eqn:G; [lia|].
    rewrite forallb_forall in F.
    destruct (ri_loop_sound
                (fun offset => _get_children K fuel h offset flags)
                (tree_ok K h flags fuel) (tree_children h fuel)
                (tree_blocks h fuel) blk IH
                (Z.to_nat (le16toh h (blk + 6))) 0%nat
                {| children := children st; blocks := b |})
      as (st' & E & Ap).
    + apply Forall_forall. intros x I'. specialize (F x I').
      apply andb_true_iff in F. exact F.
    + cbn [blocks]. eapply (fits_after (blocks st) b [blk]); eauto.
    + exact RC.
    + exists st'. change (Z.of_nat 0) with 0 in E. split; [exact E|].
      apply (appended_trans _ _ _ [] [blk] _ _ Ap0 Ap).
Qed.

(** A walk that succeeds went through a well-formed tree and appended its
    keys and its blocks. *)
Lemma walk_complete fuel : forall blk st st',
  _get_children K fuel h blk flags st = Some (Ok tt, st') ->
  tree_ok K h flags fuel blk = true
  /\ appended st st' (tree_children h fuel blk) (tree_blocks h fuel blk).
Proof.
  induction fuel as [|fuel IH]; intros blk st st' H; [discriminate|].
  cbn [tree_ok tree_blocks tree_children].
  rewrite get_children_step in H. unfold bind at 1, add_block in H.
  destruct (_hivex_add_to_offset_list (blocks st) blk) as [b|e m] eqn:A;
    [|discriminate].
  apply add_ok in A as (O & L & _).
  fold (is_leaf_tag h blk) in H. fold (is_index_tag h blk) in H.
  assert (Ap0 : appended st {| children := children st; blocks := b |}
                  [] [blk]).
  { unfold appended; simpl. rewrite app_nil_r. auto. }
  destruct (is_leaf_tag h blk) eqn:T.
  - destruct (to_size_t (8 + le16toh h (blk + 6) * 8)
              >? fst (block_len h blk)) eqn:S; [discriminate|].
    change 0 with (Z.of_nat 0) in H.
    apply lf_loop_complete in H as (F & Ap). split.
    + unfold leaf_ok. fold (is_leaf_tag h blk). rewrite T. cbn [andb].
      apply andb_true_iff. split; [lia|].
      apply forallb_forall. intros c I. rewrite Forall_forall in F.
      unfold leaf_children in I. rewrite (F c I). reflexivity.
    + apply (appended_trans _ _ _ [] [blk] _ [] Ap0 Ap).
  - destruct (is_index_tag h blk) eqn:I; [|discriminate].
    destruct (to_size_t (8 + le16toh h (blk + 6) * 4)
              >? fst (block_len h blk)) eqn:S; [discriminate|].
    change 0 with (Z.of_nat 0) in H.
    apply (ri_loop_complete
             (fun offset => _get_children K fuel h offset flags)
             (tree_ok K h flags fuel) (tree_children h fuel)
             (tree_blocks h fuel) blk IH) in H as (F & Ap).
    split.
    + cbn [andb]. apply andb_true_iff. split; [lia|].
      apply forallb_forall. intros x I'. rewrite Forall_forall in F.
      destruct (F x I') as [V OK]. rewrite V, OK. reflexivity.
    + apply (appended_trans _ _ _ [] [blk] _ _ Ap0 Ap).
Qed.

End Tree.

(** ** What [_hivex_get_children] returns, in terms of the tree *)

Section TreeResult.

Variable K : hivex_internal.
Variable malloc_ok : Z -> bool.
Variable h : hive_h.
Variable node : Z.
Variable flags : Z.

Local Abbreviation nr := (le32toh h (node + nk_nr_subkeys K)).
Local Abbreviation subkey_lf :=
  (to_size_t (le32toh h (node + nk_subkey_lf K) + 0x1000)).

(** The result of a walk that the tree [d] levels deep predicts. *)
Lemma get_children_of_tree d :
  is_nk h node = true ->
  0 < nr <= HIVEX_MAX_SUBKEYS K ->
  malloc_ok (8 * nr) = true ->
  IS_VALID_BLOCK h subkey_lf = true ->
  (d <= walk_budget K)%nat ->
  tree_ok K h flags d subkey_lf = true ->
  Z.of_nat (List.length (tree_children h d subkey_lf)) = nr ->
  Z.of_nat (List.length (tree_blocks h d subkey_lf)) <= HIVEX_MAX_SUBKEYS K ->
  _hivex_get_children K malloc_ok h node flags
  = {| return_value := 0; error := None;
       children_ret := Some (tree_children h d subkey_lf ++ [0]);
       blocks_ret := Some (tree_blocks h d subkey_lf ++ [0]);
       freed := None |}.
Proof.
  intros NK R A V Hd OK LC LB.
  destruct (walk_sound K h flags d subkey_lf (walker_lists K nr) OK)
    as (st' & W & C & B & _).
  { intros N [= <-]. unfold _hivex_get_offset_list_length; simpl. lia. }
  { intros N [= <-]. unfold _hivex_get_offset_list_length; simpl. lia. }
  simpl in C, B.
  apply (get_children_mono K h flags _ _ _ _ _ Hd) in W.
  pose proof (get_children_budget K malloc_ok h node flags _ (Nat.le_refl _))
    as E.
  rewrite get_children_fuel_walk in E by assumption.
  rewrite V in E. cbn [negb] in E. rewrite W in E.
  unfold _hivex_get_offset_list_length in E.
  rewrite C, LC, Z.eqb_refl in E. cbn [negb] in E.
  injection E as E. rewrite <- E.
  unfold goto_out, _hivex_return_offset_list. rewrite C, B. reflexivity.
Qed.

(** The tree behind a call that returned 0 for a key with subkeys. *)
Lemma tree_of_get_children :
  return_value (_hivex_get_children K malloc_ok h node flags) = 0 ->
  nr <> 0 ->
  is_nk h node = true
  /\ 0 < nr <= HIVEX_MAX_SUBKEYS K
  /\ malloc_ok (8 * nr) = true
  /\ IS_VALID_BLOCK h subkey_lf = true
  /\ tree_ok K h flags (walk_budget K) subkey_lf = true
  /\ Z.of_nat (List.length (tree_children h (walk_budget K) subkey_lf)) = nr
  /\ Z.of_nat (List.length (tree_blocks h (walk_budget K) subkey_lf))
     <= HIVEX_MAX_SUBKEYS K
  /\ _hivex_get_children K malloc_ok h node flags
     = {| return_value := 0; error := None;
          children_ret :=
            Some (tree_children h (walk_budget K) subkey_lf ++ [0]);
          blocks_ret := Some (tree_blocks h (walk_budget K) subkey_lf ++ [0]);
          freed := None |}.
Proof.
  intros R0 N0.
  pose proof (get_children_exits K malloc_ok h node flags) as X.
  inversion X as [NK E|NK Z0 E|NK N0' G E|NK R A E|NK R A V E
                  |e m st' NK R A V W E|st' NK R A V W D E
                  |st' NK R A V W D E];
    rewrite <- E in R0; simpl in R0; try discriminate; try contradiction.
  pose proof (preserves_get_children K h flags _ _ _ _ _ W) as G.
  pose proof (grows_blocks_bound _ _ _ G (HIVEX_MAX_SUBKEYS K) eq_refl) as Bd.
  apply walk_complete in W as (OK & C & B & _).
  cbn [walker_lists children blocks offsets app] in C, B.
  unfold _hivex_get_offset_list_length in D, Bd.
  cbn [walker_lists blocks offsets List.length] in Bd.
  rewrite C in D. rewrite B in Bd.
  repeat split; try assumption; try lia.
  rewrite C, B. reflexivity.
Qed.

End TreeResult.

(** X5. When [_hivex_get_children] returns 0 for a key that declares
    subkeys, the subkey block heads a well-formed tree of "ri" indexes over
    "lf"/"lh" leaves; the children returned are the entries of its leaves,
    leaf after leaf, as many as declared, and the blocks returned are the
    blocks of the tree, each index before what it points to, at most
    HIVEX_MAX_SUBKEYS of them; both arrays end with a zero. *)
Theorem X5_success_is_a_tree (K : hivex_internal) (malloc_ok : Z -> bool)
  (h : hive_h) (node : Z) (flags : Z) :
  return_value (_hivex_get_children K malloc_ok h node flags) = 0 ->
  le32toh h (node + nk_nr_subkeys K) <> 0 ->
  let top := to_size_t (le32toh h (node + nk_subkey_lf K) + 0x1000) in
  let d := walk_budget K in
  tree_ok K h flags d top = true
  /\ children_ret (_hivex_get_children K malloc_ok h node flags)
     = Some (tree_children h d top ++ [0])
  /\ blocks_ret (_hivex_get_children K malloc_ok h node flags)
     = Some (tree_blocks h d top ++ [0])
  /\ Z.of_nat (List.length (tree_children h d top))
     = le32toh h (node + nk_nr_subkeys K)
  /\ Z.of_nat (List.length (tree_blocks h d top)) <= HIVEX_MAX_SUBKEYS K.
Proof.
  intros R0 N0 top d.
  destruct (tree_of_get_children K malloc_ok h node flags R0 N0)
    as (_ & _ & _ & _ & OK & LC & LB & E).
  fold top d in OK, LC, LB, E. rewrite E. simpl. auto.
Qed.

Lemma X5_success_is_a_tree_witness :
  children_ret
    (_hivex_get_children ntreg Fixture.granted Nested.hive (Fixture.at_ 0) 0)
  = Some ([Fixture.at_ 6; Fixture.at_ 7; Fixture.at_ 8] ++ [0])
  /\ blocks_ret
       (_hivex_get_children ntreg Fixture.granted Nested.hive
          (Fixture.at_ 0) 0)
     = Some ([Fixture.at_ 1; Fixture.at_ 2; Fixture.at_ 3; Fixture.at_ 4;
              Fixture.at_ 5] ++ [0]).
Proof.
  destruct (X5_success_is_a_tree ntreg Fixture.granted Nested.hive
              (Fixture.at_ 0) 0) as (_ & C & B & _).
  - vm_compute. reflexivity.
  - vm_compute. discriminate.
  - split.
    + rewrite C. vm_compute. reflexivity.
    + rewrite B. vm_compute. reflexivity.
Defined.

(** X6. Conversely, a key whose subkey block heads a well-formed tree, of
    any depth [d] within the budget, with as many leaf entries as the key
    declares and no more blocks than HIVEX_MAX_SUBKEYS, is enumerated:
    [_hivex_get_children] returns 0 with the entries of the leaves and the
    blocks of the tree (the storage for the children being granted). *)
Theorem X6_tree_is_enumerated (K : hivex_internal) (malloc_ok : Z -> bool)
  (h : hive_h) (node : Z) (flags : Z) (d : nat) :
  is_nk h node = true ->
  let nr := le32toh h (node + nk_nr_subkeys K) in
  let top := to_size_t (le32toh h (node + nk_subkey_lf K) + 0x1000) in
  0 < nr <= HIVEX_MAX_SUBKEYS K ->
  malloc_ok (8 * nr) = true ->
  IS_VALID_BLOCK h top = true ->
  (d <= walk_budget K)%nat ->
  tree_ok K h flags d top = true ->
  Z.of_nat (List.length (tree_children h d top)) = nr ->
  Z.of_nat (List.length (tree_blocks h d top)) <= HIVEX_MAX_SUBKEYS K ->
  return_value (_hivex_get_children K malloc_ok h node flags) = 0
  /\ children_ret (_hivex_get_children K malloc_ok h node flags)
     = Some (tree_children h d top ++ [0])
  /\ blocks_ret (_hivex_get_children K malloc_ok h node flags)
     = Some (tree_blocks h d top ++ [0])
  /\ (flags = 0 ->
      hivex_node_children K malloc_ok h node
      = Some (tree_children h d top ++ [0])).
Proof.
  intros NK nr top R A V Hd OK LC LB.
  pose proof (get_children_of_tree K malloc_ok h node flags d NK R A V Hd OK
                LC LB) as E.
  fold top in E. rewrite E. simpl. repeat split.
  intros ->. unfold hivex_node_children. fold top. rewrite E. reflexivity.
Qed.

Lemma X6_tree_is_enumerated_witness :
  hivex_node_children ntreg Fixture.granted Nested.hive (Fixture.at_ 0)
  = Some (tree_children Nested.hive 3 (Fixture.at_ 1) ++ [0]).
Proof.
  assert (NK : is_nk Nested.hive (Fixture.at_ 0) = true)
    by (vm_compute; reflexivity).
  assert (R : 0 < le32toh Nested.hive (Fixture.at_ 0 + nk_nr_subkeys ntreg)
              <= HIVEX_MAX_SUBKEYS ntreg)
    by (vm_compute; split; [reflexivity|discriminate]).
  assert (V : IS_VALID_BLOCK Nested.hive
                (to_size_t
                   (le32toh Nested.hive (Fixture.at_ 0 + nk_subkey_lf ntreg)
                    + 0x1000)) = true)
    by (vm_compute; reflexivity).
  assert (D : (3 <= walk_budget ntreg)%nat)
    by (unfold walk_budget; simpl HIVEX_MAX_SUBKEYS; lia).
  assert (OK : tree_ok ntreg Nested.hive 0 3
                 (to_size_t
                    (le32toh Nested.hive
                       (Fixture.at_ 0 + nk_subkey_lf ntreg) + 0x1000))
               = true)
    by (vm_compute; reflexivity).
  destruct (X6_tree_is_enumerated ntreg Fixture.granted Nested.hive
              (Fixture.at_ 0) 0 3 NK R eq_refl V D OK) as (_ & _ & _ & C).
  - vm_compute. reflexivity.
  - vm_compute. discriminate.
  - apply C. reflexivity.
Defined.

(** ** The blocks visited, the flags, and cycles *)

Lemma ri_offset_biased h ri i : 0x1000 <= ri_offset h ri i.
Proof.
  unfold ri_offset. rewrite biased_offset.
  pose proof (le32toh_range h (ri + 8 + 4 * i)). lia.
Qed.

Lemma index_blocks_biased h ri x : In x (index_blocks h ri) -> 0x1000 <= x.
Proof.
  unfold index_blocks. intros I. apply in_map_iff in I as (j & <- & _).
  apply ri_offset_biased.
Qed.

Lemma tree_blocks_tagged K h flags d : forall b,
  tree_ok K h flags d b = true ->
  IS_VALID_BLOCK h b = true ->
  0x1000 <= b ->
  Forall (fun x => indirection_block h x = true /\ x <> 0)
    (tree_blocks h d b).
Proof.
  induction d as [|d IH]; intros b OK V Bi; [constructor|].
  cbn [tree_ok tree_blocks] in *. unfold indirection_block at 1.
  destruct (is_leaf_tag h b) eqn:T.
  - constructor; [|constructor]. rewrite V, T. split; [reflexivity|lia].
  - apply andb_true_iff in OK as [OK F]. apply andb_true_iff in OK as [I _].
    constructor.
    + rewrite V, T, I. split; [reflexivity|lia].
    + apply Forall_flat_map. apply Forall_forall. intros x Ix.
      rewrite forallb_forall in F. specialize (F x Ix).
      apply andb_true_iff in F as [Vx OKx].
      apply IH; auto. eapply index_blocks_biased; eauto.
Qed.

Lemma return_value_cases K malloc_ok h node flags :
  return_value (_hivex_get_children K malloc_ok h node flags) = 0
  \/ return_value (_hivex_get_children K malloc_ok h node flags) = -1.
Proof.
  pose proof (get_children_exits K malloc_ok h node flags) as X.
  inversion X; simpl; auto.
Qed.

Lemma get_children_no_subkeys K malloc_ok h node flags :
  is_nk h node = true ->
  le32toh h (node + nk_nr_subkeys K) = 0 ->
  _hivex_get_children K malloc_ok h node flags
  = {| return_value := 0; error := None; children_ret := Some [0];
       blocks_ret := Some [0]; freed := None |}.
Proof.
  intros NK Z0.
  pose proof (get_children_budget K malloc_ok h node flags _ (Nat.le_refl _))
    as B.
  rewrite get_children_fuel_no_subkeys in B by assumption.
  injection B as B. symmetry. exact B.
Qed.

Lemma success_is_nk K malloc_ok h node flags :
  return_value (_hivex_get_children K malloc_ok h node flags) = 0 ->
  is_nk h node = true.
Proof.
  intros R0.
  pose proof (get_children_exits K malloc_ok h node flags) as X.
  inversion X as [NK E|NK Z0 E|NK N0' G E|NK R A E|NK R A V E
                  |e m st' NK R A V W E|st' NK R A V W D E
                  |st' NK R A V W D E];
    try assumption; rewrite <- E in R0; discriminate.
Qed.

(** X7. Every block in the array of visited blocks that a successful
    [_hivex_get_children] returns is a valid block tagged "lf", "lh" or
    "ri" and is not zero; the array is those blocks followed by the only
    zero, and for a key with subkeys it starts with the key's subkey
    block. *)
Theorem X7_blocks_are_indirection_blocks (K : hivex_internal)
  (malloc_ok : Z -> bool) (h : hive_h) (node : Z) (flags : Z)
  (arr : list Z) :
  return_value (_hivex_get_children K malloc_ok h node flags) = 0 ->
  blocks_ret (_hivex_get_children K malloc_ok h node flags) = Some arr ->
  arr = until_zero arr ++ [0]
  /\ Forall (fun b => indirection_block h b = true) (until_zero arr)
  /\ (le32toh h (node + nk_nr_subkeys K) <> 0 ->
      hd 0 arr = to_size_t (le32toh h (node + nk_subkey_lf K) + 0x1000)).
Proof.
  intros R0 H.
  pose proof (success_is_nk _ _ _ _ _ R0) as NK.
  destruct (Z.eq_dec (le32toh h (node + nk_nr_subkeys K)) 0) as [Z0|N0].
  - rewrite (get_children_no_subkeys K malloc_ok h node flags NK Z0) in H.
    injection H as <-. simpl. repeat split; [constructor|contradiction].
  - destruct (tree_of_get_children K malloc_ok h node flags R0 N0)
      as (_ & R & _ & V & OK & _ & _ & E).
    pose proof (le32toh_range h (node + nk_subkey_lf K)) as Rg.
    assert (T : Forall (fun x => indirection_block h x = true /\ x <> 0)
                  (tree_blocks h (walk_budget K)
                     (to_size_t (le32toh h (node + nk_subkey_lf K) + 0x1000)))).
    { apply (tree_blocks_tagged K h flags); auto.
      rewrite biased_offset. lia. }
    assert (Hd : hd 0 (tree_blocks h (walk_budget K)
                         (to_size_t
                            (le32toh h (node + nk_subkey_lf K) + 0x1000))
                       ++ [0])
                 = to_size_t (le32toh h (node + nk_subkey_lf K) + 0x1000))
      by reflexivity.
    revert T Hd E.
    generalize (tree_blocks h (walk_budget K)
                  (to_size_t (le32toh h (node + nk_subkey_lf K) + 0x1000))).
    intros tb T Hd E. rewrite E in H. cbn [blocks_ret] in H.
    assert (A : arr = tb ++ [0]) by congruence. subst arr.
    rewrite until_zero_sentinel
      by (eapply Forall_impl; [|exact T]; intros x [_ N]; exact N).
    split; [reflexivity|]. split.
    + eapply Forall_impl; [|exact T]. intros x [I _]; exact I.
    + intros _. exact Hd.
Qed.

Lemma X7_blocks_are_indirection_blocks_witness :
  Forall (fun b => indirection_block Nested.hive b = true)
    (until_zero [4224; 4352; 4480; 4608; 4736; 0]).
Proof.
  assert (R0 : return_value
                 (_hivex_get_children ntreg Fixture.granted Nested.hive
                    (Fixture.at_ 0) 0) = 0) by (vm_compute; reflexivity).
  assert (H : blocks_ret
                (_hivex_get_children ntreg Fixture.granted Nested.hive
                   (Fixture.at_ 0) 0)
              = Some [4224; 4352; 4480; 4608; 4736; 0])
    by (vm_compute; reflexivity).
  destruct (X7_blocks_are_indirection_blocks ntreg Fixture.granted
              Nested.hive (Fixture.at_ 0) 0 _ R0 H) as (_ & F & _).
  exact F.
Defined.

Lemma check_child_any_flags K h c flags :
  check_child_is_nk_block K h c 0 = Ok tt ->
  check_child_is_nk_block K h c flags = Ok tt.
Proof.
  intros H. pose proof (check_child_inv K h 0 c tt H eq_refl) as NK.
  apply is_nk_split in NK as [V B]. unfold check_child_is_nk_block.
  rewrite V, B. simpl.
  destruct (negb (Z.land flags (GET_CHILDREN_NO_CHECK_NK K) =? 0));
    reflexivity.
Qed.

Lemma leaf_ok_any_flags K h flags lf :
  leaf_ok K h 0 lf = true -> leaf_ok K h flags lf = true.
Proof.
  unfold leaf_ok. intros H.
  apply andb_true_iff in H as [H C]. rewrite H. cbn [andb].
  rewrite forallb_forall in *. intros c I. specialize (C c I).
  destruct (check_child_is_nk_block K h c 0) as [[]|] eqn:E;
    [|discriminate].
  rewrite (check_child_any_flags K h c flags E). reflexivity.
Qed.

Lemma tree_ok_any_flags K h flags d : forall b,
  tree_ok K h 0 d b = true -> tree_ok K h flags d b = true.
Proof.
  induction d as [|d IH]; intros b OK; [discriminate|].
  cbn [tree_ok] in *. destruct (is_leaf_tag h b).
  - apply leaf_ok_any_flags; assumption.
  - apply andb_true_iff in OK as [OK F]. rewrite OK. cbn [andb].
    rewrite forallb_forall in *. intros x I. specialize (F x I).
    apply andb_true_iff in F as [V OKx]. rewrite V, (IH x OKx). reflexivity.
Qed.

(** X8. The flag that bypasses the check of the children changes nothing
    for a key that [_hivex_get_children] enumerates with the check: with
    any flags the call returns the same result as with none. *)
Theorem X8_flags_keep_success (K : hivex_internal) (malloc_ok : Z -> bool)
  (h : hive_h) (node : Z) (flags : Z) :
  return_value (_hivex_get_children K malloc_ok h node 0) = 0 ->
  _hivex_get_children K malloc_ok h node flags
  = _hivex_get_children K malloc_ok h node 0.
Proof.
  intros R0. pose proof (success_is_nk _ _ _ _ _ R0) as NK.
  destruct (Z.eq_dec (le32toh h (node + nk_nr_subkeys K)) 0) as [Z0|N0].
  - rewrite !get_children_no_subkeys by assumption. reflexivity.
  - destruct (tree_of_get_children K malloc_ok h node 0 R0 N0)
      as (_ & R & A & V & OK & LC & LB & E).
    rewrite E.
    apply (get_children_of_tree K malloc_ok h node flags (walk_budget K));
      auto.
    apply tree_ok_any_flags; assumption.
Qed.

Lemma X8_flags_keep_success_witness :
  _hivex_get_children ntreg Fixture.granted Nested.hive (Fixture.at_ 0) 1
  = _hivex_get_children ntreg Fixture.granted Nested.hive (Fixture.at_ 0) 0.
Proof.
  apply X8_flags_keep_success. vm_compute. reflexivity.
Defined.

Lemma tree_ok_reaches K h flags b x :
  reaches h b x ->
  forall d, tree_ok K h flags d b = true ->
    exists d', (d' < d)%nat /\ tree_ok K h flags d' x = true.
Proof.
  induction 1 as [b x T I|b y x _ IH1 _ IH2]; intros d OK.
  - destruct d as [|d]; [discriminate|]. cbn [tree_ok] in OK.
    rewrite T in OK. apply andb_true_iff in OK as [_ F].
    rewrite forallb_forall in F. specialize (F x I).
    apply andb_true_iff in F as [_ OKx]. exists d. split; [lia|exact OKx].
  - destruct (IH1 d OK) as (d1 & L1 & OK1).
    destruct (IH2 d1 OK1) as (d2 & L2 & OK2).
    exists d2. split; [lia|exact OK2].
Qed.

Lemma tree_ok_no_cycle K h flags d : forall b,
  tree_ok K h flags d b = true -> reaches h b b -> False.
Proof.
  induction d as [d IH] using lt_wf_ind. intros b OK C.
  destruct (tree_ok_reaches K h flags b b C d OK) as (d' & L & OK').
  exact (IH d' L b OK' C).
Qed.

(** X9. A key whose subkey block lies on a cycle of index blocks, or leads
    to one, is not enumerated: [_hivex_get_children] returns -1 (the walk
    ends, the list of blocks being limited), [hivex_node_children] returns
    NULL and [hivex_node_get_child] the null handle. *)
Theorem X9_cycles_are_refused (K : hivex_internal) (malloc_ok : Z -> bool)
  (h : hive_h) (node : Z) (flags : Z) (b : Z) (nname : list Z) :
  le32toh h (node + nk_nr_subkeys K) <> 0 ->
  let top := to_size_t (le32toh h (node + nk_subkey_lf K) + 0x1000) in
  top = b \/ reaches h top b ->
  reaches h b b ->
  return_value (_hivex_get_children K malloc_ok h node flags) = -1
  /\ hivex_node_children K malloc_ok h node = None
  /\ hivex_node_get_child K malloc_ok h node nname = 0.
Proof.
  intros N0 top T C.
  assert (F : forall f,
             return_value (_hivex_get_children K malloc_ok h node f) = -1).
  { intros f.
    destruct (return_value_cases K malloc_ok h node f) as [R0|R1];
      [exfalso|exact R1].
    destruct (tree_of_get_children K malloc_ok h node f R0 N0)
      as (_ & _ & _ & _ & OK & _).
    fold top in OK. destruct T as [->|T].
    - exact (tree_ok_no_cycle K h f _ b OK C).
    - destruct (tree_ok_reaches K h f top b T _ OK) as (d' & _ & OK').
      exact (tree_ok_no_cycle K h f _ b OK' C). }
  split; [apply F|].
  assert (N : hivex_node_children K malloc_ok h node = None).
  { unfold hivex_node_children. rewrite F. reflexivity. }
  split; [exact N|]. unfold hivex_node_get_child. rewrite N. reflexivity.
Qed.

Lemma X9_cycles_are_refused_witness :
  hivex_node_children ntreg Fixture.granted Fixture.hive (Fixture.at_ 11)
  = None.
Proof.
  assert (C : reaches Fixture.hive (Fixture.at_ 10) (Fixture.at_ 10)).
  { apply reaches_entry; [vm_compute; reflexivity|].
    vm_compute. left. reflexivity. }
  destruct (X9_cycles_are_refused ntreg Fixture.granted Fixture.hive
              (Fixture.at_ 11) 0 (Fixture.at_ 10) []) as (_ & N & _).
  - vm_compute. discriminate.
  - left. vm_compute. reflexivity.
  - exact C.
  - exact N.
Defined.

(** ** How the walk of a subkey block fails *)

Lemma check_child_refusal K h c flags e m :
  check_child_is_nk_block K h c flags = Err e m ->
  e = EFAULT
  /\ (m = subkey_not_valid c
      \/ m = subkey_not_nk c (block_id0 h c) (block_id1 h c))
  /\ is_nk h c = false.
Proof.
  unfold check_child_is_nk_block, is_nk.
  destruct (negb (Z.land flags (GET_CHILDREN_NO_CHECK_NK K) =? 0));
    [discriminate|].
  destruct (IS_VALID_BLOCK h c); cbn [negb andb].
  - destruct (BLOCK_ID_EQ h c "n" "k"); cbn [negb]; [discriminate|].
    intros [= <- <-]. auto.
  - intros [= <- <-]. auto.
Qed.

Lemma first_refused_split K h flags cs : forall before e m,
  first_refused K h flags cs = (before, Some (e, m)) ->
  exists c post,
    cs = before ++ c :: post
    /\ Forall (fun x => check_child_is_nk_block K h x flags = Ok tt) before
    /\ check_child_is_nk_block K h c flags = Err e m.
Proof.
  induction cs as [|x cs IH]; intros before e m H; cbn [first_refused] in H;
    [discriminate|].
  destruct (check_child_is_nk_block K h x flags) as [[]|e' m'] eqn:C.
  - destruct (first_refused K h flags cs) as [b r] eqn:F.
    injection H as <- ->.
    destruct (IH b e m eq_refl) as (c & post & -> & Fa & Ce).
    exists c, post. repeat split; auto.
  - injection H as <- <- <-. exists x, cs. repeat split; auto.
Qed.

Lemma lf_loop_refused K h flags lf before c post e m :
  Forall (fun x => check_child_is_nk_block K h x flags = Ok tt) before ->
  check_child_is_nk_block K h c flags = Err e m ->
  forall n i0 st,
    map (fun j => lf_key h lf (Z.of_nat j)) (seq i0 n) = before ++ c :: post ->
    fits (children st) (List.length before) ->
    exists st',
      lf_loop K h flags lf n (Z.of_nat i0) st = Some (Err e m, st')
      /\ appended st st' before [].
Proof.
  intros Fa Ce. induction Fa as [|x before Cx Fa IH]; intros n i0 st E R.
  - destruct n as [|n]; [discriminate|]. cbn [lf_loop seq map app] in *.
    injection E as E0 _. rewrite E0, Ce, bind_lift_err.
    exists st. split; [reflexivity|apply appended_refl].
  - destruct n as [|n]; [discriminate|]. cbn [lf_loop seq map app] in *.
    injection E as E0 E. rewrite E0, Cx, bind_lift_ok.
    cbn [List.length] in R.
    destruct (fits_add (children st) x _ R) as (l' & A & O & L).
    unfold bind at 1, add_child. rewrite A.
    replace (Z.of_nat i0 + 1) with (Z.of_nat (S i0)) by lia.
    destruct (IH n (S i0) {| children := l'; blocks := blocks st |} E)
      as (st' & W & Ap).
    + apply (fits_after (children st) l' [x]); assumption.
    + exists st'. split; [exact W|].
      apply (appended_trans st {| children := l'; blocks := blocks st |} st'
               [x] [] before []); [|exact Ap].
      unfold appended; simpl. rewrite app_nil_r. auto.
Qed.

(** The first step of the walk that [_hivex_get_children] starts: the
    subkey block is recorded. *)
Lemma first_block_recorded K nr blk :
  0 < HIVEX_MAX_SUBKEYS K ->
  exists st1,
    add_block blk (walker_lists K nr) = Some (Ok tt, st1)
    /\ appended (walker_lists K nr) st1 [] [blk].
Proof.
  intros M. unfold add_block.
  destruct (fits_add (blocks (walker_lists K nr)) blk 0) as (b & A & O & L).
  { intros N [= <-]. unfold _hivex_get_offset_list_length; simpl. lia. }
  rewrite A. eexists. split; [reflexivity|].
  unfold appended. cbn [children blocks]. repeat split; auto.
Qed.

Section SubkeyBlock.

Variable K : hivex_internal.
Variable malloc_ok : Z -> bool.
Variable h : hive_h.
Variable node : Z.
Variable flags : Z.

Local Abbreviation nr := (le32toh h (node + nk_nr_subkeys K)).
Local Abbreviation top :=
  (to_size_t (le32toh h (node + nk_subkey_lf K) + 0x1000)).

Hypothesis NK : is_nk h node = true.
Hypothesis R : 0 < nr <= HIVEX_MAX_SUBKEYS K.
Hypothesis A : malloc_ok (8 * nr) = true.
Hypothesis V : IS_VALID_BLOCK h top = true.

(** [_hivex_get_children] on a key whose walk fails. *)
Lemma get_children_walk_failed e m st' :
  _get_children K (walk_budget K) h top flags (walker_lists K nr)
  = Some (Err e m, st') ->
  _hivex_get_children K malloc_ok h node flags
  = goto_error e m st' None None.
Proof.
  intros W.
  pose proof (get_children_budget K malloc_ok h node flags _ (Nat.le_refl _))
    as B.
  rewrite get_children_fuel_walk in B by assumption.
  rewrite V in B. cbn [negb] in B. rewrite W in B.
  injection B as B. symmetry. exact B.
Qed.

Lemma walk_unsupported :
  is_leaf_tag h top = false -> is_index_tag h top = false ->
  exists st',
    _get_children K (walk_budget K) h top flags (walker_lists K nr)
    = Some (Err ENOTSUP
              (not_lf_lh_ri top (block_id0 h top) (block_id1 h top)), st')
    /\ appended (walker_lists K nr) st' [] [top].
Proof.
  intros T I. unfold walk_budget. rewrite get_children_step.
  destruct (first_block_recorded K nr top) as (st1 & E & Ap); [lia|].
  unfold bind at 1. rewrite E.
  fold (is_leaf_tag h top). fold (is_index_tag h top). rewrite T, I.
  exists st1. split; [reflexivity|exact Ap].
Qed.

Lemma walk_leaf_overflow :
  is_leaf_tag h top = true ->
  fst (block_len h top) < to_size_t (8 + le16toh h (top + 6) * 8) ->
  exists st',
    _get_children K (walk_budget K) h top flags (walker_lists K nr)
    = Some (Err EFAULT
              (too_many_subkeys (le16toh h (top + 6))
                 (fst (block_len h top))), st')
    /\ appended (walker_lists K nr) st' [] [top].
Proof.
  intros T O. unfold walk_budget. rewrite get_children_step.
  destruct (first_block_recorded K nr top) as (st1 & E & Ap); [lia|].
  unfold bind at 1. rewrite E. fold (is_leaf_tag h top). rewrite T.
  destruct (to_size_t (8 + le16toh h (top + 6) * 8)
            >? fst (block_len h top)) eqn:G; [|lia].
  exists st1. split; [reflexivity|exact Ap].
Qed.

Lemma walk_index_overflow :
  is_leaf_tag h top = false -> is_index_tag h top = true ->
  fst (block_len h top) < to_size_t (8 + le16toh h (top + 6) * 4) ->
  exists st',
    _get_children K (walk_budget K) h top flags (walker_lists K nr)
    = Some (Err EFAULT
              (too_many_offsets (le16toh h (top + 6))
                 (fst (block_len h top))), st')
    /\ appended (walker_lists K nr) st' [] [top].
Proof.
  intros T I O. unfold walk_budget. rewrite get_children_step.
  destruct (first_block_recorded K nr top) as (st1 & E & Ap); [lia|].
  unfold bind at 1. rewrite E.
  fold (is_leaf_tag h top). fold (is_index_tag h top). rewrite T, I.
  destruct (to_size_t (8 + le16toh h (top + 6) * 4)
            >? fst (block_len h top)) eqn:G; [|lia].
  exists st1. split; [reflexivity|exact Ap].
Qed.

Lemma walk_leaf_refused before e m :
  is_leaf_tag h top = true ->
  to_size_t (8 + le16toh h (top + 6) * 8) <= fst (block_len h top) ->
  first_refused K h flags (leaf_children h top) = (before, Some (e, m)) ->
  Z.of_nat (List.length before) <= nr ->
  exists st',
    _get_children K (walk_budget K) h top flags (walker_lists K nr)
    = Some (Err e m, st')
    /\ appended (walker_lists K nr) st' before [top].
Proof.
  intros T O F L. unfold walk_budget. rewrite get_children_step.
  destruct (first_block_recorded K nr top) as (st1 & E & Ap); [lia|].
  unfold bind at 1. rewrite E. fold (is_leaf_tag h top). rewrite T.
  destruct (to_size_t (8 + le16toh h (top + 6) * 8)
            >? fst (block_len h top)) eqn:G; [lia|].
  apply first_refused_split in F as (c & post & Es & Fa & Ce).
  destruct (lf_loop_refused K h flags top before c post e m Fa Ce
              (Z.to_nat (le16toh h (top + 6))) 0%nat st1 Es)
    as (st' & W & Ap').
  - destruct Ap as (C1 & _ & L1 & _). intros N E1. rewrite L1 in E1.
    injection E1 as <-. unfold _hivex_get_offset_list_length.
    rewrite C1. simpl. lia.
  - exists st'. change (Z.of_nat 0) with 0 in W. split; [exact W|].
    apply (appended_trans _ _ _ [] [top] before [] Ap Ap').
Qed.

End SubkeyBlock.

(** X10. With the check of the children active, a key over a leaf one of
    whose entries is not a valid "nk" block is not enumerated: the call
    fails with EFAULT and a diagnostic naming the first such entry; the
    entries before it, which the walk had gathered, are released with the
    lists, and [hivex_node_children] returns NULL. *)
Theorem X10_first_refused_child (K : hivex_internal) (malloc_ok : Z -> bool)
  (h : hive_h) (node : Z) (flags : Z) (before : list Z) (e : errno)
  (m : message) :
  is_nk h node = true ->
  let nr := le32toh h (node + nk_nr_subkeys K) in
  let top := to_size_t (le32toh h (node + nk_subkey_lf K) + 0x1000) in
  0 < nr <= HIVEX_MAX_SUBKEYS K ->
  malloc_ok (8 * nr) = true ->
  IS_VALID_BLOCK h top = true ->
  is_leaf_tag h top = true ->
  to_size_t (8 + le16toh h (top + 6) * 8) <= fst (block_len h top) ->
  first_refused K h flags (leaf_children h top) = (before, Some (e, m)) ->
  Z.of_nat (List.length before) <= nr ->
  let c := nth (List.length before) (leaf_children h top) 0 in
  let r := _hivex_get_children K malloc_ok h node flags in
  return_value r = -1
  /\ error r = Some (EFAULT, m)
  /\ (m = subkey_not_valid c
      \/ m = subkey_not_nk c (block_id0 h c) (block_id1 h c))
  /\ is_nk h c = false
  /\ children_ret r = None
  /\ option_map (fun st => offsets (children st)) (freed r) = Some before
  /\ (flags = 0 -> hivex_node_children K malloc_ok h node = None).
Proof.
  intros NK nr top R A V T O F L c r.
  destruct (walk_leaf_refused K h node flags R before e m T O F L)
    as (st' & W & C & _).
  pose proof (get_children_walk_failed K malloc_ok h node flags NK R A V
                e m st' W) as E.
  apply first_refused_split in F as (x & post & Es & _ & Ce).
  apply check_child_refusal in Ce as (-> & M & N).
  assert (X : c = x).
  { unfold c. fold top. rewrite Es, app_nth2 by lia.
    rewrite Nat.sub_diag. reflexivity. }
  unfold r. rewrite X, E. cbn [goto_error return_value error children_ret
                               freed option_map].
  cbn [walker_lists children offsets app] in C. rewrite C.
  repeat split; auto.
  intros ->. unfold hivex_node_children. rewrite E. reflexivity.
Qed.

Lemma X10_first_refused_child_witness :
  error (_hivex_get_children ntreg Fixture.granted Nested.hive
           (Fixture.at_ 9) 0)
  = Some (EFAULT, subkey_not_nk (Fixture.at_ 3) 108 102).
Proof.
  assert (NK : is_nk Nested.hive (Fixture.at_ 9) = true)
    by (vm_compute; reflexivity).
  assert (R : 0 < le32toh Nested.hive (Fixture.at_ 9 + nk_nr_subkeys ntreg)
              <= HIVEX_MAX_SUBKEYS ntreg)
    by (vm_compute; split; [reflexivity|discriminate]).
  assert (O : to_size_t (8 + le16toh Nested.hive (Fixture.at_ 10 + 6) * 8)
              <= fst (block_len Nested.hive (Fixture.at_ 10)))
    by (vm_compute; discriminate).
  assert (F : first_refused ntreg Nested.hive 0
                (leaf_children Nested.hive (Fixture.at_ 10))
              = ([Fixture.at_ 6],
                 Some (EFAULT, subkey_not_nk (Fixture.at_ 3) 108 102)))
    by (vm_compute; reflexivity).
  assert (L : Z.of_nat (List.length [Fixture.at_ 6])
              <= le32toh Nested.hive (Fixture.at_ 9 + nk_nr_subkeys ntreg))
    by (vm_compute; discriminate).
  destruct (X10_first_refused_child ntreg Fixture.granted Nested.hive
              (Fixture.at_ 9) 0 [Fixture.at_ 6] EFAULT
              (subkey_not_nk (Fixture.at_ 3) 108 102) NK R eq_refl eq_refl
              eq_refl O F L)
    as (_ & E & _).
  exact E.
Defined.

(** X11. A key whose subkey block is tagged neither "lf", "lh" nor "ri"
    (an "li" block, for one) is not enumerated: the call fails with
    ENOTSUP and a diagnostic giving the block and its tag, having recorded
    that block only. *)
Theorem X11_unsupported_tag (K : hivex_internal) (malloc_ok : Z -> bool)
  (h : hive_h) (node : Z) (flags : Z) :
  is_nk h node = true ->
  let nr := le32toh h (node + nk_nr_subkeys K) in
  let top := to_size_t (le32toh h (node + nk_subkey_lf K) + 0x1000) in
  0 < nr <= HIVEX_MAX_SUBKEYS K ->
  malloc_ok (8 * nr) = true ->
  IS_VALID_BLOCK h top = true ->
  is_leaf_tag h top = false ->
  is_index_tag h top = false ->
  let r := _hivex_get_children K malloc_ok h node flags in
  return_value r = -1
  /\ error r
     = Some (ENOTSUP, not_lf_lh_ri top (block_id0 h top) (block_id1 h top))
  /\ children_ret r = None /\ blocks_ret r = None
  /\ option_map (fun st => offsets (blocks st)) (freed r) = Some [top]
  /\ (flags = 0 -> hivex_node_children K malloc_ok h node = None).
Proof.
  intros NK nr top R A V T I r.
  destruct (walk_unsupported K h node flags R T I) as (st' & W & _ & B & _).
  pose proof (get_children_walk_failed K malloc_ok h node flags NK R A V
                _ _ st' W) as E.
  unfold r. rewrite E.
  cbn [goto_error return_value error children_ret blocks_ret freed
       option_map].
  cbn [walker_lists blocks offsets app] in B. rewrite B.
  repeat split.
  intros ->. unfold hivex_node_children. rewrite E. reflexivity.
Qed.

Lemma X11_unsupported_tag_witness :
  error (_hivex_get_children ntreg Fixture.granted Fixture.hive
           (Fixture.at_ 17) 0)
  = Some (ENOTSUP, not_lf_lh_ri (Fixture.at_ 18) 108 105).
Proof.
  assert (NK : is_nk Fixture.hive (Fixture.at_ 17) = true)
    by (vm_compute; reflexivity).
  assert (R : 0 < le32toh Fixture.hive (Fixture.at_ 17 + nk_nr_subkeys ntreg)
              <= HIVEX_MAX_SUBKEYS ntreg)
    by (vm_compute; split; [reflexivity|discriminate]).
  destruct (X11_unsupported_tag ntreg Fixture.granted Fixture.hive
              (Fixture.at_ 17) 0 NK R eq_refl eq_refl eq_refl eq_refl)
    as (_ & E & _).
  exact E.
Defined.

(** X12. A key whose subkey block declares more entries than fit in the
    declared length of the block, 8 bytes each in a leaf and 4 in an index
    after a header of 8, is not enumerated: the call fails with EFAULT
    before any entry is read, no child being gathered. *)
Theorem X12_count_beyond_block (K : hivex_internal) (malloc_ok : Z -> bool)
  (h : hive_h) (node : Z) (flags : Z) :
  is_nk h node = true ->
  let nr := le32toh h (node + nk_nr_subkeys K) in
  let top := to_size_t (le32toh h (node + nk_subkey_lf K) + 0x1000) in
  0 < nr <= HIVEX_MAX_SUBKEYS K ->
  malloc_ok (8 * nr) = true ->
  IS_VALID_BLOCK h top = true ->
  let n := le16toh h (top + 6) in
  (is_leaf_tag h top = true /\ fst (block_len h top) < 8 + n * 8)
  \/ (is_leaf_tag h top = false /\ is_index_tag h top = true
      /\ fst (block_len h top) < 8 + n * 4) ->
  let r := _hivex_get_children K malloc_ok h node flags in
  return_value r = -1
  /\ (error r
      = Some (EFAULT, too_many_subkeys n (fst (block_len h top)))
      \/ error r
         = Some (EFAULT, too_many_offsets n (fst (block_len h top))))
  /\ option_map (fun st => offsets (children st)) (freed r) = Some []
  /\ (flags = 0 -> hivex_node_children K malloc_ok h node = None).
Proof.
  intros NK nr top R A V n O r. subst n top.
  set (top := to_size_t (le32toh h (node + nk_subkey_lf K) + 0x1000)) in *.
  pose proof (le16toh_range h (top + 6)) as Rn.
  set (n := le16toh h (top + 6)) in *.
  assert (W : exists e m st',
             _get_children K (walk_budget K) h top flags (walker_lists K nr)
             = Some (Err e m, st')
             /\ offsets (children st') = []
             /\ (Some (e, m)
                 = Some (EFAULT, too_many_subkeys n (fst (block_len h top)))
                 \/ Some (e, m)
                    = Some (EFAULT,
                            too_many_offsets n (fst (block_len h top))))).
  { destruct O as [[T O]|(T & I & O)].
    - destruct (walk_leaf_overflow K h node flags R T) as (st' & W & C & _).
      { fold top. fold n. rewrite to_size_t_small by lia. exact O. }
      exists EFAULT, (too_many_subkeys n (fst (block_len h top))), st'.
      cbn [walker_lists children offsets app] in C. auto.
    - destruct (walk_index_overflow K h node flags R T I)
        as (st' & W & C & _).
      { fold top. fold n. rewrite to_size_t_small by lia. exact O. }
      exists EFAULT, (too_many_offsets n (fst (block_len h top))), st'.
      cbn [walker_lists children offsets app] in C. auto. }
  destruct W as (e & m & st' & W & C & M).
  pose proof (get_children_walk_failed K malloc_ok h node flags NK R A V
                e m st' W) as E.
  unfold r. rewrite E.
  cbn [goto_error return_value error children_ret freed option_map].
  rewrite C. repeat split; auto.
  intros ->. unfold hivex_node_children. rewrite E. reflexivity.
Qed.

Lemma X12_count_beyond_block_witness :
  return_value (_hivex_get_children ntreg Fixture.granted Nested.hive
                  (Fixture.at_ 11) 0) = -1.
Proof.
  assert (NK : is_nk Nested.hive (Fixture.at_ 11) = true)
    by (vm_compute; reflexivity).
  assert (R : 0 < le32toh Nested.hive (Fixture.at_ 11 + nk_nr_subkeys ntreg)
              <= HIVEX_MAX_SUBKEYS ntreg)
    by (vm_compute; split; [reflexivity|discriminate]).
  assert (O : (is_leaf_tag Nested.hive (Fixture.at_ 12) = true
               /\ fst (block_len Nested.hive (Fixture.at_ 12))
                  < 8 + le16toh Nested.hive (Fixture.at_ 12 + 6) * 8)
              \/ (is_leaf_tag Nested.hive (Fixture.at_ 12) = false
                  /\ is_index_tag Nested.hive (Fixture.at_ 12) = true
                  /\ fst (block_len Nested.hive (Fixture.at_ 12))
                     < 8 + le16toh Nested.hive (Fixture.at_ 12 + 6) * 4))
    by (left; vm_compute; split; reflexivity).
  destruct (X12_count_beyond_block ntreg Fixture.granted Nested.hive
              (Fixture.at_ 11) 0 NK R eq_refl eq_refl O) as (E & _).
  exact E.
Defined.

(** ** What the child lookup finds *)

Lemma until_zero_app pre l :
  Forall (fun c => c <> 0) pre ->
  until_zero (pre ++ l) = pre ++ until_zero l.
Proof.
  induction 1 as [|x pre Hx _ IH]; simpl; [reflexivity|].
  destruct (x =? 0) eqn:E; [lia|]. rewrite IH. reflexivity.
Qed.

Lemma get_child_loop_found K malloc_ok h nname cs : forall c,
  get_child_loop K malloc_ok h cs nname = c ->
  c <> 0 ->
  exists pre post name,
    cs = pre ++ c :: post
    /\ Forall (fun x => x <> 0) pre
    /\ Forall (passed_over K malloc_ok h nname) pre
    /\ hivex_node_name K malloc_ok h c = Ok name
    /\ STRCASEEQ name nname = true.
Proof.
  induction cs as [|x cs IH]; intros c H N; cbn [get_child_loop] in H;
    [congruence|].
  destruct (x =? 0) eqn:Z0; [congruence|].
  destruct (hivex_node_name K malloc_ok h x) as [name|e m] eqn:Nm;
    [|congruence].
  destruct (STRCASEEQ name nname) eqn:S.
  - subst x. exists [], cs, name. repeat split; auto.
  - destruct (IH c H N) as (pre & post & name' & -> & NZ & PO & Nm' & S').
    exists (x :: pre), post, name'. repeat split; auto.
    + constructor; [lia|assumption].
    + constructor; [|assumption]. exists name. auto.
Qed.

(** X13. A handle other than 0 that [hivex_node_get_child] returns is one
    of the children [hivex_node_children] returns for the key: an "nk"
    block whose name decodes and equals [nname] up to case, every child
    listed before it having a name that decodes and differs. *)
Theorem X13_found_is_a_child (K : hivex_internal) (malloc_ok : Z -> bool)
  (h : hive_h) (node : Z) (nname : list Z) (c : Z) :
  hivex_node_get_child K malloc_ok h node nname = c ->
  c <> 0 ->
  exists arr pre post name,
    hivex_node_children K malloc_ok h node = Some arr
    /\ until_zero arr = pre ++ c :: post
    /\ Forall (passed_over K malloc_ok h nname) pre
    /\ is_nk h c = true
    /\ hivex_node_name K malloc_ok h c = Ok name
    /\ STRCASEEQ name nname = true.
Proof.
  unfold hivex_node_get_child. intros H N.
  destruct (hivex_node_children K malloc_ok h node) as [arr|] eqn:Ch;
    [|congruence].
  destruct (get_child_loop_found K malloc_ok h nname arr c H N)
    as (pre & post & name & E & NZ & PO & Nm & S).
  destruct (node_children_success K malloc_ok h node arr Ch)
    as (_ & cs & Ea & F & _).
  assert (U : until_zero arr = cs).
  { rewrite Ea. apply until_zero_sentinel.
    eapply Forall_impl; [|exact F]. intros x [_ Nx]; exact Nx. }
  assert (U' : until_zero arr = pre ++ c :: until_zero post).
  { rewrite E, until_zero_app by assumption. simpl.
    destruct (c =? 0) eqn:Z0; [lia|reflexivity]. }
  exists arr, pre, (until_zero post), name. repeat split; auto.
  rewrite Forall_forall in F. apply F. rewrite <- U, U'.
  apply in_or_app. right. left. reflexivity.
Qed.

Lemma X13_found_is_a_child_witness :
  exists arr pre post name,
    hivex_node_children ntreg Fixture.granted Nested.hive (Fixture.at_ 0)
    = Some arr
    /\ until_zero arr = pre ++ Fixture.at_ 7 :: post
    /\ Forall (passed_over ntreg Fixture.granted Nested.hive
                 (c_string "BETA")) pre
    /\ is_nk Nested.hive (Fixture.at_ 7) = true
    /\ hivex_node_name ntreg Fixture.granted Nested.hive (Fixture.at_ 7)
       = Ok name
    /\ STRCASEEQ name (c_string "BETA") = true.
Proof.
  apply (X13_found_is_a_child ntreg Fixture.granted Nested.hive
           (Fixture.at_ 0) (c_string "BETA") (Fixture.at_ 7)).
  - vm_compute. reflexivity.
  - vm_compute. discriminate.
Defined.

Lemma STRCASEEQ_refl a : STRCASEEQ a a = true.
Proof.
  induction a as [|x a IH]; simpl; [reflexivity|].
  rewrite Z.eqb_refl. destruct (x =? 0); [reflexivity|exact IH].
Qed.

(** X14. Looking a child up by the name [hivex_node_name] returns for it
    finds that child, provided every child listed before it has a name
    that decodes and differs from it up to case. *)
Theorem X14_found_by_own_name (K : hivex_internal) (malloc_ok : Z -> bool)
  (h : hive_h) (node : Z) (arr pre post : list Z) (c : Z) (name : list Z) :
  hivex_node_children K malloc_ok h node = Some arr ->
  until_zero arr = pre ++ c :: post ->
  hivex_node_name K malloc_ok h c = Ok name ->
  Forall (passed_over K malloc_ok h name) pre ->
  hivex_node_get_child K malloc_ok h node name = c.
Proof.
  intros Ch U Nm PO. unfold hivex_node_get_child. rewrite Ch.
  destruct (node_children_success K malloc_ok h node arr Ch)
    as (_ & cs & -> & F & _).
  assert (NZ : Forall (fun x => x <> 0) cs).
  { eapply Forall_impl; [|exact F]. intros x [_ Nx]; exact Nx. }
  rewrite (until_zero_sentinel cs NZ) in U. subst cs.
  apply Forall_app in NZ as [NZpre NZc].
  inversion NZc as [|? ? Hc _]; subst.
  rewrite <- app_assoc. rewrite scan_passes by assumption.
  eapply scan_match; eauto. apply STRCASEEQ_refl.
Qed.

Lemma X14_found_by_own_name_witness :
  hivex_node_get_child ntreg Fixture.granted Nested.hive (Fixture.at_ 0)
    (c_string "beta" ++ [0]) = Fixture.at_ 7.
Proof.
  apply (X14_found_by_own_name ntreg Fixture.granted Nested.hive
           (Fixture.at_ 0)
           [Fixture.at_ 6; Fixture.at_ 7; Fixture.at_ 8; 0]
           [Fixture.at_ 6] [Fixture.at_ 8]).
  - vm_compute. reflexivity.
  - vm_compute. reflexivity.
  - vm_compute. reflexivity.
  - constructor; [|constructor].
    exists (c_string "Alpha" ++ [0]). split; vm_compute; reflexivity.
Defined.

(** ** The accumulators, whatever the outcome *)

(** X15. Whatever a call of [_get_children] returns, success or failure,
    it has only appended to the two lists it was given: what they held is
    still there, their limits are unchanged and, if they were within them,
    still respected; every child appended is a biased offset, and a valid
    "nk" block when the check is active. *)
Theorem X15_walk_only_appends (K : hivex_internal) (h : hive_h) (flags : Z)
  (fuel : nat) (blkoff : Z) (st st' : lists) (o : result unit) :
  _get_children K fuel h blkoff flags st = Some (o, st') ->
  exists cs bs,
    appended st st' cs bs
    /\ Forall (fun c =>
                 0x1000 <= c
                 /\ (Z.land flags (GET_CHILDREN_NO_CHECK_NK K) = 0 ->
                     is_nk h c = true)) cs
    /\ (forall n, limit (children st) = Some n ->
          _hivex_get_offset_list_length (children st) <= n ->
          _hivex_get_offset_list_length (children st)
          + Z.of_nat (List.length cs) <= n)
    /\ (forall n, limit (blocks st) = Some n ->
          _hivex_get_offset_list_length (blocks st) <= n ->
          _hivex_get_offset_list_length (blocks st) + Z.of_nat (List.length bs)
          <= n).
Proof.
  intros W. apply preserves_get_children in W.
  destruct W as [LC LB [cs [C F]] [bs B] BC BB].
  exists cs, bs. unfold appended. repeat split; auto.
  - intros n L Le. specialize (BC n L Le).
    unfold _hivex_get_offset_list_length in *.
    rewrite C, length_app in BC. lia.
  - intros n L Le. specialize (BB n L Le).
    unfold _hivex_get_offset_list_length in *.
    rewrite B, length_app in BB. lia.
Qed.

Lemma X15_walk_only_appends_witness :
  exists cs bs,
    appended (walker_lists ntreg 1)
      {| children := {| offsets := [4224]; alloc := 1; limit := Some 1 |};
         blocks := {| offsets := [5120]; alloc := 1;
                      limit := Some 70000 |} |} cs bs.
Proof.
  destruct (X15_walk_only_appends ntreg Fixture.hive 0 2 (Fixture.at_ 8)
              (walker_lists ntreg 1)
              {| children := {| offsets := [4224]; alloc := 1;
                                limit := Some 1 |};
                 blocks := {| offsets := [5120]; alloc := 1;
                              limit := Some 70000 |} |}
              (Err ERANGE (offset_list_over_limit 1)))
    as (cs & bs & Ap & _).
  - vm_compute. reflexivity.
  - exists cs, bs. exact Ap.
Defined.

(** ** More children than declared, and dangling index entries *)

Lemma lf_loop_over K h flags lf N n : forall i0 st,
  limit (children st) = Some N ->
  _hivex_get_offset_list_length (children st) <= N ->
  Forall (fun c => check_child_is_nk_block K h c flags = Ok tt)
    (map (fun j => lf_key h lf (Z.of_nat j)) (seq i0 n)) ->
  N - _hivex_get_offset_list_length (children st) < Z.of_nat n ->
  exists st',
    lf_loop K h flags lf n (Z.of_nat i0) st
    = Some (Err ERANGE (offset_list_over_limit N), st')
    /\ appended st st'
         (firstn (Z.to_nat (N - _hivex_get_offset_list_length (children st)))
            (map (fun j => lf_key h lf (Z.of_nat j)) (seq i0 n))) [].
Proof.
  induction n as [|n IH]; intros i0 st L Le F Lt; [lia|].
  cbn [lf_loop seq map] in *. inversion F as [|? ? C F']; subst.
  rewrite C, bind_lift_ok. unfold bind at 1, add_child.
  destruct (Z.eq_dec (_hivex_get_offset_list_length (children st)) N)
    as [Full|Room].
  - rewrite (add_full _ _ _ L) by lia.
    exists st. split; [reflexivity|].
    replace (N - _hivex_get_offset_list_length (children st)) with 0 by lia.
    apply appended_refl.
  - destruct (add_room (children st) (lf_key h lf (Z.of_nat i0)) N L)
      as (l' & A & O & L'); [lia|].
    rewrite A. replace (Z.of_nat i0 + 1) with (Z.of_nat (S i0)) by lia.
    assert (Len : _hivex_get_offset_list_length l'
                  = _hivex_get_offset_list_length (children st) + 1).
    { unfold _hivex_get_offset_list_length. rewrite O, length_app_one.
      reflexivity. }
    destruct (IH (S i0) {| children := l'; blocks := blocks st |})
      as (st' & W & Ap); cbn [children]; try assumption; try lia.
    + congruence.
    + exists st'. split; [exact W|].
      replace (Z.to_nat (N - _hivex_get_offset_list_length (children st)))
        with (S (Z.to_nat (N - _hivex_get_offset_list_length l')))
        by lia.
      cbn [firstn].
      apply (appended_trans st {| children := l'; blocks := blocks st |} st'
               [lf_key h lf (Z.of_nat i0)] [] _ []); [|exact Ap].
      unfold appended. cbn [children blocks]. rewrite app_nil_r. auto.
Qed.

(** X16. A key that declares fewer subkeys than its leaf holds, all of
    them acceptable, is not enumerated: the list of children is limited to
    the declared count, so the walk stops at the first entry beyond it
    with ERANGE, having gathered the entries up to the count; they are
    released and nothing is returned. *)
Theorem X16_more_children_than_declared (K : hivex_internal)
  (malloc_ok : Z -> bool) (h : hive_h) (node : Z) (flags : Z) :
  is_nk h node = true ->
  let nr := le32toh h (node + nk_nr_subkeys K) in
  let top := to_size_t (le32toh h (node + nk_subkey_lf K) + 0x1000) in
  0 < nr <= HIVEX_MAX_SUBKEYS K ->
  malloc_ok (8 * nr) = true ->
  IS_VALID_BLOCK h top = true ->
  leaf_ok K h flags top = true ->
  nr < Z.of_nat (List.length (leaf_children h top)) ->
  let r := _hivex_get_children K malloc_ok h node flags in
  return_value r = -1
  /\ error r = Some (ERANGE, offset_list_over_limit nr)
  /\ children_ret r = None
  /\ option_map (fun st => offsets (children st)) (freed r)
     = Some (firstn (Z.to_nat nr) (leaf_children h top))
  /\ (flags = 0 -> hivex_node_children K malloc_ok h node = None).
Proof.
  intros NK nr top R A V OK Lt r.
  apply leaf_ok_inv in OK as (T & S & F).
  assert (W : exists st',
             _get_children K (walk_budget K) h top flags (walker_lists K nr)
             = Some (Err ERANGE (offset_list_over_limit nr), st')
             /\ offsets (children st')
                = firstn (Z.to_nat nr) (leaf_children h top)).
  { unfold walk_budget. rewrite get_children_step.
    destruct (first_block_recorded K nr top) as (st1 & E & Ap); [lia|].
    unfold bind at 1. rewrite E, T, S.
    destruct Ap as (C1 & _ & L1 & _).
    cbn [walker_lists children offsets limit app] in C1, L1.
    rewrite leaf_children_length in Lt.
    destruct (lf_loop_over K h flags top nr
                (Z.to_nat (le16toh h (top + 6))) 0%nat st1 L1)
      as (st' & W & C & _).
    - unfold _hivex_get_offset_list_length. rewrite C1. simpl. lia.
    - exact F.
    - unfold _hivex_get_offset_list_length. rewrite C1. simpl. lia.
    - exists st'. change (Z.of_nat 0) with 0 in W. split; [exact W|].
      rewrite C, C1. unfold _hivex_get_offset_list_length. rewrite C1.
      simpl. rewrite Z.sub_0_r. reflexivity. }
  destruct W as (st' & W & C).
  pose proof (get_children_walk_failed K malloc_ok h node flags NK R A V
                _ _ st' W) as E.
  unfold r. rewrite E.
  cbn [goto_error return_value error children_ret freed option_map].
  rewrite C. repeat split.
  intros ->. unfold hivex_node_children. rewrite E. reflexivity.
Qed.

Lemma X16_more_children_than_declared_witness :
  error (_hivex_get_children ntreg Fixture.granted Fixture.hive
           (Fixture.at_ 12) 0)
  = Some (ERANGE, offset_list_over_limit 1).
Proof.
  assert (NK : is_nk Fixture.hive (Fixture.at_ 12) = true)
    by (vm_compute; reflexivity).
  assert (R : 0 < le32toh Fixture.hive (Fixture.at_ 12 + nk_nr_subkeys ntreg)
              <= HIVEX_MAX_SUBKEYS ntreg)
    by (vm_compute; split; [reflexivity|discriminate]).
  assert (Lt : le32toh Fixture.hive (Fixture.at_ 12 + nk_nr_subkeys ntreg)
               < Z.of_nat (List.length
                             (leaf_children Fixture.hive (Fixture.at_ 8))))
    by (vm_compute; reflexivity).
  destruct (X16_more_children_than_declared ntreg Fixture.granted
              Fixture.hive (Fixture.at_ 12) 0 NK R eq_refl eq_refl eq_refl
              Lt) as (_ & E & _).
  exact E.
Defined.

Lemma ri_loop_invalid h (rec : Z -> walk unit) (ok : Z -> bool)
  (C B : Z -> list Z) ri x post :
  (forall b st,
     ok b = true ->
     fits (blocks st) (List.length (B b)) ->
     fits (children st) (List.length (C b)) ->
     exists st', rec b st = Some (Ok tt, st') /\ appended st st' (C b) (B b)) ->
  IS_VALID_BLOCK h x = false ->
  forall before,
    Forall (fun b => IS_VALID_BLOCK h b = true /\ ok b = true) before ->
    forall n i0 st,
      map (fun j => ri_offset h ri (Z.of_nat j)) (seq i0 n)
      = before ++ x :: post ->
      fits (blocks st) (List.length (flat_map B before)) ->
      fits (children st) (List.length (flat_map C before)) ->
      exists st',
        ri_loop rec h ri n (Z.of_nat i0) st
        = Some (Err EFAULT (ri_offset_not_valid x), st')
        /\ appended st st' (flat_map C before) (flat_map B before).
Proof.
  intros Hrec Vx before F.
  induction F as [|b before [Vb OKb] F IH]; intros n i0 st E RB RC.
  - destruct n as [|n]; [discriminate|]. cbn [ri_loop seq map app] in *.
    injection E as E0 _. rewrite E0, Vx. cbn [negb].
    exists st. split; [reflexivity|apply appended_refl].
  - destruct n as [|n]; [discriminate|].
    cbn [ri_loop seq map app flat_map] in *.
    injection E as E0 E. rewrite E0, Vb. cbn [negb].
    rewrite length_app in RB, RC.
    destruct (Hrec b st OKb) as (st1 & E1 & Ap1).
    { eapply fits_less; [|exact RB]. lia. }
    { eapply fits_less; [|exact RC]. lia. }
    unfold bind at 1. rewrite E1.
    replace (Z.of_nat i0 + 1) with (Z.of_nat (S i0)) by lia.
    destruct Ap1 as (C1 & B1 & LC1 & LB1).
    destruct (IH n (S i0) st1 E) as (st' & W & Ap).
    { eapply fits_after; eauto. }
    { eapply fits_after; eauto. }
    exists st'. split; [exact W|].
    eapply appended_trans; [|exact Ap]. unfold appended; auto.
Qed.

(** X17. A key over an index one of whose entries is not a valid block is
    not enumerated: the entries before it being well-formed trees with
    room in the lists, the call fails with EFAULT and a diagnostic naming
    the first entry that is not valid; what the walk had gathered from the
    entries before it is released. *)
Theorem X17_dangling_index_entry (K : hivex_internal)
  (malloc_ok : Z -> bool) (h : hive_h) (node : Z) (flags : Z) (d : nat)
  (before : list Z) (x : Z) (post : list Z) :
  is_nk h node = true ->
  let nr := le32toh h (node + nk_nr_subkeys K) in
  let top := to_size_t (le32toh h (node + nk_subkey_lf K) + 0x1000) in
  0 < nr <= HIVEX_MAX_SUBKEYS K ->
  malloc_ok (8 * nr) = true ->
  IS_VALID_BLOCK h top = true ->
  is_leaf_tag h top = false ->
  is_index_tag h top = true ->
  to_size_t (8 + le16toh h (top + 6) * 4) <= fst (block_len h top) ->
  index_blocks h top = before ++ x :: post ->
  forallb (fun b => IS_VALID_BLOCK h b && tree_ok K h flags d b) before
  = true ->
  IS_VALID_BLOCK h x = false ->
  (S d <= walk_budget K)%nat ->
  Z.of_nat (List.length (flat_map (tree_blocks h d) before))
  < HIVEX_MAX_SUBKEYS K ->
  Z.of_nat (List.length (flat_map (tree_children h d) before)) <= nr ->
  let r := _hivex_get_children K malloc_ok h node flags in
  return_value r = -1
  /\ error r = Some (EFAULT, ri_offset_not_valid x)
  /\ children_ret r = None /\ blocks_ret r = None
  /\ option_map (fun st => offsets (children st)) (freed r)
     = Some (flat_map (tree_children h d) before)
  /\ (flags = 0 -> hivex_node_children K malloc_ok h node = None).
Proof.
  intros NK nr top R A V T I Sz E F Vx Hd LB LC r.
  assert (W : exists st',
             _get_children K (S d) h top flags (walker_lists K nr)
             = Some (Err EFAULT (ri_offset_not_valid x), st')
             /\ offsets (children st')
                = flat_map (tree_children h d) before).
  { rewrite get_children_step.
    destruct (first_block_recorded K nr top) as (st1 & E1 & Ap); [lia|].
    unfold bind at 1. rewrite E1.
    fold (is_leaf_tag h top). fold (is_index_tag h top). rewrite T, I.
    destruct (to_size_t (8 + le16toh h (top + 6) * 4)
              >? fst (block_len h top)) eqn:G; [lia|].
    destruct Ap as (C1 & B1 & LC1 & LB1).
    cbn [walker_lists children blocks offsets limit app] in C1, B1, LC1, LB1.
    destruct (ri_loop_invalid h
                (fun offset => _get_children K d h offset flags)
                (tree_ok K h flags d) (tree_children h d) (tree_blocks h d)
                top x post (walk_sound K h flags d) Vx before)
      with (n := Z.to_nat (le16toh h (top + 6))) (i0 := 0%nat) (st := st1)
      as (st' & W & C & _).
    - apply Forall_forall. intros b Ib. rewrite forallb_forall in F.
      specialize (F b Ib). apply andb_true_iff in F. exact F.
    - exact E.
    - intros N EN. rewrite LB1 in EN. injection EN as <-.
      unfold _hivex_get_offset_list_length. rewrite B1.
      cbn [app List.length]. lia.
    - intros N EN. rewrite LC1 in EN. injection EN as <-.
      unfold _hivex_get_offset_list_length. rewrite C1.
      cbn [app List.length]. lia.
    - exists st'. change (Z.of_nat 0) with 0 in W. split; [exact W|].
      rewrite C, C1. reflexivity. }
  destruct W as (st' & W & C).
  apply (get_children_mono K h flags _ _ _ _ _ Hd) in W.
  pose proof (get_children_walk_failed K malloc_ok h node flags NK R A V
                _ _ st' W) as Er.
  unfold r. rewrite Er.
  cbn [goto_error return_value error children_ret blocks_ret freed
       option_map].
  rewrite C. repeat split.
  intros ->. unfold hivex_node_children. rewrite Er. reflexivity.
Qed.

Lemma X17_dangling_index_entry_witness :
  error (_hivex_get_children ntreg Fixture.granted Nested.hive
           (Fixture.at_ 13) 0)
  = Some (EFAULT, ri_offset_not_valid (Fixture.at_ 40)).
Proof.
  assert (NK : is_nk Nested.hive (Fixture.at_ 13) = true)
    by (vm_compute; reflexivity).
  assert (R : 0 < le32toh Nested.hive (Fixture.at_ 13 + nk_nr_subkeys ntreg)
              <= HIVEX_MAX_SUBKEYS ntreg)
    by (vm_compute; split; [reflexivity|discriminate]).
  assert (Sz : to_size_t (8 + le16toh Nested.hive (Fixture.at_ 14 + 6) * 4)
               <= fst (block_len Nested.hive (Fixture.at_ 14)))
    by (vm_compute; discriminate).
  assert (E : index_blocks Nested.hive (Fixture.at_ 14)
              = [Fixture.at_ 3] ++ Fixture.at_ 40 :: [])
    by (vm_compute; reflexivity).
  assert (Hd : (2 <= walk_budget ntreg)%nat)
    by (unfold walk_budget; simpl HIVEX_MAX_SUBKEYS; lia).
  assert (LB : Z.of_nat (List.length
                           (flat_map (tree_blocks Nested.hive 1)
                              [Fixture.at_ 3]))
               < HIVEX_MAX_SUBKEYS ntreg)
    by (vm_compute; reflexivity).
  assert (LC : Z.of_nat (List.length
                           (flat_map (tree_children Nested.hive 1)
                              [Fixture.at_ 3]))
               <= le32toh Nested.hive (Fixture.at_ 13 + nk_nr_subkeys ntreg))
    by (vm_compute; discriminate).
  destruct (X17_dangling_index_entry ntreg Fixture.granted Nested.hive
              (Fixture.at_ 13) 0 1 [Fixture.at_ 3] (Fixture.at_ 40) []
              NK R eq_refl eq_refl eq_refl eq_refl Sz E eq_refl eq_refl
              Hd LB LC) as (_ & Er & _).
  exact Er.
Defined.
